(** * Media cleanup: the mapping-and-deletion engine

    A shallow embedding of [media-pipeline/scripts/media_mapper.py] and
    [media-pipeline/scripts/cleanup.py], and the properties of the design
    document that can be stated over it.

    Conventions.
    - A Python [str] is represented by its UTF-8 encoding, a [string] of
      bytes; equality, [replace], [strip] and [in] on valid text agree with
      Python's on code points.
    - A Python [int] is a [Z].
    - A Python [dict] is an association list in insertion order (iteration
      order is observable in the matchers).
    - An instant is a [Z]: microseconds on the UTC time line, counted from
      0001-01-01T00:00:00, the least [datetime].
    - A date text is represented by what [datetime.fromisoformat] makes of
      it: a [datetime] with an offset, one without, or a [ValueError]; the
      [datetime] operations raise where Python's do.
    - Methods that touch the network, the caches or the statistics are
      computations in a state-and-exception monad over one [Proc] record. *)

From Stdlib Require Import ZArith List String Ascii Bool Lia.
From Stdlib Require Import DecimalString.
Import ListNotations.
Local Open Scope string_scope.
Local Open Scope Z_scope.

(** ** Python strings *)

Module PyStr.

Definition slash : ascii := "/"%char.
Definition percent : ascii := "%"%char.

(** [s.replace(old, new)]: non-overlapping occurrences, left to right.
    [skip] counts the characters of the current occurrence still to drop. *)
Fixpoint replace_from (old new : string) (skip : nat) (s : string) : string :=
  match s with
  | EmptyString => EmptyString
  | String c r =>
      match skip with
      | S k => replace_from old new k r
      | O =>
          if String.prefix old s
          then new ++ replace_from old new (Nat.pred (String.length old)) r
          else String c (replace_from old new 0 r)
      end
  end.

(** With an empty [old], Python puts [new] before every character and at
    the end. *)
Fixpoint intersperse (new s : string) : string :=
  match s with
  | EmptyString => new
  | String c r => new ++ String c (intersperse new r)
  end.

Definition replace (s old new : string) : string :=
  match old with
  | EmptyString => intersperse new s
  | _ => replace_from old new 0 s
  end.

(** [s.lstrip("/")], [s.rstrip("/")], [s.strip("/")] *)
Fixpoint lstrip_slash (s : string) : string :=
  match s with
  | String c r => if Ascii.eqb c slash then lstrip_slash r else s
  | EmptyString => EmptyString
  end.

Fixpoint rstrip_slash (s : string) : string :=
  match s with
  | EmptyString => EmptyString
  | String c r =>
      match rstrip_slash r with
      | EmptyString => if Ascii.eqb c slash then EmptyString else String c EmptyString
      | r' => String c r'
      end
  end.

Definition strip_slash (s : string) : string := rstrip_slash (lstrip_slash s).

(** ['%' in s] *)
Fixpoint has_percent (s : string) : bool :=
  match s with
  | EmptyString => false
  | String c r => Ascii.eqb c percent || has_percent r
  end.

(** Truthiness of a string: non-empty. *)
Definition truthy (s : string) : bool :=
  match s with EmptyString => false | _ => true end.

(** [str(n)] for an int. *)
Definition of_Z (n : Z) : string := NilZero.string_of_int (Z.to_int n).

End PyStr.

(** ** [urllib.parse.unquote]

    [unquote(s)] returns [s] itself when it holds no percent sign.
    Otherwise every maximal run of ASCII characters is percent-decoded to
    bytes ([unquote_to_bytes]) and the bytes are decoded as UTF-8 with
    [errors='replace']; characters outside ASCII are copied. *)

Module Urllib.

Definition byte (c : ascii) : N := N_of_ascii c.
Definition between (lo hi : N) (c : ascii) : bool :=
  (N.leb lo (byte c) && N.leb (byte c) hi)%bool.

Definition hexval (c : ascii) : option N :=
  let n := byte c in
  if between 48 57 c then Some (n - 48)%N
  else if between 65 70 c then Some (n - 55)%N
  else if between 97 102 c then Some (n - 87)%N
  else None.

(** [_hextobyte]: two hexadecimal digits. *)
Definition hextobyte (h l : ascii) : option ascii :=
  match hexval h, hexval l with
  | Some a, Some b => Some (ascii_of_N (16 * a + b))
  | _, _ => None
  end.

(** [unquote_to_bytes]: a percent sign followed by two hexadecimal digits
    becomes that byte, any other percent sign stays. *)
Fixpoint unquote_to_bytes (s : string) : string :=
  match s with
  | EmptyString => EmptyString
  | String c r =>
      if Ascii.eqb c PyStr.percent then
        match r with
        | String h (String l r2) =>
            match hextobyte h l with
            | Some b => String b (unquote_to_bytes r2)
            | None => String c (unquote_to_bytes r)
            end
        | _ => String c (unquote_to_bytes r)
        end
      else String c (unquote_to_bytes r)
  end.

(** U+FFFD in UTF-8. *)
Definition replacement : string :=
  String (ascii_of_N 239) (String (ascii_of_N 191) (String (ascii_of_N 189) EmptyString)).

Definition continuation (c : ascii) : bool := between 128 191 c.

(** Second byte of a three-byte sequence led by [c]. *)
Definition second_of_3 (c c2 : ascii) : bool :=
  if N.eqb (byte c) 224 then between 160 191 c2
  else if N.eqb (byte c) 237 then between 128 159 c2
  else continuation c2.

(** Second byte of a four-byte sequence led by [c]. *)
Definition second_of_4 (c c2 : ascii) : bool :=
  if N.eqb (byte c) 240 then between 144 191 c2
  else if N.eqb (byte c) 244 then between 128 143 c2
  else continuation c2.

(** [bytes.decode('utf-8', 'replace')], re-encoded: well-formed sequences
    are copied, every malformed range (a bad lead byte, a lead byte with
    the well-formed bytes after it up to the offending one, or a truncated
    sequence at the end) becomes one U+FFFD. *)
Fixpoint decode_utf8_replace (s : string) : string :=
  match s with
  | EmptyString => EmptyString
  | String c r =>
      if between 0 127 c then String c (decode_utf8_replace r)
      else if between 194 223 c then
        match r with
        | EmptyString => replacement
        | String c2 r2 =>
            if continuation c2 then String c (String c2 (decode_utf8_replace r2))
            else replacement ++ decode_utf8_replace r
        end
      else if between 224 239 c then
        match r with
        | EmptyString => replacement
        | String c2 r2 =>
            if second_of_3 c c2 then
              match r2 with
              | EmptyString => replacement
              | String c3 r3 =>
                  if continuation c3
                  then String c (String c2 (String c3 (decode_utf8_replace r3)))
                  else replacement ++ decode_utf8_replace r2
              end
            else replacement ++ decode_utf8_replace r
        end
      else if between 240 244 c then
        match r with
        | EmptyString => replacement
        | String c2 r2 =>
            if second_of_4 c c2 then
              match r2 with
              | EmptyString => replacement
              | String c3 r3 =>
                  if continuation c3 then
                    match r3 with
                    | EmptyString => replacement
                    | String c4 r4 =>
                        if continuation c4
                        then String c (String c2 (String c3
                               (String c4 (decode_utf8_replace r4))))
                        else replacement ++ decode_utf8_replace r3
                    end
                  else replacement ++ decode_utf8_replace r2
              end
            else replacement ++ decode_utf8_replace r
        end
      else replacement ++ decode_utf8_replace r
  end.

Definition is_ascii (c : ascii) : bool := between 0 127 c.

(** The text split into maximal runs, ASCII and non-ASCII alternating
    ([_asciire.split]); [run] is the run being collected, reversed. *)
Fixpoint runs (cur_ascii : bool) (run : string) (s : string) : list (bool * string) :=
  match s with
  | EmptyString => [(cur_ascii, run)]
  | String c r =>
      if Bool.eqb (is_ascii c) cur_ascii
      then runs cur_ascii (run ++ String c EmptyString) r
      else (cur_ascii, run) :: runs (is_ascii c) (String c EmptyString) r
  end.

Definition unquote_run (p : bool * string) : string :=
  if fst p then decode_utf8_replace (unquote_to_bytes (snd p)) else snd p.

Definition unquote (s : string) : string :=
  if PyStr.has_percent s
  then String.concat EmptyString (map unquote_run (runs false EmptyString s))
  else s.

End Urllib.

(** ** The path normalizer, [MediaMapper._normalize_path] *)

Definition _normalize_path (path prefix_to_remove : string) : string :=
  let normalized := PyStr.replace path prefix_to_remove EmptyString in
  let normalized := Urllib.unquote normalized in
  PyStr.strip_slash normalized.

(** ** Python dictionaries: association lists in insertion order *)

Section Dict.
Context {K V : Type}.
Variable eqb : K -> K -> bool.

Definition dict := list (K * V).

(** [d.get(k)] *)
Fixpoint dict_get (k : K) (d : dict) : option V :=
  match d with
  | [] => None
  | (k', v) :: r => if eqb k k' then Some v else dict_get k r
  end.

(** [k in d] *)
Definition dict_mem (k : K) (d : dict) : bool :=
  match dict_get k d with Some _ => true | None => false end.

(** [d[k] = v]: an existing key keeps its place, a new one goes last. *)
Fixpoint dict_set (k : K) (v : V) (d : dict) : dict :=
  match d with
  | [] => [(k, v)]
  | (k', v') :: r => if eqb k k' then (k', v) :: r else (k', v') :: dict_set k v r
  end.

(** [del d[k]] *)
Fixpoint dict_del (k : K) (d : dict) : dict :=
  match d with
  | [] => []
  | (k', v') :: r => if eqb k k' then r else (k', v') :: dict_del k r
  end.

(** [d.keys()] *)
Definition dict_keys (d : dict) : list K := map fst d.

(** [{key(x): val(x) for x in l}] *)
Definition dict_of {A} (key : A -> K) (val : A -> V) (l : list A) : dict :=
  fold_left (fun d x => dict_set (key x) (val x) d) l [].
End Dict.

Arguments dict : clear implicits.

(** ** JSON documents of the three services *)

(** A date text, by what [datetime.fromisoformat] makes of it once every Z
    is turned into +00:00: a [datetime] with a UTC offset, which denotes an
    instant; a [datetime] without one, which is a reading of some wall
    clock; or nothing, for a text that is not in ISO format. *)
Inductive isotext :=
| Aware (instant : Z)
| Naive (wall : Z)
| Malformed.

(** Watch-state source (Jellyfin). In [LastPlayedDate], [None] stands for a
    missing, null or empty field. *)
Record JellyfinUser := { user_Name : string; user_Id : string }.

Record JellyfinItem := {
  Name : string;
  Path : option string;
  LastPlayedDate : option isotext;   (* UserData.LastPlayedDate *)
  Tmdb : option string;            (* ProviderIds.Tmdb *)
  SeriesName : option string
}.

(** Movie catalog (Radarr). *)
Record RadarrMovie := {
  id : Z;
  hasFile : bool;
  movieFile : option string;       (* movieFile.path *)
  tmdbId : option Z;
  tags : list Z
}.

(** Series catalog (Sonarr). *)
Record SonarrSeries := { series_id : Z }.

Record SonarrEpisode := {
  ep_hasFile : bool;
  episodeFile : option string;     (* episodeFile.path *)
  episodeFileId : Z
}.

Record Tag := { tag_id : Z; label : string }.

(** ** Collaborator calls *)

Inductive request :=
| GET_jellyfin_Users
| GET_jellyfin_Items_Movie (user_id : string)
| GET_jellyfin_Items_Episode (user_id : string)
| GET_radarr_movie
| GET_radarr_tag
| DELETE_radarr_movie (movie_id : Z)
| GET_sonarr_series
| GET_sonarr_episode (seriesId : Z)
| GET_sonarr_tag
| DELETE_sonarr_episodefile (episode_file_id : Z)
| DELETE_sonarr_episodefile_bulk (episode_file_ids : list Z).

(** What a call that does not raise hands back: the decoded body of a GET
    (after [raise_for_status]), the status code of a DELETE. *)
Definition reply (r : request) : Type :=
  match r with
  | GET_jellyfin_Users => list JellyfinUser
  | GET_jellyfin_Items_Movie _ => list JellyfinItem
  | GET_jellyfin_Items_Episode _ => list JellyfinItem
  | GET_radarr_movie => list RadarrMovie
  | GET_radarr_tag => list Tag
  | DELETE_radarr_movie _ => Z
  | GET_sonarr_series => list SonarrSeries
  | GET_sonarr_episode _ => list SonarrEpisode
  | GET_sonarr_tag => list Tag
  | DELETE_sonarr_episodefile _ => Z
  | DELETE_sonarr_episodefile_bulk _ => Z
  end.

Definition mutating (r : request) : bool :=
  match r with
  | DELETE_radarr_movie _ | DELETE_sonarr_episodefile _
  | DELETE_sonarr_episodefile_bulk _ => true
  | _ => false
  end.

(** ** Exceptions and outcomes *)

Inductive exn :=
| RequestException (detail : string)   (* transport: connection or HTTP status *)
| KeyError
| ValueError
| TypeError
| OverflowError.

Inductive outcome (A : Type) :=
| Return (a : A)
| Raise (e : exn).
Arguments Return {A} a.
Arguments Raise {A} e.

(** One entry of the record of calls: what was sent, the exception it raised
    if any, and the status code a DELETE answered with. *)
Record call := {
  call_request : request;
  call_error : option exn;
  call_status : option Z
}.

Definition error_of {A} (o : outcome A) : option exn :=
  match o with Return _ => None | Raise e => Some e end.

Definition code_of (o : outcome Z) : option Z :=
  match o with Return c => Some c | Raise _ => None end.

Definition status_of (r : request) : outcome (reply r) -> option Z :=
  match r return outcome (reply r) -> option Z with
  | DELETE_radarr_movie _ => code_of
  | DELETE_sonarr_episodefile _ => code_of
  | DELETE_sonarr_episodefile_bulk _ => code_of
  | _ => fun _ => None
  end.

Definition call_of (r : request) (o : outcome (reply r)) : call :=
  {| call_request := r; call_error := error_of o; call_status := status_of r o |}.

(** ** Configuration and statistics *)

Record CleanupConfig := {
  grace_period_days : Z;
  dry_run : bool;
  keep_tag_label : string;
  primary_user_name : string
}.

Record CleanupStats := {
  movies_watched : Z;
  movies_eligible : Z;
  movies_skipped_tag : Z;
  movies_skipped_not_found : Z;
  movies_deleted : Z;
  movies_failed : Z;
  episodes_watched : Z;
  episodes_eligible : Z;
  episodes_skipped_tag : Z;
  episodes_skipped_not_found : Z;
  episodes_deleted : Z;
  episodes_failed : Z
}.

(** [CleanupStats()] *)
Definition CleanupStats_new : CleanupStats :=
  {| movies_watched := 0; movies_eligible := 0; movies_skipped_tag := 0;
     movies_skipped_not_found := 0; movies_deleted := 0; movies_failed := 0;
     episodes_watched := 0; episodes_eligible := 0; episodes_skipped_tag := 0;
     episodes_skipped_not_found := 0; episodes_deleted := 0; episodes_failed := 0 |}.

Inductive counter :=
| c_movies_watched | c_movies_eligible | c_movies_skipped_tag
| c_movies_skipped_not_found | c_movies_deleted | c_movies_failed
| c_episodes_watched | c_episodes_eligible | c_episodes_skipped_tag
| c_episodes_skipped_not_found | c_episodes_deleted | c_episodes_failed.

(** [self.stats.<counter> = f(self.stats.<counter>)] *)
Definition update_counter (c : counter) (f : Z -> Z) (st : CleanupStats) : CleanupStats :=
  let '(Build_CleanupStats mw me mt mn md mf ew ee et en ed ef) := st in
  match c with
  | c_movies_watched => Build_CleanupStats (f mw) me mt mn md mf ew ee et en ed ef
  | c_movies_eligible => Build_CleanupStats mw (f me) mt mn md mf ew ee et en ed ef
  | c_movies_skipped_tag => Build_CleanupStats mw me (f mt) mn md mf ew ee et en ed ef
  | c_movies_skipped_not_found => Build_CleanupStats mw me mt (f mn) md mf ew ee et en ed ef
  | c_movies_deleted => Build_CleanupStats mw me mt mn (f md) mf ew ee et en ed ef
  | c_movies_failed => Build_CleanupStats mw me mt mn md (f mf) ew ee et en ed ef
  | c_episodes_watched => Build_CleanupStats mw me mt mn md mf (f ew) ee et en ed ef
  | c_episodes_eligible => Build_CleanupStats mw me mt mn md mf ew (f ee) et en ed ef
  | c_episodes_skipped_tag => Build_CleanupStats mw me mt mn md mf ew ee (f et) en ed ef
  | c_episodes_skipped_not_found => Build_CleanupStats mw me mt mn md mf ew ee et (f en) ed ef
  | c_episodes_deleted => Build_CleanupStats mw me mt mn md mf ew ee et en (f ed) ef
  | c_episodes_failed => Build_CleanupStats mw me mt mn md mf ew ee et en ed (f ef)
  end.

(** ** The mapper object *)

Record MediaMapper := {
  jellyfin_movie_prefix : string;
  jellyfin_tv_prefix : string;
  radarr_prefix : string;
  sonarr_prefix : string;
  _movies_cache : option (dict Z RadarrMovie);
  _series_cache : option (dict Z SonarrSeries);
  _episodes_cache : dict Z (list SonarrEpisode);
  _tags_cache : dict string (dict Z string)
}.

(** [MediaMapper.__init__]: empty caches. *)
Definition MediaMapper_new (jm jt rp sp : string) : MediaMapper :=
  {| jellyfin_movie_prefix := jm; jellyfin_tv_prefix := jt;
     radarr_prefix := rp; sonarr_prefix := sp;
     _movies_cache := None; _series_cache := None;
     _episodes_cache := []; _tags_cache := [] |}.

Definition set_movies_cache (c : option (dict Z RadarrMovie)) (m : MediaMapper) :=
  {| jellyfin_movie_prefix := jellyfin_movie_prefix m;
     jellyfin_tv_prefix := jellyfin_tv_prefix m;
     radarr_prefix := radarr_prefix m; sonarr_prefix := sonarr_prefix m;
     _movies_cache := c; _series_cache := _series_cache m;
     _episodes_cache := _episodes_cache m; _tags_cache := _tags_cache m |}.

Definition set_series_cache (c : option (dict Z SonarrSeries)) (m : MediaMapper) :=
  {| jellyfin_movie_prefix := jellyfin_movie_prefix m;
     jellyfin_tv_prefix := jellyfin_tv_prefix m;
     radarr_prefix := radarr_prefix m; sonarr_prefix := sonarr_prefix m;
     _movies_cache := _movies_cache m; _series_cache := c;
     _episodes_cache := _episodes_cache m; _tags_cache := _tags_cache m |}.

Definition set_episodes_cache (c : dict Z (list SonarrEpisode)) (m : MediaMapper) :=
  {| jellyfin_movie_prefix := jellyfin_movie_prefix m;
     jellyfin_tv_prefix := jellyfin_tv_prefix m;
     radarr_prefix := radarr_prefix m; sonarr_prefix := sonarr_prefix m;
     _movies_cache := _movies_cache m; _series_cache := _series_cache m;
     _episodes_cache := c; _tags_cache := _tags_cache m |}.

Definition set_tags_cache (c : dict string (dict Z string)) (m : MediaMapper) :=
  {| jellyfin_movie_prefix := jellyfin_movie_prefix m;
     jellyfin_tv_prefix := jellyfin_tv_prefix m;
     radarr_prefix := radarr_prefix m; sonarr_prefix := sonarr_prefix m;
     _movies_cache := _movies_cache m; _series_cache := _series_cache m;
     _episodes_cache := _episodes_cache m; _tags_cache := c |}.

(** Truthiness of an optional int ([if not x]): [None] and [0] are falsy. *)
Definition truthy_id (x : option Z) : bool :=
  match x with Some n => negb (Z.eqb n 0) | None => false end.

(** Truthiness of an optional string: [None] and the empty string are falsy. *)
Definition truthy_str (x : option string) : bool :=
  match x with Some s => PyStr.truthy s | None => false end.

(** [str(movie.get('tmdbId'))] *)
Definition str_of_tmdbId (x : option Z) : string :=
  match x with Some n => PyStr.of_Z n | None => "None" end.

(** ** The process: mapper, statistics, the outside world, what was sent *)

Section Engine.

(** The three services and the clock, as the process sees them: a call
    either raises or hands back a reply, and may change the world. *)
Variable World : Type.
Variable http : forall r : request, World -> outcome (reply r) * World.
Variable utcnow : World -> Z * World.

(** [str.lower] *)
Variable lower : string -> string.

Record Proc := {
  mapper : MediaMapper;
  stats : CleanupStats;
  world : World;
  calls : list call;                 (* collaborator calls, oldest first *)
  summaries : list CleanupStats      (* what [print_summary] reported *)
}.

Definition with_mapper (f : MediaMapper -> MediaMapper) (p : Proc) : Proc :=
  {| mapper := f (mapper p); stats := stats p; world := world p;
     calls := calls p; summaries := summaries p |}.

Definition with_stats (f : CleanupStats -> CleanupStats) (p : Proc) : Proc :=
  {| mapper := mapper p; stats := f (stats p); world := world p;
     calls := calls p; summaries := summaries p |}.

Definition M (A : Type) : Type := Proc -> outcome A * Proc.

Definition ret {A} (a : A) : M A := fun p => (Return a, p).
Definition raise {A} (e : exn) : M A := fun p => (Raise e, p).

(** The outcome of a step that does not touch the state. *)
Definition lift {A} (o : outcome A) : M A := fun p => (o, p).

Definition bind {A B} (m : M A) (k : A -> M B) : M B :=
  fun p =>
    match m p with
    | (Return a, p') => k a p'
    | (Raise e, p') => (Raise e, p')
    end.

(** [try: body finally: handler] *)
Definition try_finally {A} (body : M A) (handler : M unit) : M A :=
  fun p =>
    match body p with
    | (o, p') =>
        match handler p' with
        | (Return _, p'') => (o, p'')
        | (Raise e, p'') => (Raise e, p'')
        end
    end.

Notation "x <- m ;; k" := (bind m (fun x => k))
  (at level 61, m at next level, right associativity).
Notation "m ;; k" := (bind m (fun _ => k))
  (at level 61, right associativity).

Definition get_mapper : M MediaMapper := fun p => (Return (mapper p), p).
Definition modify_mapper (f : MediaMapper -> MediaMapper) : M unit :=
  fun p => (Return tt, with_mapper f p).
Definition modify_stats (f : CleanupStats -> CleanupStats) : M unit :=
  fun p => (Return tt, with_stats f p).
Definition get_stats : M CleanupStats := fun p => (Return (stats p), p).

(** One collaborator call. *)
Definition send (r : request) : M (reply r) :=
  fun p =>
    let (o, w) := http r (world p) in
    (o, {| mapper := mapper p; stats := stats p; world := w;
           calls := (calls p ++ [call_of r o])%list;
           summaries := summaries p |}).

(** [datetime.now(timezone.utc)] *)
Definition now : M Z :=
  fun p =>
    let (t, w) := utcnow (world p) in
    (Return t, {| mapper := mapper p; stats := stats p; world := w;
                  calls := calls p; summaries := summaries p |}).

(** [for x in l: body(x)] *)
Fixpoint for_each {A} (body : A -> M unit) (l : list A) : M unit :=
  match l with
  | [] => ret tt
  | x :: r => body x ;; for_each body r
  end.

(** *** Jellyfin methods *)

Definition get_jellyfin_users : M (list JellyfinUser) := send GET_jellyfin_Users.

Definition get_jellyfin_watched_movies (user_id : string) : M (list JellyfinItem) :=
  send (GET_jellyfin_Items_Movie user_id).

Definition get_jellyfin_watched_episodes (user_id : string) : M (list JellyfinItem) :=
  send (GET_jellyfin_Items_Episode user_id).

(** *** Radarr methods *)

Definition _get_all_radarr_movies : M (dict Z RadarrMovie) :=
  mp <- get_mapper ;;
  match _movies_cache mp with
  | None =>
      movies <- send GET_radarr_movie ;;
      let cache := dict_of Z.eqb id (fun m => m) (filter hasFile movies) in
      modify_mapper (set_movies_cache (Some cache)) ;;
      ret cache
  | Some cache => ret cache
  end.

Definition tag_dict (tags : list Tag) : dict Z string :=
  dict_of Z.eqb tag_id label tags.

Definition get_radarr_tags : M (dict Z string) :=
  mp <- get_mapper ;;
  match dict_get String.eqb "radarr" (_tags_cache mp) with
  | None =>
      tags <- send GET_radarr_tag ;;
      let d := tag_dict tags in
      modify_mapper (fun m => set_tags_cache (dict_set String.eqb "radarr" d (_tags_cache m)) m) ;;
      ret d
  | Some d => ret d
  end.

(** The scan of [find_radarr_movie_by_path] over [movies.items()]. *)
Fixpoint scan_movies_by_path (radarr_pre jellyfin_norm : string)
         (items : dict Z RadarrMovie) : outcome (option Z) :=
  match items with
  | [] => Return None
  | (movie_id, movie) :: rest =>
      if negb (hasFile movie) then scan_movies_by_path radarr_pre jellyfin_norm rest
      else
        match movieFile movie with
        | None => Raise KeyError
        | Some path =>
            if String.eqb jellyfin_norm (_normalize_path path radarr_pre)
            then Return (Some movie_id)
            else scan_movies_by_path radarr_pre jellyfin_norm rest
        end
  end.

Definition find_radarr_movie_by_path (jellyfin_path : string) : M (option Z) :=
  movies <- _get_all_radarr_movies ;;
  mp <- get_mapper ;;
  let jellyfin_norm := _normalize_path jellyfin_path (jellyfin_movie_prefix mp) in
  lift (scan_movies_by_path (radarr_prefix mp) jellyfin_norm movies).

(** The scan of [find_radarr_movie_by_tmdb]. *)
Fixpoint scan_movies_by_tmdb (tmdb_id : string) (items : dict Z RadarrMovie) : option Z :=
  match items with
  | [] => None
  | (movie_id, movie) :: rest =>
      if String.eqb (str_of_tmdbId (tmdbId movie)) tmdb_id
      then Some movie_id
      else scan_movies_by_tmdb tmdb_id rest
  end.

Definition find_radarr_movie_by_tmdb (tmdb_id : string) : M (option Z) :=
  movies <- _get_all_radarr_movies ;;
  ret (scan_movies_by_tmdb tmdb_id movies).

Definition delete_radarr_movie (movie_id : Z) (dry : bool) : M bool :=
  if dry then ret true
  else
    status_code <- send (DELETE_radarr_movie movie_id) ;;
    if Z.eqb status_code 200 then
      modify_mapper (fun m =>
        match _movies_cache m with
        | Some cache =>
            (* [if self._movies_cache and movie_id in self._movies_cache] *)
            if (negb (Nat.eqb (List.length cache) 0) && dict_mem Z.eqb movie_id cache)%bool
            then set_movies_cache (Some (dict_del Z.eqb movie_id cache)) m
            else m
        | None => m
        end) ;;
      ret true
    else ret false.

(** *** Sonarr methods *)

Definition _get_all_sonarr_series : M (dict Z SonarrSeries) :=
  mp <- get_mapper ;;
  match _series_cache mp with
  | None =>
      series <- send GET_sonarr_series ;;
      let cache := dict_of Z.eqb series_id (fun s => s) series in
      modify_mapper (set_series_cache (Some cache)) ;;
      ret cache
  | Some cache => ret cache
  end.

Definition _get_sonarr_episodes (sid : Z) : M (list SonarrEpisode) :=
  mp <- get_mapper ;;
  match dict_get Z.eqb sid (_episodes_cache mp) with
  | None =>
      episodes <- send (GET_sonarr_episode sid) ;;
      let l := filter ep_hasFile episodes in
      modify_mapper (fun m => set_episodes_cache (dict_set Z.eqb sid l (_episodes_cache m)) m) ;;
      ret l
  | Some l => ret l
  end.

Definition get_sonarr_tags : M (dict Z string) :=
  mp <- get_mapper ;;
  match dict_get String.eqb "sonarr" (_tags_cache mp) with
  | None =>
      tags <- send GET_sonarr_tag ;;
      let d := tag_dict tags in
      modify_mapper (fun m => set_tags_cache (dict_set String.eqb "sonarr" d (_tags_cache m)) m) ;;
      ret d
  | Some d => ret d
  end.

(** The inner scan of [find_sonarr_episode_by_path], one series. *)
Fixpoint scan_episodes_by_path (sonarr_pre jellyfin_norm : string)
         (episodes : list SonarrEpisode) : outcome (option Z) :=
  match episodes with
  | [] => Return None
  | episode :: rest =>
      if negb (ep_hasFile episode) then scan_episodes_by_path sonarr_pre jellyfin_norm rest
      else
        match episodeFile episode with
        | None => Raise KeyError
        | Some path =>
            if String.eqb jellyfin_norm (_normalize_path path sonarr_pre)
            then Return (Some (episodeFileId episode))
            else scan_episodes_by_path sonarr_pre jellyfin_norm rest
        end
  end.

(** The outer loop over [series_to_search]. *)
Fixpoint scan_series (sonarr_pre jellyfin_norm : string) (sids : list Z) : M (option Z) :=
  match sids with
  | [] => ret None
  | sid :: rest =>
      episodes <- _get_sonarr_episodes sid ;;
      found <- lift (scan_episodes_by_path sonarr_pre jellyfin_norm episodes) ;;
      match found with
      | Some episode_file_id => ret (Some episode_file_id)
      | None => scan_series sonarr_pre jellyfin_norm rest
      end
  end.

Definition find_sonarr_episode_by_path (jellyfin_path : string)
           (series : option Z) : M (option Z) :=
  mp <- get_mapper ;;
  let jellyfin_norm := _normalize_path jellyfin_path (jellyfin_tv_prefix mp) in
  series_to_search <-
    (if truthy_id series
     then ret (match series with Some sid => [sid] | None => [] end)
     else (all <- _get_all_sonarr_series ;; ret (dict_keys all))) ;;
  scan_series (sonarr_prefix mp) jellyfin_norm series_to_search.

Definition delete_sonarr_episode_file (episode_file_id : Z) (dry : bool) : M bool :=
  if dry then ret true
  else
    status_code <- send (DELETE_sonarr_episodefile episode_file_id) ;;
    if Z.eqb status_code 200 then
      modify_mapper (set_episodes_cache []) ;;
      ret true
    else ret false.

Definition bulk_delete_sonarr_episode_files (episode_file_ids : list Z) (dry : bool) : M bool :=
  if dry then ret true
  else
    status_code <- send (DELETE_sonarr_episodefile_bulk episode_file_ids) ;;
    if Z.eqb status_code 200 then
      modify_mapper (set_episodes_cache []) ;;
      ret true
    else ret false.

(** *** The orchestrator, [MediaCleanup] *)

Record MediaCleanup := {
  config : CleanupConfig;
  primary_user_id : string;
  radarr_keep_tag_id : option Z;
  sonarr_keep_tag_id : option Z
}.

(** [next((u for u in users if ...), None)] *)
Fixpoint first_user (name : string) (users : list JellyfinUser) : option JellyfinUser :=
  match users with
  | [] => None
  | u :: rest =>
      if String.eqb (lower (user_Name u)) (lower name) then Some u
      else first_user name rest
  end.

Definition _get_primary_user_id (cfg : CleanupConfig) : M string :=
  users <- get_jellyfin_users ;;
  match first_user (primary_user_name cfg) users with
  | None => raise ValueError
  | Some primary_user => ret (user_Id primary_user)
  end.

(** [next((tag_id for tag_id, label in tags.items() if ...), None)] *)
Fixpoint first_tag (keep : string) (items : dict Z string) : option Z :=
  match items with
  | [] => None
  | (tid, lbl) :: rest =>
      if String.eqb (lower lbl) (lower keep) then Some tid
      else first_tag keep rest
  end.

Definition _get_keep_tag_id (cfg : CleanupConfig) (service : string) : M (option Z) :=
  tags <- (if String.eqb service "radarr" then get_radarr_tags else get_sonarr_tags) ;;
  ret (first_tag (keep_tag_label cfg) tags).

(** [MediaCleanup.__init__]: fresh statistics, a fresh mapper, then the
    user and the two keep-tag ids. *)
Definition MediaCleanup_init (cfg : CleanupConfig) (jm jt rp sp : string) : M MediaCleanup :=
  modify_stats (fun _ => CleanupStats_new) ;;
  modify_mapper (fun _ => MediaMapper_new jm jt rp sp) ;;
  uid <- _get_primary_user_id cfg ;;
  rk <- _get_keep_tag_id cfg "radarr" ;;
  sk <- _get_keep_tag_id cfg "sonarr" ;;
  ret {| config := cfg; primary_user_id := uid;
         radarr_keep_tag_id := rk; sonarr_keep_tag_id := sk |}.

Definition microseconds_per_day : Z := 86400 * 1000000.

(** The length of [n] days. *)
Definition timedelta_days (n : Z) : Z := n * microseconds_per_day.

(** A [datetime]: its instant (for one without offset, its wall-clock
    reading) and whether it carries an offset. *)
Record datetime := { instant_of : Z; aware : bool }.

(** [datetime.fromisoformat(text.replace('Z', '+00:00'))] *)
Definition fromisoformat (text : isotext) : outcome datetime :=
  match text with
  | Aware t => Return {| instant_of := t; aware := true |}
  | Naive t => Return {| instant_of := t; aware := false |}
  | Malformed => Raise ValueError
  end.

(** [timedelta(days=n)]: at most 999999999 days either way. *)
Definition timedelta (n : Z) : outcome Z :=
  if Z.abs n >? 999999999 then Raise OverflowError else Return (timedelta_days n).

(** [datetime.min] and [datetime.max]: 0001-01-01T00:00:00 and
    9999-12-31T23:59:59.999999, 3652059 days in all. *)
Definition datetime_min : Z := 0.
Definition datetime_max : Z := 3652059 * microseconds_per_day - 1.

(** [t - delta] for a [datetime] and a [timedelta]: the result has to be a
    [datetime]. *)
Definition datetime_sub (t delta : Z) : outcome Z :=
  let r := t - delta in
  if ((r <? datetime_min) || (datetime_max <? r))%bool
  then Raise OverflowError
  else Return r.

(** [a < b] where [b] carries an offset: a [datetime] without offset does
    not compare with it. *)
Definition datetime_lt (a : datetime) (b : Z) : outcome bool :=
  if aware a then Return (instant_of a <? b) else Raise TypeError.

Definition _is_past_grace_period (self : MediaCleanup) (last_played_date : isotext) : M bool :=
  last_played <- lift (fromisoformat last_played_date) ;;
  t <- now ;;
  delta <- lift (timedelta (grace_period_days (config self))) ;;
  cutoff_date <- lift (datetime_sub t delta) ;;
  lift (datetime_lt last_played cutoff_date).

Fixpoint mem_Z (x : Z) (l : list Z) : bool :=
  match l with
  | [] => false
  | y :: r => Z.eqb x y || mem_Z x r
  end.

Definition _has_keep_tag (item_tags : list Z) (keep_tag_id : option Z) : bool :=
  match keep_tag_id with
  | None => false
  | Some k => mem_Z k item_tags
  end.

Definition incr (c : counter) : M unit :=
  modify_stats (update_counter c (fun n => n + 1)).

Definition or_default (x : option string) (d : string) : string :=
  match x with Some s => s | None => d end.

(** The two matchers of [cleanup_movies] ("Find Radarr movie", then "Try
    fallback: TMDb ID"), in the order the loop body applies them. *)
Definition resolve_radarr_movie (movie_path : string) (tmdb_id : option string) : M (option Z) :=
  radarr_movie_id <- find_radarr_movie_by_path movie_path ;;
  if negb (truthy_id radarr_movie_id) then
    if truthy_str tmdb_id
    then find_radarr_movie_by_tmdb (or_default tmdb_id "")
    else ret radarr_movie_id
  else ret radarr_movie_id.

(** The body of the loop of [cleanup_movies], for one watched movie. *)
Definition cleanup_movie (self : MediaCleanup) (movie : JellyfinItem) : M unit :=
  let movie_path := or_default (Path movie) "unknown" in
  match LastPlayedDate movie with
  | None => ret tt
  | Some last_played =>
      past <- _is_past_grace_period self last_played ;;
      if negb past then
        _ <- now ;;                       (* days_ago, for the log line *)
        ret tt
      else
        incr c_movies_eligible ;;
        _ <- now ;;                       (* days_since_watched *)
        radarr_movie_id <- resolve_radarr_movie movie_path (Tmdb movie) ;;
        match radarr_movie_id with          (* [if not radarr_movie_id] *)
        | Some movie_id =>
            if Z.eqb movie_id 0 then incr c_movies_skipped_not_found
            else
              radarr_movies <- _get_all_radarr_movies ;;
              match dict_get Z.eqb movie_id radarr_movies with
              | None => raise KeyError
              | Some radarr_movie =>
                  if _has_keep_tag (tags radarr_movie) (radarr_keep_tag_id self)
                  then incr c_movies_skipped_tag
                  else
                    success <- delete_radarr_movie movie_id (dry_run (config self)) ;;
                    if success then incr c_movies_deleted
                    else incr c_movies_failed
              end
        | None => incr c_movies_skipped_not_found
        end
  end.

Definition cleanup_movies (self : MediaCleanup) : M unit :=
  watched_movies <- get_jellyfin_watched_movies (primary_user_id self) ;;
  modify_stats (update_counter c_movies_watched
                  (fun _ => Z.of_nat (List.length watched_movies))) ;;
  for_each (cleanup_movie self) watched_movies.

(** The body of the inner loop of [cleanup_episodes], for one episode. *)
Definition cleanup_episode (self : MediaCleanup) (episode : JellyfinItem) : M unit :=
  let episode_path := or_default (Path episode) "unknown" in
  match LastPlayedDate episode with
  | None => ret tt
  | Some last_played =>
      past <- _is_past_grace_period self last_played ;;
      if negb past then
        _ <- now ;;
        ret tt
      else
        incr c_episodes_eligible ;;
        _ <- now ;;
        episode_file_id <- find_sonarr_episode_by_path episode_path None ;;
        match episode_file_id with          (* [if not episode_file_id] *)
        | Some file_id =>
            if Z.eqb file_id 0 then incr c_episodes_skipped_not_found
            else
              success <- delete_sonarr_episode_file file_id (dry_run (config self)) ;;
              if success then incr c_episodes_deleted
              else incr c_episodes_failed
        | None => incr c_episodes_skipped_not_found
        end
  end.

(** [episodes_by_series]: grouped by series name, in order of first
    appearance. *)
Definition group_by_series (watched : list JellyfinItem) : dict string (list JellyfinItem) :=
  fold_left
    (fun by_series episode =>
       let series_name := or_default (SeriesName episode) "Unknown" in
       let sofar := match dict_get String.eqb series_name by_series with
                    | Some l => l
                    | None => []
                    end in
       dict_set String.eqb series_name (sofar ++ [episode])%list by_series)
    watched [].

Definition cleanup_episodes (self : MediaCleanup) : M unit :=
  watched_episodes <- get_jellyfin_watched_episodes (primary_user_id self) ;;
  modify_stats (update_counter c_episodes_watched
                  (fun _ => Z.of_nat (List.length watched_episodes))) ;;
  let episodes_by_series := group_by_series watched_episodes in
  for_each (fun entry => for_each (cleanup_episode self) (snd entry)) episodes_by_series.

(** [CleanupStats.print_summary] reports the statistics as they stand. *)
Definition print_summary : M unit :=
  fun p => (Return tt,
            {| mapper := mapper p; stats := stats p; world := world p;
               calls := calls p; summaries := (summaries p ++ [stats p])%list |}).

Definition run (self : MediaCleanup) : M CleanupStats :=
  try_finally (cleanup_movies self ;; cleanup_episodes self) print_summary ;;
  get_stats.

End Engine.

Arguments mapper {World} p.
Arguments stats {World} p.
Arguments world {World} p.
Arguments calls {World} p.
Arguments summaries {World} p.
Arguments Build_Proc {World}.
Arguments with_mapper {World} f p.
Arguments with_stats {World} f p.
Arguments ret {World A} a.
Arguments raise {World A} e.
Arguments lift {World A} o.
Arguments bind {World A B} m k.
Arguments try_finally {World A} body handler.
Arguments get_mapper {World}.
Arguments modify_mapper {World} f.
Arguments modify_stats {World} f.
Arguments get_stats {World}.
Arguments send {World} http r.
Arguments now {World} utcnow.
Arguments for_each {World A} body l.
Arguments incr {World} c.
Arguments print_summary {World}.

Arguments get_jellyfin_users {World}.
Arguments get_jellyfin_watched_movies {World}.
Arguments get_jellyfin_watched_episodes {World}.
Arguments _get_all_radarr_movies {World}.
Arguments get_radarr_tags {World}.
Arguments find_radarr_movie_by_path {World}.
Arguments find_radarr_movie_by_tmdb {World}.
Arguments delete_radarr_movie {World}.
Arguments _get_all_sonarr_series {World}.
Arguments _get_sonarr_episodes {World}.
Arguments get_sonarr_tags {World}.
Arguments scan_series {World}.
Arguments find_sonarr_episode_by_path {World}.
Arguments delete_sonarr_episode_file {World}.
Arguments bulk_delete_sonarr_episode_files {World}.
Arguments _get_primary_user_id {World}.
Arguments _get_keep_tag_id {World}.
Arguments MediaCleanup_init {World}.
Arguments _is_past_grace_period {World}.
Arguments resolve_radarr_movie {World}.
Arguments cleanup_movie {World}.
Arguments cleanup_movies {World}.
Arguments cleanup_episode {World}.
Arguments cleanup_episodes {World}.
Arguments run {World}.

Declare Scope proc_scope.
Notation "x <- m ;; k" := (bind m (fun x => k))
  (at level 61, m at next level, right associativity) : proc_scope.
Notation "m ;; k" := (bind m (fun _ => k))
  (at level 61, right associativity) : proc_scope.

(** ** The entry point *)

(** [CleanupConfig] as [from_env] fills it: the four settings of the
    pipeline, the three services' addresses and keys, the four prefixes. *)
Record Settings := {
  settings : CleanupConfig;
  jellyfin_url : string;
  jellyfin_api_key : string;
  radarr_url : string;
  radarr_api_key : string;
  sonarr_url : string;
  sonarr_api_key : string;
  config_jellyfin_movie_prefix : string;
  config_jellyfin_tv_prefix : string;
  config_radarr_prefix : string;
  config_sonarr_prefix : string
}.

(** [os.getenv(name, default)] *)
Definition os_getenv (environ : dict string string) (name default : string) : string :=
  or_default (dict_get String.eqb name environ) default.

Section EntryPoint.

Variable World : Type.
Variable http : forall r : request, World -> outcome (reply r) * World.
Variable utcnow : World -> Z * World.
Variable lower : string -> string.

(** [int] on a string: the number it denotes, or [ValueError]. *)
Variable int : string -> outcome Z.

Definition from_env (environ : dict string string) : outcome Settings :=
  match int (os_getenv environ "GRACE_PERIOD_DAYS" "5") with
  | Raise e => Raise e
  | Return days =>
      Return
        {| settings :=
             {| grace_period_days := days;
                dry_run := String.eqb (lower (os_getenv environ "DRY_RUN" "true")) "true";
                keep_tag_label := os_getenv environ "KEEP_TAG_LABEL" "keep";
                primary_user_name := os_getenv environ "PRIMARY_USER_NAME" "admin" |};
           jellyfin_url :=
             os_getenv environ "JELLYFIN_URL" "http://jellyfin.media.svc.cluster.local:8096";
           jellyfin_api_key := os_getenv environ "JELLYFIN_API_KEY" "";
           radarr_url :=
             os_getenv environ "RADARR_URL" "http://radarr.media.svc.cluster.local:7878";
           radarr_api_key := os_getenv environ "RADARR_API_KEY" "";
           sonarr_url :=
             os_getenv environ "SONARR_URL" "http://sonarr.media.svc.cluster.local:8989";
           sonarr_api_key := os_getenv environ "SONARR_API_KEY" "";
           config_jellyfin_movie_prefix :=
             os_getenv environ "JELLYFIN_MOVIE_PREFIX" "/media/movies/";
           config_jellyfin_tv_prefix := os_getenv environ "JELLYFIN_TV_PREFIX" "/media/tv/";
           config_radarr_prefix := os_getenv environ "RADARR_PREFIX" "/movies/";
           config_sonarr_prefix := os_getenv environ "SONARR_PREFIX" "/tv/" |}
  end.

(** [main]: what it hands back is the status it passes to [sys.exit]; an
    exception leaves it as it was raised. *)
Definition main (environ : dict string string) : M World Z :=
  match from_env environ with
  | Raise e => raise e
  | Return cfg =>
      if negb (PyStr.truthy (jellyfin_api_key cfg)) then ret 1
      else if negb (PyStr.truthy (radarr_api_key cfg)) then ret 1
      else if negb (PyStr.truthy (sonarr_api_key cfg)) then ret 1
      else
        bind
          (MediaCleanup_init http lower (settings cfg)
             (config_jellyfin_movie_prefix cfg) (config_jellyfin_tv_prefix cfg)
             (config_radarr_prefix cfg) (config_sonarr_prefix cfg))
          (fun cleanup =>
             bind (run http utcnow cleanup)
               (fun stats =>
                  if (negb (dry_run (settings cfg))
                      && ((movies_failed stats >? 0) || (episodes_failed stats >? 0)))%bool
                  then ret 1
                  else ret 0))
  end.

End EntryPoint.

Arguments main {World}.

(** ** The design document's reading of the normalizer

    The second definition follows the words of the document: strip the
    configured mount prefix (nothing to do when the path does not start
    with it), percent-decode the remainder, strip the separators at both
    ends. *)

Definition strip_mount_prefix (path mount_prefix : string) : string :=
  if String.prefix mount_prefix path
  then String.substring (String.length mount_prefix)
         (String.length path - String.length mount_prefix) path
  else path.

Definition normalize_spec (path mount_prefix : string) : string :=
  PyStr.strip_slash (Urllib.unquote (strip_mount_prefix path mount_prefix)).

(** ** A fixed set-up of the collaborators, for worked examples

    Every endpoint answers the same way each time and the clock stands
    still. *)

Module Scenario.

Record t := {
  clock : Z;
  users : outcome (list JellyfinUser);
  watched_movies : outcome (list JellyfinItem);
  watched_episodes : outcome (list JellyfinItem);
  radarr_movies : outcome (list RadarrMovie);
  radarr_tags : outcome (list Tag);
  radarr_delete : outcome Z;
  sonarr_series : outcome (list SonarrSeries);
  sonarr_episodes : outcome (list SonarrEpisode);
  sonarr_tags : outcome (list Tag);
  sonarr_delete : outcome Z
}.

Definition http (r : request) (w : t) : outcome (reply r) * t :=
  match r return outcome (reply r) * t with
  | GET_jellyfin_Users => (users w, w)
  | GET_jellyfin_Items_Movie _ => (watched_movies w, w)
  | GET_jellyfin_Items_Episode _ => (watched_episodes w, w)
  | GET_radarr_movie => (radarr_movies w, w)
  | GET_radarr_tag => (radarr_tags w, w)
  | DELETE_radarr_movie _ => (radarr_delete w, w)
  | GET_sonarr_series => (sonarr_series w, w)
  | GET_sonarr_episode _ => (sonarr_episodes w, w)
  | GET_sonarr_tag => (sonarr_tags w, w)
  | DELETE_sonarr_episodefile _ => (sonarr_delete w, w)
  | DELETE_sonarr_episodefile_bulk _ => (sonarr_delete w, w)
  end.

Definition utcnow (w : t) : Z * t := (clock w, w).

(** ASCII lower-casing, standing in for [str.lower] on ASCII labels. *)
Definition lower_ascii (c : ascii) : ascii :=
  if Urllib.between 65 90 c then ascii_of_N (N_of_ascii c + 32) else c.

Fixpoint lower (s : string) : string :=
  match s with
  | EmptyString => EmptyString
  | String c r => String (lower_ascii c) (lower r)
  end.

(** Nothing to fetch, every deletion answers 200, the clock reads day 100. *)
Definition quiet : t :=
  {| clock := 100 * microseconds_per_day;
     users := Return []; watched_movies := Return []; watched_episodes := Return [];
     radarr_movies := Return []; radarr_tags := Return []; radarr_delete := Return 200;
     sonarr_series := Return []; sonarr_episodes := Return []; sonarr_tags := Return [];
     sonarr_delete := Return 200 |}.

Definition start (w : t) : Proc t :=
  {| mapper := MediaMapper_new "/media/movies/" "/media/tv/" "/movies/" "/tv/";
     stats := CleanupStats_new; world := w; calls := []; summaries := [] |}.

Definition cleanup (dry : bool) (keep : option Z) : MediaCleanup :=
  {| config := {| grace_period_days := 5; dry_run := dry;
                  keep_tag_label := "keep"; primary_user_name := "admin" |};
     primary_user_id := "u1";
     radarr_keep_tag_id := keep; sonarr_keep_tag_id := None |}.

Definition the_matrix : string := "The Matrix (1999)/The Matrix (1999) REMUX-2160p.mkv".

(** A movie watched on day [d]. *)
Definition watched (path : string) (d : Z) (tmdb : option string) : JellyfinItem :=
  {| Name := path; Path := Some path;
     LastPlayedDate := Some (Aware (d * microseconds_per_day));
     Tmdb := tmdb; SeriesName := None |}.

Definition in_catalog (i : Z) (path : string) (tmdb : option Z) (tg : list Z) : RadarrMovie :=
  {| id := i; hasFile := true; movieFile := Some path; tmdbId := tmdb; tags := tg |}.

(** One movie watched on day 1 and long past its grace period; the movie
    catalog cannot be reached. *)
Definition catalog_down : t :=
  {| clock := clock quiet; users := users quiet;
     watched_movies := Return [watched ("/media/movies/" ++ the_matrix) 1 None];
     watched_episodes := Return [];
     radarr_movies := Raise (RequestException "503 Service Unavailable");
     radarr_tags := Return []; radarr_delete := Return 200;
     sonarr_series := Return []; sonarr_episodes := Return []; sonarr_tags := Return [];
     sonarr_delete := Return 200 |}.

(** The same movie; the catalog holds it under identifier 0, next to
    another film with identifier 7 and TMDb id 11. *)
Definition identifier_zero (tmdb : option string) : t :=
  {| clock := clock quiet; users := users quiet;
     watched_movies := Return [watched ("/media/movies/" ++ the_matrix) 1 tmdb];
     watched_episodes := Return [];
     radarr_movies :=
       Return [in_catalog 0 ("/movies/" ++ the_matrix) (Some 603) [];
               in_catalog 7 "/movies/Star Wars (1977)/Star Wars (1977).mkv" (Some 11) []];
     radarr_tags := Return []; radarr_delete := Return 200;
     sonarr_series := Return []; sonarr_episodes := Return []; sonarr_tags := Return [];
     sonarr_delete := Return 200 |}.

(** The same movie under identifier 3, and nothing else. *)
Definition one_movie (tg : list Z) : t :=
  {| clock := clock quiet; users := users quiet;
     watched_movies := Return [watched ("/media/movies/" ++ the_matrix) 1 None];
     watched_episodes := Return [];
     radarr_movies := Return [in_catalog 3 ("/movies/" ++ the_matrix) (Some 603) tg];
     radarr_tags := Return [{| tag_id := 5; label := "Keep" |}];
     radarr_delete := Return 200;
     sonarr_series := Return []; sonarr_episodes := Return []; sonarr_tags := Return [];
     sonarr_delete := Return 200 |}.

(** The quiet world on 1 January 2026, day 739616 after 1 January of
    year 1. *)
Definition new_year_2026 : t :=
  {| clock := 739616 * microseconds_per_day;
     users := Return []; watched_movies := Return []; watched_episodes := Return [];
     radarr_movies := Return []; radarr_tags := Return []; radarr_delete := Return 200;
     sonarr_series := Return []; sonarr_episodes := Return []; sonarr_tags := Return [];
     sonarr_delete := Return 200 |}.

(** One series with one episode on file; the episode watched on day 1 is
    another one, which the catalog does not hold. *)
Definition one_series : t :=
  {| clock := clock quiet; users := users quiet;
     watched_movies := Return [];
     watched_episodes := Return [watched "/media/tv/Dark/Season 1/Dark S01E02.mkv" 1 None];
     radarr_movies := Return []; radarr_tags := Return []; radarr_delete := Return 200;
     sonarr_series := Return [{| series_id := 4 |}];
     sonarr_episodes :=
       Return [{| ep_hasFile := true;
                  episodeFile := Some "/tv/Dark/Season 1/Dark S01E01.mkv";
                  episodeFileId := 9 |}];
     sonarr_tags := Return []; sonarr_delete := Return 200 |}.

End Scenario.

(** ** Predicates used in the statements *)

(** The text does not start with a separator. *)
Definition no_leading_slash (s : string) : Prop :=
  match s with
  | String c _ => Ascii.eqb c PyStr.slash = false
  | EmptyString => True
  end.

(** The text starts with a percent escape: a percent sign and two
    hexadecimal digits. *)
Definition escape_at_head (s : string) : bool :=
  match s with
  | String c (String h (String l _)) =>
      Ascii.eqb c PyStr.percent
      && match Urllib.hextobyte h l with Some _ => true | None => false end
  | _ => false
  end.

(** The text holds a percent escape somewhere. *)
Fixpoint has_escape (s : string) : bool :=
  escape_at_head s ||
  match s with
  | EmptyString => false
  | String _ r => has_escape r
  end.

(** Every character of the text is ASCII. *)
Fixpoint all_ascii (s : string) : bool :=
  match s with
  | EmptyString => true
  | String c r => Urllib.is_ascii c && all_ascii r
  end.

(** The number of ASCII characters of the text. *)
Fixpoint ascii_count (s : string) : nat :=
  match s with
  | EmptyString => 0%nat
  | String c r => ((if Urllib.is_ascii c then 1 else 0) + ascii_count r)%nat
  end.

(** [old in s] *)
Fixpoint occurs (old s : string) : bool :=
  String.prefix old s ||
  match s with
  | EmptyString => false
  | String _ r => occurs old r
  end.

(** The outcome and the final state of a computation satisfy [Q]. *)
Definition wp {World A} (m : M World A) (Q : outcome A -> Proc World -> Prop)
           (p : Proc World) : Prop :=
  Q (fst (m p)) (snd (m p)).

(** The instant before which a last playback makes an item eligible, as
    [_is_past_grace_period] computes it when the clock is read in [p]. *)
Definition cutoff_date {World} (utcnow : World -> Z * World) (self : MediaCleanup)
           (p : Proc World) : Z :=
  fst (utcnow (world p)) - timedelta_days (grace_period_days (config self)).

(** A computation obeys a relation [T] between the state before, the
    exception raised if any, and the state after. *)
Definition obeys {World A} (T : Proc World -> option exn -> Proc World -> Prop)
           (m : M World A) : Prop :=
  forall p, T p (error_of (fst (m p))) (snd (m p)).

(** Exceptions the process raises by itself, as opposed to those a
    collaborator call raises. *)
Definition internal (e : exn) : Prop :=
  e = KeyError \/ e = ValueError \/ e = TypeError \/ e = OverflowError.

(** Relations that compose along the monad: nothing happened; a step that
    returned followed by any step; an internal exception on the spot. *)
Record composes {World} (T : Proc World -> option exn -> Proc World -> Prop) : Prop := {
  composes_refl : forall p, T p None p;
  composes_trans : forall p p1 o p2, T p None p1 -> T p1 o p2 -> T p o p2;
  composes_internal : forall p e, internal e -> T p (Some e) p
}.

(** Mapper methods leave the statistics and the reported summaries alone. *)
Definition T_frame {World} (p : Proc World) (_ : option exn) (p' : Proc World) : Prop :=
  stats p' = stats p /\ summaries p' = summaries p.

(** The per-item outcomes of the decision pipeline. [Unchecked] is an item
    whose grace-period check raised; [Aborted] is an item that became
    eligible and whose processing then raised. *)
Inductive verdict :=
| UnknownSkip | Unchecked | GraceSkip | NotFoundSkip | TagSkip | Deleted | Failed | Aborted.

Definition plus_one (c : counter) : CleanupStats -> CleanupStats :=
  update_counter c (fun n => n + 1).

(** What each outcome does to the statistics, for a movie and for an
    episode. *)
Definition movie_verdict_stats (v : verdict) (st : CleanupStats) : CleanupStats :=
  match v with
  | UnknownSkip | Unchecked | GraceSkip => st
  | NotFoundSkip => plus_one c_movies_skipped_not_found (plus_one c_movies_eligible st)
  | TagSkip => plus_one c_movies_skipped_tag (plus_one c_movies_eligible st)
  | Deleted => plus_one c_movies_deleted (plus_one c_movies_eligible st)
  | Failed => plus_one c_movies_failed (plus_one c_movies_eligible st)
  | Aborted => plus_one c_movies_eligible st
  end.

Definition episode_verdict_stats (v : verdict) (st : CleanupStats) : CleanupStats :=
  match v with
  | UnknownSkip | Unchecked | GraceSkip => st
  | NotFoundSkip => plus_one c_episodes_skipped_not_found (plus_one c_episodes_eligible st)
  | TagSkip => plus_one c_episodes_skipped_tag (plus_one c_episodes_eligible st)
  | Deleted => plus_one c_episodes_deleted (plus_one c_episodes_eligible st)
  | Failed => plus_one c_episodes_failed (plus_one c_episodes_eligible st)
  | Aborted => plus_one c_episodes_eligible st
  end.

(** How an outcome relates to what the grace-period check answered for the
    item ([None]: no date, no check) and to what the loop body returned. *)
Definition verdict_fits (v : verdict) (check : option (outcome bool))
           (o : outcome unit) : Prop :=
  match v with
  | UnknownSkip => check = None /\ o = Return tt
  | Unchecked => exists e, check = Some (Raise e) /\ o = Raise e
  | GraceSkip => check = Some (Return false) /\ o = Return tt
  | Aborted => check = Some (Return true) /\ exists e, o = Raise e
  | _ => check = Some (Return true) /\ o = Return tt
  end.

(** What the grace-period check answers for the item when it is made in
    [p]. *)
Definition grace_check {World} (utcnow : World -> Z * World) (self : MediaCleanup)
           (item : JellyfinItem) (p : Proc World) : option (outcome bool) :=
  match LastPlayedDate item with
  | None => None
  | Some text => Some (fst (_is_past_grace_period utcnow self text p))
  end.

(** The process when the resolution of an eligible item starts: the check
    has read the clock, the eligible counter [c] has moved, the clock has
    been read again (for the log line). *)
Definition counted_eligible {World} (utcnow : World -> Z * World) (c : counter)
           (p : Proc World) : Proc World :=
  snd (now utcnow (with_stats (update_counter c (fun n => n + 1)) (snd (now utcnow p)))).

(** The outcome counters of each phase. *)
Definition movies_outcomes (st : CleanupStats) : Z :=
  movies_skipped_not_found st + movies_skipped_tag st + movies_deleted st + movies_failed st.

Definition episodes_outcomes (st : CleanupStats) : Z :=
  episodes_skipped_not_found st + episodes_deleted st + episodes_failed st.

(** What a computation added to the record of calls, and the exception
    it ended with if any, satisfy [P]. *)
Definition T_sent {World} (P : list call -> option exn -> Prop)
           (p : Proc World) (o : option exn) (p' : Proc World) : Prop :=
  exists new, calls p' = (calls p ++ new)%list /\ P new o.

(** A computation that sends nothing and raises internal exceptions only. *)
Definition silent {World A} (m : M World A) : Prop :=
  forall p, calls (snd (m p)) = calls p /\ forall e, fst (m p) = Raise e -> internal e.

Definition succeeded (c : call) : Prop := call_error c = None.

(** Only reads were sent. *)
Definition only_reads (new : list call) (_ : option exn) : Prop :=
  Forall (fun c => mutating (call_request c) = false) new.

(** Every call succeeded, unless the computation ended with the exception
    of its last call; an internal exception comes after successful calls. *)
Definition failure_is_last (new : list call) (o : option exn) : Prop :=
  match o with
  | None => Forall succeeded new
  | Some e =>
      (internal e /\ Forall succeeded new)
      \/ exists pre c, new = (pre ++ [c])%list /\ Forall succeeded pre /\ call_error c = Some e
  end.

(** The reported summaries are left alone. *)
Definition T_summaries {World} (p : Proc World) (_ : option exn) (p' : Proc World) : Prop :=
  summaries p' = summaries p.

(** No entry of the movie catalog has the normalized path [jellyfin_norm]. *)
Definition no_path_match (radarr_pre jellyfin_norm : string) (cache : dict Z RadarrMovie) : Prop :=
  forall k m, In (k, m) cache -> hasFile m = true ->
    exists f, movieFile m = Some f /\ _normalize_path f radarr_pre <> jellyfin_norm.

(** No cached episode has the normalized path [jellyfin_norm]. *)
Definition no_episode_match (sonarr_pre jellyfin_norm : string)
           (episodes : list SonarrEpisode) : Prop :=
  forall e, In e episodes -> ep_hasFile e = true ->
    exists f, episodeFile e = Some f /\ _normalize_path f sonarr_pre <> jellyfin_norm.

(** The episodes of every series of [sids] are cached and none of them has
    the normalized path [jellyfin_norm]. *)
Definition no_series_match (sonarr_pre jellyfin_norm : string)
           (cache : dict Z (list SonarrEpisode)) (sids : list Z) : Prop :=
  forall sid, In sid sids ->
    exists episodes, dict_get Z.eqb sid cache = Some episodes
                     /\ no_episode_match sonarr_pre jellyfin_norm episodes.

(** No entry of the movie catalog carries the provider id [tmdb_id]. *)
Definition no_tmdb_match (tmdb_id : string) (cache : dict Z RadarrMovie) : Prop :=
  forall k m, In (k, m) cache -> str_of_tmdbId (tmdbId m) <> tmdb_id.

(** Items that became eligible and have no outcome yet, between two states
    of the statistics. *)
Definition movies_gap (st st' : CleanupStats) : Z :=
  (movies_eligible st' - movies_eligible st) - (movies_outcomes st' - movies_outcomes st).

Definition episodes_gap (st st' : CleanupStats) : Z :=
  (episodes_eligible st' - episodes_eligible st)
  - (episodes_outcomes st' - episodes_outcomes st).

(** Every item that became eligible got exactly one outcome, except the one
    item, if any, whose processing raised. *)
Definition T_counts {World} (p : Proc World) (o : option exn) (p' : Proc World) : Prop :=
  episodes_skipped_tag (stats p') = episodes_skipped_tag (stats p)
  /\ 0 <= movies_gap (stats p) (stats p')
  /\ 0 <= episodes_gap (stats p) (stats p')
  /\ movies_gap (stats p) (stats p') + episodes_gap (stats p) (stats p') <= 1
  /\ (o = None -> movies_gap (stats p) (stats p') = 0
                  /\ episodes_gap (stats p) (stats p') = 0).

(** Over [n] movies, at most [n] become eligible; the watched counters and
    the episode side are left alone. Likewise over [n] episodes. *)
Definition movies_step {World} (n : nat) (p p' : Proc World) : Prop :=
  movies_watched (stats p') = movies_watched (stats p)
  /\ episodes_watched (stats p') = episodes_watched (stats p)
  /\ episodes_eligible (stats p') = episodes_eligible (stats p)
  /\ movies_eligible (stats p) <= movies_eligible (stats p')
     <= movies_eligible (stats p) + Z.of_nat n.

Definition episodes_step {World} (n : nat) (p p' : Proc World) : Prop :=
  movies_watched (stats p') = movies_watched (stats p)
  /\ episodes_watched (stats p') = episodes_watched (stats p)
  /\ movies_eligible (stats p') = movies_eligible (stats p)
  /\ episodes_eligible (stats p) <= episodes_eligible (stats p')
     <= episodes_eligible (stats p) + Z.of_nat n.

(** The number of episodes in a grouping. *)
Definition grouped_total (d : dict string (list JellyfinItem)) : nat :=
  list_sum (map (fun entry => List.length (snd entry)) d).

(** The accounting identities of a finished run. *)
Definition accounts_balance (st : CleanupStats) : Prop :=
  movies_skipped_not_found st + movies_skipped_tag st + movies_deleted st + movies_failed st
  = movies_eligible st
  /\ episodes_skipped_not_found st + episodes_deleted st + episodes_failed st
     = episodes_eligible st.

Definition eligible_within_watched (st : CleanupStats) : Prop :=
  movies_eligible st <= movies_watched st
  /\ episodes_eligible st <= episodes_watched st.

(** The tag dictionary [_get_keep_tag_id] reads for a service: anything but
    'radarr' goes to Sonarr. *)
Definition service_key (service : string) : string :=
  if String.eqb service "radarr" then "radarr" else "sonarr".

(** The two matchers run on a catalog that is already cached: what
    [resolve_radarr_movie] computes then, as a function of the catalog. *)
Definition chain_on (mp : MediaMapper) (cache : dict Z RadarrMovie)
           (path : string) (tmdb : option string) : outcome (option Z) :=
  match scan_movies_by_path (radarr_prefix mp)
          (_normalize_path path (jellyfin_movie_prefix mp)) cache with
  | Return r =>
      if negb (truthy_id r) then
        if truthy_str tmdb
        then Return (scan_movies_by_tmdb (or_default tmdb "") cache)
        else Return r
      else Return r
  | Raise e => Raise e
  end.

(** The chain in the words of the design document: the path match first;
    the provider-id match only when the path match found nothing and the
    item carries a provider id; the first result that is present wins. *)
Definition chain_spec (mp : MediaMapper) (cache : dict Z RadarrMovie)
           (path : string) (tmdb : option string) : outcome (option Z) :=
  match scan_movies_by_path (radarr_prefix mp)
          (_normalize_path path (jellyfin_movie_prefix mp)) cache with
  | Return (Some movie_id) => Return (Some movie_id)
  | Return None =>
      match tmdb with
      | Some t => if PyStr.truthy t then Return (scan_movies_by_tmdb t cache) else Return None
      | None => Return None
      end
  | Raise e => Raise e
  end.

(** The caches of the mapper, one key per unit that is fetched at once. *)
Inductive cache_key :=
| MoviesCache
| SeriesCache
| EpisodesCache (sid : Z)
| RadarrTagsCache
| SonarrTagsCache.

Definition is_some {A} (x : option A) : bool :=
  match x with Some _ => true | None => false end.

(** The cache holds the unit. *)
Definition populated (k : cache_key) (m : MediaMapper) : bool :=
  match k with
  | MoviesCache => is_some (_movies_cache m)
  | SeriesCache => is_some (_series_cache m)
  | EpisodesCache sid => dict_mem Z.eqb sid (_episodes_cache m)
  | RadarrTagsCache => dict_mem String.eqb "radarr" (_tags_cache m)
  | SonarrTagsCache => dict_mem String.eqb "sonarr" (_tags_cache m)
  end.

(** The request that fetches the unit. *)
Definition fetch_request (k : cache_key) (r : request) : bool :=
  match k, r with
  | MoviesCache, GET_radarr_movie => true
  | SeriesCache, GET_sonarr_series => true
  | EpisodesCache sid, GET_sonarr_episode sid' => Z.eqb sid sid'
  | RadarrTagsCache, GET_radarr_tag => true
  | SonarrTagsCache, GET_sonarr_tag => true
  | _, _ => false
  end.

(** The call fetched the unit: the right request, and it did not raise. *)
Definition fetches (k : cache_key) (c : call) : bool :=
  (fetch_request k (call_request c) && negb (is_some (call_error c)))%bool.

Definition episodefile_delete (r : request) : bool :=
  match r with
  | DELETE_sonarr_episodefile _ | DELETE_sonarr_episodefile_bulk _ => true
  | _ => false
  end.

Definition answered_200 (c : call) : bool :=
  match call_status c with Some code => Z.eqb code 200 | None => false end.

(** The call invalidated the unit: only a deletion of episode files that
    answered 200 does, and it invalidates the episodes of every series. *)
Definition invalidates (k : cache_key) (c : call) : bool :=
  match k with
  | EpisodesCache _ => (episodefile_delete (call_request c) && answered_200 c)%bool
  | _ => false
  end.

Definition fetch_count (k : cache_key) (new : list call) : nat :=
  List.length (filter (fetches k) new).

(** Between invalidations a unit is fetched at most once, and not at all
    when the cache already holds it; once held it stays held. *)
Definition fetched_once (k : cache_key) (m : MediaMapper) (new : list call)
           (m' : MediaMapper) : Prop :=
  existsb (invalidates k) new = false ->
  if populated k m
  then populated k m' = true /\ fetch_count k new = 0%nat
  else fetch_count k new = 0%nat
       \/ (fetch_count k new = 1%nat /\ populated k m' = true).

Definition T_pop {World} (k : cache_key) (p : Proc World) (_ : option exn)
           (p' : Proc World) : Prop :=
  exists new, calls p' = (calls p ++ new)%list
              /\ fetched_once k (mapper p) new (mapper p').

(** The entries of a dictionary other than the one under key [i], in order. *)
Definition without (i : Z) {V} (d : dict Z V) : dict Z V :=
  filter (fun entry => negb (Z.eqb (fst entry) i)) d.

(** What a successful deletion of movie [i] does to the mapper: the entry
    under [i] leaves the movie cache, every other entry stays, in order;
    the other caches are the same. *)
Definition movie_entry_removed (i : Z) (m m' : MediaMapper) : Prop :=
  _movies_cache m' = option_map (without i) (_movies_cache m)
  /\ (forall key, match _movies_cache m, _movies_cache m' with
                  | Some c, Some c' =>
                      dict_get Z.eqb key c' = if Z.eqb key i then None else dict_get Z.eqb key c
                  | None, None => True
                  | _, _ => False
                  end)
  /\ _series_cache m' = _series_cache m
  /\ _episodes_cache m' = _episodes_cache m
  /\ _tags_cache m' = _tags_cache m.

(** What a successful deletion of episode files does: the episode cache is
    empty, the other caches are the same. *)
Definition episodes_cleared (m m' : MediaMapper) : Prop :=
  _episodes_cache m' = []
  /\ _movies_cache m' = _movies_cache m
  /\ _series_cache m' = _series_cache m
  /\ _tags_cache m' = _tags_cache m.

(** Distinct keys, as in every Python dictionary. *)
Definition movies_cache_wf (m : MediaMapper) : Prop :=
  match _movies_cache m with
  | Some c => NoDup (dict_keys c)
  | None => True
  end.

(** The effect of a real-mode deletion on the mapper, by the answer of the
    service: [cleared m m'] on status 200, nothing on any other status or
    on an exception; and what the method hands back. *)
Definition deletion_effect {World} (cleared : MediaMapper -> MediaMapper -> Prop)
           (answer : outcome Z) (p : Proc World) (r : outcome bool * Proc World) : Prop :=
  match answer with
  | Return status_code =>
      if Z.eqb status_code 200
      then fst r = Return true /\ cleared (mapper p) (mapper (snd r))
      else fst r = Return false /\ mapper (snd r) = mapper p
  | Raise e => fst r = Raise e /\ mapper (snd r) = mapper p
  end.

(** ** Further predicates *)

Definition starts_with_slash (s : string) : bool :=
  match s with
  | String c _ => Ascii.eqb c PyStr.slash
  | EmptyString => false
  end.

Fixpoint ends_with_slash (s : string) : bool :=
  match s with
  | EmptyString => false
  | String c EmptyString => Ascii.eqb c PyStr.slash
  | String _ r => ends_with_slash r
  end.

(** The entry [(movie_id, movie)] is the first of the catalog, in iteration
    order, that has a file whose normalized path is [jellyfin_norm]. *)
Definition first_path_match (radarr_pre jellyfin_norm : string)
           (cache : dict Z RadarrMovie) (movie_id : Z) (movie : RadarrMovie) : Prop :=
  exists before after f,
    cache = (before ++ (movie_id, movie) :: after)%list
    /\ no_path_match radarr_pre jellyfin_norm before
    /\ hasFile movie = true
    /\ movieFile movie = Some f
    /\ _normalize_path f radarr_pre = jellyfin_norm.

(** The entry is the first of the catalog whose TMDb id prints as [tmdb_id]. *)
Definition first_tmdb_match (tmdb_id : string) (cache : dict Z RadarrMovie)
           (movie_id : Z) (movie : RadarrMovie) : Prop :=
  exists before after,
    cache = (before ++ (movie_id, movie) :: after)%list
    /\ no_tmdb_match tmdb_id before
    /\ str_of_tmdbId (tmdbId movie) = tmdb_id.

(** The deletions the orchestrator sends, by service. *)
Definition movie_delete (r : request) : bool :=
  match r with DELETE_radarr_movie _ => true | _ => false end.

Definition episode_delete (r : request) : bool :=
  match r with DELETE_sonarr_episodefile _ => true | _ => false end.

(** The call was answered, with a status other than 200. *)
Definition answered_other (c : call) : bool :=
  match call_status c with Some code => negb (Z.eqb code 200) | None => false end.

Definition acknowledged (which : request -> bool) (c : call) : bool :=
  (which (call_request c) && answered_200 c)%bool.

Definition refused (which : request -> bool) (c : call) : bool :=
  (which (call_request c) && answered_other c)%bool.

Definition count_calls (f : call -> bool) (new : list call) : Z :=
  Z.of_nat (List.length (filter f new)).

(** The failure counters grow by the deletions that were answered with a
    status other than 200; outside a dry run the deletion counters grow by
    the deletions that were answered 200. *)
Definition T_ack {World} (dry : bool) (p : Proc World) (_ : option exn)
           (p' : Proc World) : Prop :=
  exists new,
    calls p' = (calls p ++ new)%list
    /\ movies_failed (stats p')
       = movies_failed (stats p) + count_calls (refused movie_delete) new
    /\ episodes_failed (stats p')
       = episodes_failed (stats p) + count_calls (refused episode_delete) new
    /\ (dry = false ->
        movies_deleted (stats p')
        = movies_deleted (stats p) + count_calls (acknowledged movie_delete) new
        /\ episodes_deleted (stats p')
           = episodes_deleted (stats p) + count_calls (acknowledged episode_delete) new).

(** The counters the deletion outcome moves. *)
Definition deletion_counter (c : counter) : bool :=
  match c with
  | c_movies_deleted | c_movies_failed | c_episodes_deleted | c_episodes_failed => true
  | _ => false
  end.

(** The key [cleanup_episodes] files an episode under. *)
Definition series_name_of (episode : JellyfinItem) : string :=
  or_default (SeriesName episode) "Unknown".

(** The episode is one of [episodes] that has a file whose normalized path
    is [jellyfin_norm], and no episode before it is. *)
Definition first_episode_match (sonarr_pre jellyfin_norm : string)
           (episodes : list SonarrEpisode) (episode : SonarrEpisode) : Prop :=
  exists before after f,
    episodes = (before ++ episode :: after)%list
    /\ no_episode_match sonarr_pre jellyfin_norm before
    /\ ep_hasFile episode = true
    /\ episodeFile episode = Some f
    /\ _normalize_path f sonarr_pre = jellyfin_norm.

(** The call asks for the series list. *)
Definition series_fetch (c : call) : bool :=
  match call_request c with GET_sonarr_series => true | _ => false end.

(** A deletion, of a movie or of an episode file, that was answered with a
    status other than 200. *)
Definition refused_deletion (c : call) : bool :=
  (refused movie_delete c || refused episode_delete c)%bool.

(** The requests of a run for the user [uid]: that user's watched movies
    and episodes, the two catalogs, the episodes of a series, and the
    deletion of one movie or of one episode file, under an identifier
    other than 0. *)
Definition run_request (uid : string) (r : request) : bool :=
  match r with
  | GET_jellyfin_Items_Movie u | GET_jellyfin_Items_Episode u => String.eqb u uid
  | GET_radarr_movie | GET_sonarr_series | GET_sonarr_episode _ => true
  | DELETE_radarr_movie i | DELETE_sonarr_episodefile i => negb (Z.eqb i 0)
  | GET_jellyfin_Users | GET_radarr_tag | GET_sonarr_tag
  | DELETE_sonarr_episodefile_bulk _ => false
  end.

Definition run_traffic (uid : string) (new : list call) (_ : option exn) : Prop :=
  Forall (fun c => run_request uid (call_request c) = true) new.

(** * Properties *)

(** ** The path normalizer *)

Section Normalizer.

Import PyStr.

Lemma intersperse_empty (s : string) : intersperse EmptyString s = s.
Proof.
  induction s as [|c r IH]; simpl; [reflexivity | now rewrite IH].
Qed.

Lemma replace_empty_prefix (s : string) : replace s EmptyString EmptyString = s.
Proof. apply intersperse_empty. Qed.

(** Once an occurrence has been recognised, its characters are dropped. *)
Lemma replace_from_skip (old new t rest : string) :
  replace_from old new (String.length t) (t ++ rest) = replace_from old new 0 rest.
Proof.
  induction t as [|c r IH]; simpl.
  - destruct rest; reflexivity.
  - exact IH.
Qed.

Lemma prefix_app (a b : string) : String.prefix a (a ++ b) = true.
Proof.
  induction a as [|c r IH]; simpl.
  - destruct b; reflexivity.
  - destruct (ascii_dec c c); [exact IH | congruence].
Qed.

(** A leading occurrence of the mount prefix is removed, and the scan goes
    on in the remainder. *)
Lemma replace_leading (old rest : string) :
  old <> EmptyString ->
  replace (old ++ rest) old EmptyString = replace rest old EmptyString.
Proof.
  destruct old as [|c r]; [congruence | intros _].
  unfold replace.
  change ((String c r ++ rest)%string) with (String c (r ++ rest)%string).
  cbn [replace_from].
  change (String c (r ++ rest)%string) with ((String c r ++ rest)%string).
  rewrite prefix_app. cbn [String.length Nat.pred append].
  apply replace_from_skip.
Qed.

Lemma unquote_no_percent (s : string) :
  has_percent s = false -> Urllib.unquote s = s.
Proof. intros H. unfold Urllib.unquote. now rewrite H. Qed.

Lemma lstrip_no_leading (s : string) : no_leading_slash (lstrip_slash s).
Proof.
  induction s as [|c r IH]; simpl; [exact I|].
  destruct (Ascii.eqb c slash) eqn:E; [exact IH | exact E].
Qed.

Lemma lstrip_fixed (s : string) : no_leading_slash s -> lstrip_slash s = s.
Proof.
  destruct s as [|c r]; simpl; [reflexivity|]. intros ->. reflexivity.
Qed.

Lemma rstrip_no_leading (s : string) :
  no_leading_slash s -> no_leading_slash (rstrip_slash s).
Proof.
  destruct s as [|c r]; simpl; [trivial|]. intros E.
  destruct (rstrip_slash r); [rewrite E|]; exact E.
Qed.

Lemma rstrip_idempotent (s : string) :
  rstrip_slash (rstrip_slash s) = rstrip_slash s.
Proof.
  induction s as [|c r IH]; simpl; [reflexivity|].
  destruct (rstrip_slash r) as [|d r'] eqn:E.
  - destruct (Ascii.eqb c slash) eqn:Ec; simpl; [reflexivity | now rewrite Ec].
  - cbn [rstrip_slash]. fold rstrip_slash. 
    change (match rstrip_slash (String d r') with
            | EmptyString => if Ascii.eqb c slash then EmptyString else String c EmptyString
            | String a s0 => String c (String a s0) end = String c (String d r')).
    now rewrite IH.
Qed.

Lemma strip_idempotent (s : string) : strip_slash (strip_slash s) = strip_slash s.
Proof.
  unfold strip_slash.
  rewrite (lstrip_fixed (rstrip_slash (lstrip_slash s))).
  - apply rstrip_idempotent.
  - apply rstrip_no_leading, lstrip_no_leading.
Qed.

Lemma normalize_is_stripped (path pre : string) :
  strip_slash (_normalize_path path pre) = _normalize_path path pre.
Proof. unfold _normalize_path. apply strip_idempotent. Qed.

(** What a second pass with an empty prefix does: it decodes once more. *)
Lemma normalize_again (path pre : string) :
  _normalize_path (_normalize_path path pre) EmptyString
  = strip_slash (Urllib.unquote (_normalize_path path pre)).
Proof.
  unfold _normalize_path at 1. now rewrite replace_empty_prefix.
Qed.

End Normalizer.

(** ** A text without percent escapes is left alone by [unquote] *)

Section Unquote.

Import PyStr.

Lemma has_escape_tail (c : ascii) (r : string) :
  has_escape (String c r) = false -> has_escape r = false.
Proof. cbn [has_escape]. intros H. now apply orb_false_iff in H as [_ H]. Qed.

Lemma has_escape_app (a b : string) :
  has_escape (a ++ b) = false -> has_escape a = false /\ has_escape b = false.
Proof.
  induction a as [|c r IH]; cbn [append]; [auto|]. intros H.
  destruct (IH (has_escape_tail _ _ H)) as [Hr Hb]. split; [|exact Hb].
  cbn [has_escape] in *. apply orb_false_iff in H as [Hh _].
  rewrite Hr, orb_false_r.
  destruct r as [|h [|l r2]]; [reflexivity | reflexivity | exact Hh].
Qed.

Lemma unquote_to_bytes_fixed (s : string) :
  has_escape s = false -> Urllib.unquote_to_bytes s = s.
Proof.
  induction s as [|c r IH]; [reflexivity|]. intros H.
  pose proof (IH (has_escape_tail _ _ H)) as Hr.
  cbn [has_escape] in H. apply orb_false_iff in H as [Hh _].
  cbn [Urllib.unquote_to_bytes].
  destruct (Ascii.eqb c percent) eqn:Ec; [|now rewrite Hr].
  destruct r as [|h [|l r2]]; [reflexivity | now rewrite Hr |].
  cbn [escape_at_head] in Hh. rewrite Ec in Hh. cbn [andb] in Hh.
  destruct (Urllib.hextobyte h l); [discriminate | now rewrite Hr].
Qed.

Lemma decode_utf8_replace_ascii (s : string) :
  all_ascii s = true -> Urllib.decode_utf8_replace s = s.
Proof.
  induction s as [|c r IH]; [reflexivity|]. cbn [all_ascii]. intros H.
  apply andb_true_iff in H as [Hc Hr]. cbn [Urllib.decode_utf8_replace].
  unfold Urllib.is_ascii in Hc. now rewrite Hc, (IH Hr).
Qed.

Lemma all_ascii_app (a b : string) :
  all_ascii (a ++ b) = (all_ascii a && all_ascii b)%bool.
Proof.
  induction a as [|c r IH]; cbn [append all_ascii]; [reflexivity|].
  now rewrite IH, andb_assoc.
Qed.

Lemma append_snoc (a : string) (c : ascii) (r : string) :
  ((a ++ String c EmptyString) ++ r)%string = (a ++ String c r)%string.
Proof. induction a as [|x a IH]; cbn [append]; [reflexivity | now rewrite IH]. Qed.

Lemma runs_nonempty (b : bool) (acc s : string) : Urllib.runs b acc s <> [].
Proof.
  revert b acc. induction s as [|c r IH]; intros b acc; cbn [Urllib.runs]; [discriminate|].
  destruct (Bool.eqb (Urllib.is_ascii c) b); [apply IH | discriminate].
Qed.

Lemma concat_cons (x : string) (l : list string) :
  l <> [] -> String.concat EmptyString (x :: l) = (x ++ String.concat EmptyString l)%string.
Proof. destruct l; [congruence | reflexivity]. Qed.

Lemma unquote_run_fixed (b : bool) (r : string) :
  (b = true -> all_ascii r = true /\ has_escape r = false) ->
  Urllib.unquote_run (b, r) = r.
Proof.
  unfold Urllib.unquote_run. cbn [fst snd]. destruct b; [|reflexivity].
  intros H. destruct (H eq_refl) as [Ha He].
  now rewrite (unquote_to_bytes_fixed _ He), (decode_utf8_replace_ascii _ Ha).
Qed.

(** The runs of a text without escapes, each decoded, make up the text. *)
Lemma runs_fixed (s : string) : forall (b : bool) (acc : string),
  (b = true -> all_ascii acc = true) ->
  has_escape (if b then acc ++ s else s) = false ->
  String.concat EmptyString (map Urllib.unquote_run (Urllib.runs b acc s))
  = (acc ++ s)%string.
Proof.
  induction s as [|c r IH]; intros b acc Hacc He.
  - cbn [Urllib.runs map String.concat]. 
    assert (E : (acc ++ "")%string = acc).
    { clear. induction acc as [|x a IH]; cbn [append]; [reflexivity | now rewrite IH]. }
    rewrite E in *. apply unquote_run_fixed. intros ->. split; [auto | exact He].
  - cbn [Urllib.runs].
    destruct (Bool.eqb (Urllib.is_ascii c) b) eqn:Eb.
    + apply Bool.eqb_prop in Eb. rewrite IH; [apply append_snoc | |].
      * intros ->. rewrite all_ascii_app, (Hacc eq_refl). cbn [all_ascii].
        now rewrite Eb.
      * destruct b; [now rewrite append_snoc | exact (has_escape_tail _ _ He)].
    + cbn [map]. rewrite concat_cons.
      2: { intros H. apply map_eq_nil in H. exact (runs_nonempty _ _ _ H). }
      rewrite unquote_run_fixed.
      2: { intros ->. split; [auto | exact (proj1 (has_escape_app _ _ He))]. }
      rewrite IH; [reflexivity | intros H; cbn [all_ascii]; now rewrite H |].
      destruct b.
      * destruct (Urllib.is_ascii c); [discriminate|].
        exact (has_escape_tail _ _ (proj2 (has_escape_app _ _ He))).
      * destruct (Urllib.is_ascii c); [exact He | discriminate].
Qed.

Lemma unquote_no_escape (s : string) :
  has_escape s = false -> Urllib.unquote s = s.
Proof.
  intros H. unfold Urllib.unquote. destruct (has_percent s); [|reflexivity].
  apply (runs_fixed s false EmptyString); [discriminate | exact H].
Qed.

(** *** A text with a percent escape is changed by [unquote] *)

Ltac bounds :=
  repeat (first
            [ progress unfold Urllib.continuation, Urllib.second_of_3, Urllib.second_of_4,
                Urllib.is_ascii, Urllib.between in *
            | match goal with
              | H : context [N.eqb ?a ?b] |- _ => destruct (N.eqb a b)
              | H : context [N.leb ?a ?b] |- _ => destruct (N.leb_spec a b)
              | |- context [N.leb ?a ?b] => destruct (N.leb_spec a b)
              end ];
          cbv iota in *; cbn [andb] in *);
  try discriminate; try reflexivity; try lia.

Lemma continuation_not_ascii (c : ascii) :
  Urllib.continuation c = true -> Urllib.is_ascii c = false.
Proof. intros H. bounds. Qed.

Lemma second_of_3_not_ascii (c c2 : ascii) :
  Urllib.second_of_3 c c2 = true -> Urllib.is_ascii c2 = false.
Proof. intros H. bounds. Qed.

Lemma second_of_4_not_ascii (c c2 : ascii) :
  Urllib.second_of_4 c c2 = true -> Urllib.is_ascii c2 = false.
Proof. intros H. bounds. Qed.

Lemma hexval_ascii (c : ascii) (n : N) :
  Urllib.hexval c = Some n -> Urllib.is_ascii c = true.
Proof.
  unfold Urllib.hexval. intros H.
  destruct (Urllib.between 48 57 c) eqn:E1; [clear H; bounds|].
  destruct (Urllib.between 65 70 c) eqn:E2; [clear H; bounds|].
  destruct (Urllib.between 97 102 c) eqn:E3; [clear H; bounds | discriminate].
Qed.

Lemma hextobyte_ascii (h l b : ascii) :
  Urllib.hextobyte h l = Some b -> Urllib.is_ascii h = true /\ Urllib.is_ascii l = true.
Proof.
  unfold Urllib.hextobyte.
  destruct (Urllib.hexval h) as [a|] eqn:Eh; [|discriminate].
  destruct (Urllib.hexval l) as [a'|] eqn:El; [|discriminate].
  intros _. split; eapply hexval_ascii; eassumption.
Qed.

Lemma not_ascii_not_percent (c : ascii) :
  Urllib.is_ascii c = false -> Ascii.eqb c percent = false.
Proof.
  intros H. destruct (Ascii.eqb_spec c percent) as [->|_]; [|reflexivity].
  vm_compute in H. discriminate H.
Qed.

Lemma ascii_count_app (a b : string) :
  ascii_count (a ++ b) = (ascii_count a + ascii_count b)%nat.
Proof.
  induction a as [|c r IH]; cbn [append ascii_count]; [reflexivity|]. rewrite IH. lia.
Qed.

Lemma ascii_count_replacement : ascii_count Urllib.replacement = 0%nat.
Proof. reflexivity. Qed.


Ltac not_ascii c :=
  match goal with
  | H : Urllib.between 0 127 c = false |- _ => exact H
  | H : Urllib.continuation c = true |- _ => exact (continuation_not_ascii c H)
  | H : Urllib.second_of_3 _ c = true |- _ => exact (second_of_3_not_ascii _ c H)
  | H : Urllib.second_of_4 _ c = true |- _ => exact (second_of_4_not_ascii _ c H)
  end.

Ltac count_leaf IH :=
  rewrite ?ascii_count_app, ?ascii_count_replacement; cbn [ascii_count];
  repeat match goal with
         | |- context [Urllib.is_ascii ?c] =>
             let E := fresh "E" in
             assert (E : Urllib.is_ascii c = false) by not_ascii c;
             rewrite !E; clear E
         end;
  rewrite ?IH by (cbn [String.length] in *; lia);
  cbn [ascii_count]; lia.

(** Decoding copies the ASCII bytes, and what it adds is not ASCII. *)
Lemma decode_utf8_replace_ascii_count (n : nat) : forall s : string,
  (String.length s <= n)%nat ->
  ascii_count (Urllib.decode_utf8_replace s) = ascii_count s.
Proof.
  induction n as [|n IH]; intros s Hn.
  - destruct s; [reflexivity | cbn [String.length] in Hn; lia].
  - destruct s as [|c r]; [reflexivity|]. cbn [String.length] in Hn.
    cbn [Urllib.decode_utf8_replace].
    destruct (Urllib.between 0 127 c) eqn:Ec.
    { cbn [ascii_count]. rewrite IH by lia. reflexivity. }
    destruct (Urllib.between 194 223 c).
    { destruct r as [|c2 r2]; [count_leaf IH|].
      destruct (Urllib.continuation c2) eqn:E2; count_leaf IH. }
    destruct (Urllib.between 224 239 c).
    { destruct r as [|c2 r2]; [count_leaf IH|].
      destruct (Urllib.second_of_3 c c2) eqn:E2; [|count_leaf IH].
      destruct r2 as [|c3 r3]; [count_leaf IH|].
      destruct (Urllib.continuation c3) eqn:E3; count_leaf IH. }
    destruct (Urllib.between 240 244 c).
    { destruct r as [|c2 r2]; [count_leaf IH|].
      destruct (Urllib.second_of_4 c c2) eqn:E2; [|count_leaf IH].
      destruct r2 as [|c3 r3]; [count_leaf IH|].
      destruct (Urllib.continuation c3) eqn:E3; [|count_leaf IH].
      destruct r3 as [|c4 r4]; [count_leaf IH|].
      destruct (Urllib.continuation c4) eqn:E4; count_leaf IH. }
    count_leaf IH.
Qed.


Lemma percent_is_ascii (c : ascii) : Ascii.eqb c percent = true -> Urllib.is_ascii c = true.
Proof. intros H. apply Ascii.eqb_eq in H. subst c. reflexivity. Qed.

(** Each escape turns three ASCII characters into one byte. *)
Lemma unquote_to_bytes_ascii_count (n : nat) : forall s : string,
  (String.length s <= n)%nat ->
  (ascii_count (Urllib.unquote_to_bytes s) + (if has_escape s then 2 else 0)
   <= ascii_count s)%nat.
Proof.
  induction n as [|n IH]; intros s Hn.
  - destruct s; [cbn; lia | cbn [String.length] in Hn; lia].
  - destruct s as [|c r]; [cbn; lia|]. cbn [String.length] in Hn.
    assert (Hgen : escape_at_head (String c r) = false ->
                   (ascii_count (String c (Urllib.unquote_to_bytes r))
                    + (if has_escape (String c r) then 2 else 0)
                    <= ascii_count (String c r))%nat).
    { intros Hh. cbn [has_escape]. rewrite Hh. cbn [orb ascii_count].
      pose proof (IH r ltac:(lia)). lia. }
    cbn [Urllib.unquote_to_bytes].
    destruct (Ascii.eqb c percent) eqn:Ec.
    + destruct r as [|h [|l r2]]; [apply Hgen; reflexivity | apply Hgen; reflexivity |].
      destruct (Urllib.hextobyte h l) as [b|] eqn:Eh.
      * destruct (hextobyte_ascii h l b Eh) as [Hh Hl].
        cbn [has_escape escape_at_head]. rewrite Ec, Eh. cbn [andb orb ascii_count].
        rewrite (percent_is_ascii c Ec), Hh, Hl.
        pose proof (IH r2 ltac:(cbn [String.length] in Hn; lia)).
        destruct (Urllib.is_ascii b), (has_escape r2); lia.
      * apply Hgen. cbn [escape_at_head]. rewrite Ec, Eh. reflexivity.
    + apply Hgen. destruct r as [|h [|l r2]]; cbn [escape_at_head]; [reflexivity..|].
      now rewrite Ec.
Qed.

Lemma has_escape_has_percent (s : string) : has_escape s = true -> has_percent s = true.
Proof.
  induction s as [|c r IH]; [discriminate|]. cbn [has_escape has_percent].
  intros H. apply orb_true_iff in H as [H|H].
  - destruct r as [|h [|l r2]]; cbn [escape_at_head] in H; try discriminate.
    apply andb_true_iff in H as [-> _]. reflexivity.
  - rewrite (IH H). apply orb_true_r.
Qed.

(** A character that is not ASCII is no part of an escape. *)
Lemma escape_at_head_not_ascii (c : ascii) (r : string) :
  Urllib.is_ascii c = false -> escape_at_head (String c r) = false.
Proof.
  intros H. destruct r as [|h [|l r2]]; cbn [escape_at_head]; [reflexivity..|].
  now rewrite (not_ascii_not_percent c H).
Qed.

Lemma hexval_not_ascii (c : ascii) : Urllib.is_ascii c = false -> Urllib.hexval c = None.
Proof.
  intros H. destruct (Urllib.hexval c) as [n|] eqn:E; [|reflexivity].
  apply hexval_ascii in E. congruence.
Qed.

Lemma has_escape_split (c : ascii) (a r : string) :
  Urllib.is_ascii c = false ->
  has_escape (a ++ String c r) = (has_escape a || has_escape r)%bool.
Proof.
  intros Hc. induction a as [|x a IH]; cbn [append].
  - cbn [has_escape]. now rewrite (escape_at_head_not_ascii c r Hc).
  - change (has_escape (String x (a ++ String c r)))
      with (escape_at_head (String x (a ++ String c r)) || has_escape (a ++ String c r))%bool.
    change (has_escape (String x a)) with (escape_at_head (String x a) || has_escape a)%bool.
    rewrite IH, orb_assoc. f_equal. f_equal.
    destruct a as [|h [|l a2]]; cbn [append escape_at_head].
    + destruct r; [reflexivity|]. unfold Urllib.hextobyte.
      rewrite (hexval_not_ascii c Hc). apply andb_false_r.
    + unfold Urllib.hextobyte. rewrite (hexval_not_ascii c Hc).
      destruct (Urllib.hexval h); apply andb_false_r.
    + reflexivity.
Qed.


Lemma unquote_run_ascii_count (b : bool) (r : string) :
  (ascii_count (Urllib.unquote_run (b, r)) + (if (b && has_escape r)%bool then 2 else 0)
   <= ascii_count r)%nat.
Proof.
  unfold Urllib.unquote_run. cbn [fst snd]. destruct b; cbn [andb]; [|lia].
  rewrite (decode_utf8_replace_ascii_count _ _ (Nat.le_refl _)).
  apply (unquote_to_bytes_ascii_count _ _ (Nat.le_refl _)).
Qed.

Lemma append_nil_r (a : string) : (a ++ "")%string = a.
Proof. induction a as [|x a IH]; cbn [append]; [reflexivity | now rewrite IH]. Qed.

(** Decoding the runs of a text loses two ASCII characters or more when the
    text holds an escape, and gains none in any case. *)
Lemma runs_ascii_count (s : string) : forall (b : bool) (acc : string),
  (ascii_count (String.concat EmptyString (map Urllib.unquote_run (Urllib.runs b acc s)))
   + (if has_escape (if b then acc ++ s else s) then 2 else 0)
   <= ascii_count (acc ++ s))%nat.
Proof.
  induction s as [|c r IH]; intros b acc.
  - cbn [Urllib.runs map String.concat]. rewrite append_nil_r.
    pose proof (unquote_run_ascii_count b acc) as H.
    destruct b; cbn [andb] in H; [exact H|]. cbn [has_escape escape_at_head orb]. lia.
  - cbn [Urllib.runs].
    destruct (Bool.eqb (Urllib.is_ascii c) b) eqn:Eb.
    + apply Bool.eqb_prop in Eb. specialize (IH b (acc ++ String c EmptyString)%string).
      rewrite !append_snoc in IH. destruct b; [exact IH|].
      cbn [has_escape]. rewrite (escape_at_head_not_ascii c r Eb). exact IH.
    + cbn [map]. rewrite concat_cons.
      2: { intros H. apply map_eq_nil in H. exact (runs_nonempty _ _ _ H). }
      rewrite !ascii_count_app.
      pose proof (unquote_run_ascii_count b acc) as H1.
      specialize (IH (Urllib.is_ascii c) (String c EmptyString)).
      rewrite ascii_count_app in IH.
      destruct b; cbn [andb] in H1.
      * destruct (Urllib.is_ascii c) eqn:Ec; [discriminate|].
        rewrite (has_escape_split c acc r Ec).
        cbn [ascii_count append] in *. rewrite Ec in *.
        destruct (has_escape acc), (has_escape r); cbn [orb] in *; lia.
      * destruct (Urllib.is_ascii c) eqn:Ec; [|discriminate].
        cbn [ascii_count append] in *. rewrite Ec in *.
        destruct (has_escape (String c r)); lia.
Qed.

Lemma unquote_ascii_count (s : string) :
  has_escape s = true -> (ascii_count (Urllib.unquote s) + 2 <= ascii_count s)%nat.
Proof.
  intros H. unfold Urllib.unquote. rewrite (has_escape_has_percent s H).
  pose proof (runs_ascii_count s false EmptyString) as Hr. cbv iota in Hr.
  rewrite H in Hr. exact Hr.
Qed.

Lemma lstrip_ascii_count (s : string) : (ascii_count (lstrip_slash s) <= ascii_count s)%nat.
Proof.
  induction s as [|c r IH]; cbn [lstrip_slash]; [lia|].
  destruct (Ascii.eqb c slash); [cbn [ascii_count]; lia | lia].
Qed.

Lemma rstrip_ascii_count (s : string) : (ascii_count (rstrip_slash s) <= ascii_count s)%nat.
Proof.
  induction s as [|c r IH]; cbn [rstrip_slash]; [lia|].
  destruct (rstrip_slash r) as [|d r'].
  - destruct (Ascii.eqb c slash); cbn [ascii_count] in *; lia.
  - cbn [ascii_count] in *. lia.
Qed.

Lemma strip_ascii_count (s : string) : (ascii_count (strip_slash s) <= ascii_count s)%nat.
Proof.
  unfold strip_slash.
  pose proof (rstrip_ascii_count (lstrip_slash s)). pose proof (lstrip_ascii_count s). lia.
Qed.

(** A second pass over a text that holds an escape changes it. *)
Lemma normalize_again_differs (path pre : string) :
  has_escape (_normalize_path path pre) = true ->
  _normalize_path (_normalize_path path pre) EmptyString <> _normalize_path path pre.
Proof.
  intros H E. rewrite normalize_again in E.
  pose proof (unquote_ascii_count _ H) as H1.
  pose proof (strip_ascii_count (Urllib.unquote (_normalize_path path pre))) as H2.
  rewrite E in H2. lia.
Qed.

End Unquote.

Section NormalizerClaims.

Import PyStr.

Lemma replace_from_absent (old new s : string) :
  occurs old s = false -> replace_from old new 0 s = s.
Proof.
  induction s as [|c r IH]; [reflexivity|].
  cbn [occurs replace_from]. intros H.
  apply orb_false_iff in H as [Hp Hr].
  rewrite Hp, (IH Hr). reflexivity.
Qed.

Lemma replace_absent (old s : string) :
  occurs old s = false -> replace s old EmptyString = s.
Proof.
  destruct old; [intros _; apply replace_empty_prefix|].
  apply replace_from_absent.
Qed.

Lemma substring_whole (s : string) : String.substring 0 (String.length s) s = s.
Proof. induction s as [|c r IH]; simpl; [reflexivity | now rewrite IH]. Qed.

Lemma substring_after (a b : string) :
  String.substring (String.length a) (String.length (a ++ b) - String.length a) (a ++ b) = b.
Proof.
  induction a as [|c r IH]; simpl.
  - rewrite Nat.sub_0_r. apply substring_whole.
  - exact IH.
Qed.

Lemma strip_mount_prefix_leading (pre rest : string) :
  strip_mount_prefix (pre ++ rest) pre = rest.
Proof.
  unfold strip_mount_prefix. rewrite prefix_app. apply substring_after.
Qed.

(** Where the mount prefix occurs only at the start of the path, the code
    does what the document says. *)
Lemma normalize_leading_only (pre rest : string) :
  pre <> EmptyString ->
  occurs pre rest = false ->
  _normalize_path (pre ++ rest) pre = strip_slash (Urllib.unquote rest)
  /\ normalize_spec (pre ++ rest) pre = strip_slash (Urllib.unquote rest).
Proof.
  intros Hne Hno. unfold _normalize_path, normalize_spec.
  rewrite (replace_leading pre rest Hne), (replace_absent pre rest Hno).
  rewrite strip_mount_prefix_leading. split; reflexivity.
Qed.

(** Where the mount prefix does not occur in the path, nothing is removed. *)
Lemma normalize_prefix_absent (pre path : string) :
  occurs pre path = false ->
  _normalize_path path pre = strip_slash (Urllib.unquote path)
  /\ normalize_spec path pre = strip_slash (Urllib.unquote path).
Proof.
  intros Hno. unfold _normalize_path, normalize_spec, strip_mount_prefix.
  rewrite (replace_absent pre path Hno).
  destruct path as [|c r]; cbn [occurs] in Hno.
  - apply orb_false_iff in Hno as [-> _]. split; reflexivity.
  - apply orb_false_iff in Hno as [-> _]. split; reflexivity.
Qed.

(** The worked example of the document: both sides of the movie pair
    normalize to the same text, so the comparison succeeds. *)
Example normalize_the_matrix :
  _normalize_path "/media/movies/The Matrix (1999)/The Matrix (1999) REMUX-2160p.mkv"
                  "/media/movies/"
    = "The Matrix (1999)/The Matrix (1999) REMUX-2160p.mkv"
  /\ _normalize_path "/movies/The Matrix (1999)/The Matrix (1999) REMUX-2160p.mkv"
                     "/movies/"
    = "The Matrix (1999)/The Matrix (1999) REMUX-2160p.mkv"
  /\ String.eqb
       (_normalize_path "/media/movies/The Matrix (1999)/The Matrix (1999) REMUX-2160p.mkv"
                        "/media/movies/")
       (_normalize_path "/movies/The Matrix (1999)/The Matrix (1999) REMUX-2160p.mkv"
                        "/movies/") = true.
Proof. repeat split; vm_compute; reflexivity. Qed.

(** C6. [_normalize_path] does not strip a mount prefix, it deletes the
    prefix text wherever it occurs: on a path that holds the text a second
    time, the inner occurrence goes too and two path segments are glued
    together, where stripping the prefix as the document (and the
    method's docstring) describes keeps the remainder intact. *)
Theorem normalize_path_removes_inner_occurrences :
  _normalize_path "/movies/Collection/movies/Film (2001).mkv" "/movies/"
    = "CollectionFilm (2001).mkv"
  /\ normalize_spec "/movies/Collection/movies/Film (2001).mkv" "/movies/"
    = "Collection/movies/Film (2001).mkv".
Proof. split; vm_compute; reflexivity. Qed.

(** C7, as stated, fails: a doubly encoded character is decoded once by
    each pass. *)
Lemma normalize_twice_differs :
  ~ (forall path pre : string,
       _normalize_path (_normalize_path path pre) EmptyString = _normalize_path path pre).
Proof.
  intros H. specialize (H "%2541" EmptyString). vm_compute in H. discriminate H.
Qed.

(** C7, amended. A second pass with an empty prefix removes nothing, decodes
    the result of the first pass once more and strips the separators
    again. So it returns the result of the first pass exactly when that
    result holds no percent escape, a percent sign followed by two
    hexadecimal digits; a percent sign of any other kind may stay. A result
    that holds an escape, as that of a doubly encoded character does, is
    decoded again: [%2541] gives [%41], and [%41] gives [A]. *)
Theorem normalize_idempotent_without_escape (path pre : string) :
  _normalize_path (_normalize_path path pre) EmptyString
  = strip_slash (Urllib.unquote (_normalize_path path pre))
  /\ (has_escape (_normalize_path path pre) = false ->
      _normalize_path (_normalize_path path pre) EmptyString = _normalize_path path pre)
  /\ (has_escape (_normalize_path path pre) = true ->
      _normalize_path (_normalize_path path pre) EmptyString <> _normalize_path path pre)
  /\ (_normalize_path "%2541" EmptyString = "%41"
      /\ has_escape "%41" = true
      /\ _normalize_path "%41" EmptyString = "A").
Proof.
  split; [apply normalize_again|]. split; [|split].
  - intros H. rewrite normalize_again, (unquote_no_escape _ H).
    apply normalize_is_stripped.
  - apply normalize_again_differs.
  - repeat split; vm_compute; reflexivity.
Qed.

Lemma normalize_idempotent_without_escape_witness :
  let path := "/movies/100% Wolf (2020)/100%25 Wolf.mkv" in
  _normalize_path path "/movies/" = "100% Wolf (2020)/100% Wolf.mkv"
  /\ has_percent (_normalize_path path "/movies/") = true
  /\ has_escape (_normalize_path path "/movies/") = false
  /\ _normalize_path (_normalize_path path "/movies/") EmptyString
     = _normalize_path path "/movies/".
Proof.
  cbv zeta. split; [vm_compute; reflexivity|]. split; [vm_compute; reflexivity|].
  split; [vm_compute; reflexivity|].
  apply (proj1 (proj2 (normalize_idempotent_without_escape
                         "/movies/100% Wolf (2020)/100%25 Wolf.mkv" "/movies/"))).
  vm_compute; reflexivity.
Defined.

End NormalizerClaims.

(** ** The monad *)

Section Monad.

Context {World : Type}.
Implicit Types p : Proc World.

Lemma wp_ret {A} (a : A) (Q : outcome A -> Proc World -> Prop) p :
  Q (Return a) p -> wp (ret a) Q p.
Proof. exact (fun H => H). Qed.

Lemma wp_raise {A} (e : exn) (Q : outcome A -> Proc World -> Prop) p :
  Q (Raise e) p -> wp (raise e) Q p.
Proof. exact (fun H => H). Qed.

Lemma wp_bind {A B} (m : M World A) (k : A -> M World B) Q p :
  wp m (fun o p1 => match o with
                    | Return a => wp (k a) Q p1
                    | Raise e => Q (Raise e) p1
                    end) p ->
  wp (bind m k) Q p.
Proof.
  unfold wp, bind. destruct (m p) as [[a|e] p1]; simpl; exact (fun H => H).
Qed.

Lemma wp_conseq {A} (m : M World A) (Q Q' : outcome A -> Proc World -> Prop) p :
  wp m Q p -> (forall o p1, Q o p1 -> Q' o p1) -> wp m Q' p.
Proof. unfold wp. intros H HQ. apply HQ, H. Qed.

Lemma wp_modify_stats f (Q : outcome unit -> Proc World -> Prop) p :
  Q (Return tt) (with_stats f p) -> wp (modify_stats f) Q p.
Proof. exact (fun H => H). Qed.

End Monad.

(** ** Relations that compose along a computation *)

Section Obeys.

Context {World : Type}.
Variable T : Proc World -> option exn -> Proc World -> Prop.
Hypothesis T_ok : composes T.

Lemma obeys_ret {A} (a : A) : obeys T (ret a).
Proof. intros p. apply (composes_refl T T_ok). Qed.

Lemma obeys_raise {A} (e : exn) : internal e -> obeys T (@raise World A e).
Proof. intros He p. apply (composes_internal T T_ok), He. Qed.

Lemma obeys_get_mapper : obeys T get_mapper.
Proof. intros p. apply (composes_refl T T_ok). Qed.

Lemma obeys_get_stats : obeys T get_stats.
Proof. intros p. apply (composes_refl T T_ok). Qed.

(** A pure step that can only fail with an internal exception. *)
Lemma obeys_pure {A} (o : outcome A) :
  (forall e, o = Raise e -> internal e) -> obeys T (lift o).
Proof.
  intros Ho p. destruct o as [a|e]; simpl.
  - apply (composes_refl T T_ok).
  - apply (composes_internal T T_ok), Ho. reflexivity.
Qed.

Lemma obeys_bind {A B} (m : M World A) (k : A -> M World B) :
  obeys T m -> (forall a, obeys T (k a)) -> obeys T (bind m k).
Proof.
  intros Hm Hk p. unfold bind. specialize (Hm p).
  destruct (m p) as [[a|e] p1]; simpl in *; [|exact Hm].
  eapply (composes_trans T T_ok); [exact Hm | apply Hk].
Qed.

Lemma obeys_for_each {A} (body : A -> M World unit) (l : list A) :
  (forall x, In x l -> obeys T (body x)) -> obeys T (for_each body l).
Proof.
  induction l as [|x r IH]; intros Hb.
  - apply obeys_ret.
  - cbn [for_each]. apply obeys_bind; [apply Hb; left; reflexivity|].
    intros _. apply IH. intros y Hy. apply Hb. right. exact Hy.
Qed.

End Obeys.

Lemma scan_movies_by_path_internal (rp jn : string) (items : dict Z RadarrMovie) (e : exn) :
  scan_movies_by_path rp jn items = Raise e -> internal e.
Proof.
  induction items as [|[k m] r IH]; simpl; [discriminate|].
  destruct (hasFile m); simpl; [|exact IH].
  destruct (movieFile m) as [path|]; [|intros [= <-]; left; reflexivity].
  destruct (String.eqb jn (_normalize_path path rp)); [discriminate | exact IH].
Qed.

Lemma scan_episodes_by_path_internal (sp jn : string) (eps : list SonarrEpisode) (e : exn) :
  scan_episodes_by_path sp jn eps = Raise e -> internal e.
Proof.
  induction eps as [|m r IH]; simpl; [discriminate|].
  destruct (ep_hasFile m); simpl; [|exact IH].
  destruct (episodeFile m) as [path|]; [|intros [= <-]; left; reflexivity].
  destruct (String.eqb jn (_normalize_path path sp)); [discriminate | exact IH].
Qed.

Lemma fromisoformat_internal (text : isotext) (e : exn) :
  fromisoformat text = Raise e -> internal e.
Proof. destruct text; cbn; intros [= <-]. right. left. reflexivity. Qed.

Lemma timedelta_internal (n : Z) (e : exn) : timedelta n = Raise e -> internal e.
Proof.
  unfold timedelta. destruct (Z.abs n >? 999999999); intros [= <-].
  right. right. right. reflexivity.
Qed.

Lemma datetime_sub_internal (t delta : Z) (e : exn) :
  datetime_sub t delta = Raise e -> internal e.
Proof.
  unfold datetime_sub. cbv zeta.
  destruct ((t - delta <? datetime_min) || (datetime_max <? t - delta))%bool; intros [= <-].
  right. right. right. reflexivity.
Qed.

Lemma datetime_lt_internal (a : datetime) (b : Z) (e : exn) :
  datetime_lt a b = Raise e -> internal e.
Proof.
  unfold datetime_lt. destruct (aware a); intros [= <-]. right. right. left. reflexivity.
Qed.

Create HintDb proc discriminated.

Ltac obeys_step ok :=
  cbv beta;
  first
    [ solve [auto with proc]
    | apply (obeys_ret _ ok)
    | apply (obeys_get_mapper _ ok)
    | apply (obeys_get_stats _ ok)
    | apply (obeys_bind _ ok); [|intros ?]
    | apply (obeys_pure _ ok);
      first [ apply scan_movies_by_path_internal | apply scan_episodes_by_path_internal
            | apply fromisoformat_internal | apply timedelta_internal
            | apply datetime_sub_internal | apply datetime_lt_internal ]
    | apply (obeys_raise _ ok); unfold internal; solve [auto]
    | apply (obeys_for_each _ ok); intros ? _
    | match goal with
      | |- obeys _ (match ?x with _ => _ end) => destruct x
      | |- obeys _ (if ?x then _ else _) => destruct x
      end ].

Ltac obeys_auto ok := repeat obeys_step ok.

(** ** Mapper methods leave the statistics alone *)

Section Frame.

Context {World : Type}.
Variable http : forall r : request, World -> outcome (reply r) * World.
Variable utcnow : World -> Z * World.

Lemma T_frame_ok : composes (@T_frame World).
Proof.
  split; unfold T_frame.
  - intros p. split; reflexivity.
  - intros p p1 o p2 [H1 H2] [H3 H4]. split; congruence.
  - intros p e _. split; reflexivity.
Qed.

Lemma frame_send (r : request) : obeys T_frame (send http r).
Proof.
  intros p. unfold send, T_frame. destruct (http r (world p)); simpl. split; reflexivity.
Qed.

Lemma frame_now : obeys T_frame (now utcnow).
Proof.
  intros p. unfold now, T_frame. destruct (utcnow (world p)); simpl. split; reflexivity.
Qed.

Lemma frame_modify_mapper f : obeys (@T_frame World) (modify_mapper f).
Proof. intros p. split; reflexivity. Qed.

Hint Resolve frame_send frame_now frame_modify_mapper : proc.

Lemma frame_get_jellyfin_watched_movies uid :
  obeys T_frame (get_jellyfin_watched_movies http uid).
Proof. exact (frame_send (GET_jellyfin_Items_Movie uid)). Qed.

Lemma frame_get_jellyfin_watched_episodes uid :
  obeys T_frame (get_jellyfin_watched_episodes http uid).
Proof. exact (frame_send (GET_jellyfin_Items_Episode uid)). Qed.

Lemma frame_get_all_radarr_movies : obeys T_frame (_get_all_radarr_movies http).
Proof. unfold _get_all_radarr_movies. obeys_auto (@T_frame_ok). Qed.

Lemma frame_get_all_sonarr_series : obeys T_frame (_get_all_sonarr_series http).
Proof. unfold _get_all_sonarr_series. obeys_auto (@T_frame_ok). Qed.

Lemma frame_get_sonarr_episodes sid : obeys T_frame (_get_sonarr_episodes http sid).
Proof. unfold _get_sonarr_episodes. obeys_auto (@T_frame_ok). Qed.

Lemma frame_get_radarr_tags : obeys T_frame (get_radarr_tags http).
Proof. unfold get_radarr_tags. obeys_auto (@T_frame_ok). Qed.

Lemma frame_get_sonarr_tags : obeys T_frame (get_sonarr_tags http).
Proof. unfold get_sonarr_tags. obeys_auto (@T_frame_ok). Qed.

Hint Resolve frame_get_all_radarr_movies frame_get_all_sonarr_series
  frame_get_sonarr_episodes frame_get_radarr_tags frame_get_sonarr_tags : proc.

Lemma frame_find_radarr_movie_by_path path :
  obeys T_frame (find_radarr_movie_by_path http path).
Proof. unfold find_radarr_movie_by_path. obeys_auto (@T_frame_ok). Qed.

Lemma frame_find_radarr_movie_by_tmdb t :
  obeys T_frame (find_radarr_movie_by_tmdb http t).
Proof. unfold find_radarr_movie_by_tmdb. obeys_auto (@T_frame_ok). Qed.

Hint Resolve frame_find_radarr_movie_by_path frame_find_radarr_movie_by_tmdb : proc.

Lemma frame_resolve_radarr_movie path t :
  obeys T_frame (resolve_radarr_movie http path t).
Proof. unfold resolve_radarr_movie. obeys_auto (@T_frame_ok). Qed.

Lemma frame_delete_radarr_movie i dry : obeys T_frame (delete_radarr_movie http i dry).
Proof. unfold delete_radarr_movie. obeys_auto (@T_frame_ok). Qed.

Lemma frame_scan_series sp jn sids : obeys T_frame (scan_series http sp jn sids).
Proof.
  induction sids as [|sid r IH]; cbn [scan_series]; obeys_auto (@T_frame_ok).
Qed.

Hint Resolve frame_scan_series : proc.

Lemma frame_find_sonarr_episode_by_path path sid :
  obeys T_frame (find_sonarr_episode_by_path http path sid).
Proof. unfold find_sonarr_episode_by_path. obeys_auto (@T_frame_ok). Qed.

Lemma frame_delete_sonarr_episode_file i dry :
  obeys T_frame (delete_sonarr_episode_file http i dry).
Proof. unfold delete_sonarr_episode_file. obeys_auto (@T_frame_ok). Qed.

Lemma frame_bulk_delete_sonarr_episode_files l dry :
  obeys T_frame (bulk_delete_sonarr_episode_files http l dry).
Proof. unfold bulk_delete_sonarr_episode_files. obeys_auto (@T_frame_ok). Qed.

End Frame.

#[export] Hint Resolve frame_send frame_now frame_modify_mapper
  frame_get_jellyfin_watched_movies frame_get_jellyfin_watched_episodes
  frame_get_all_radarr_movies frame_get_all_sonarr_series
  frame_get_sonarr_episodes frame_get_radarr_tags frame_get_sonarr_tags
  frame_find_radarr_movie_by_path frame_find_radarr_movie_by_tmdb
  frame_resolve_radarr_movie frame_delete_radarr_movie frame_scan_series
  frame_find_sonarr_episode_by_path frame_delete_sonarr_episode_file
  frame_bulk_delete_sonarr_episode_files : proc.

(** ** The per-item pipeline *)

Section Pipeline.

Context {World : Type}.
Variable http : forall r : request, World -> outcome (reply r) * World.
Variable utcnow : World -> Z * World.
Implicit Types p : Proc World.

(** A step that obeys [T_frame] can be passed over. *)
Lemma wp_frame {A} (m : M World A) (Q : outcome A -> Proc World -> Prop) p :
  obeys T_frame m ->
  (forall o p1, stats p1 = stats p -> summaries p1 = summaries p -> Q o p1) ->
  wp m Q p.
Proof. intros Hm HQ. apply HQ; apply (Hm p). Qed.

Lemma wp_now (Q : outcome Z -> Proc World -> Prop) p :
  (forall t p1, stats p1 = stats p -> summaries p1 = summaries p ->
                mapper p1 = mapper p -> calls p1 = calls p -> Q (Return t) p1) ->
  wp (now utcnow) Q p.
Proof.
  intros HQ. unfold wp, now. destruct (utcnow (world p)) as [t w]; simpl.
  apply HQ; reflexivity.
Qed.

(** The check, step by step: a text that is no date raises before the
    clock is read; otherwise the clock is read, and the grace period, the
    cutoff and the comparison can each raise in turn. *)
Lemma is_past_grace_period_unfold self text p :
  _is_past_grace_period utcnow self text p
  = match fromisoformat text with
    | Raise e => (Raise e, p)
    | Return last_played =>
        (match timedelta (grace_period_days (config self)) with
         | Raise e => Raise e
         | Return delta =>
             match datetime_sub (fst (utcnow (world p))) delta with
             | Raise e => Raise e
             | Return cutoff => datetime_lt last_played cutoff
             end
         end,
         snd (now utcnow p))
    end.
Proof.
  unfold _is_past_grace_period, bind, lift, now.
  destruct (fromisoformat text) as [lp|e]; [|reflexivity].
  destruct (utcnow (world p)) as [t w]. cbn [fst snd].
  destruct (timedelta (grace_period_days (config self))) as [delta|e]; [|reflexivity].
  destruct (datetime_sub t delta) as [cutoff|e]; reflexivity.
Qed.

(** A check that returns has read the clock once, and that is all it did. *)
Lemma is_past_grace_period_returns self text p (past : bool) :
  fst (_is_past_grace_period utcnow self text p) = Return past ->
  _is_past_grace_period utcnow self text p = (Return past, snd (now utcnow p)).
Proof.
  rewrite is_past_grace_period_unfold.
  destruct (fromisoformat text) as [lp|e]; cbn [fst]; [|discriminate].
  now intros ->.
Qed.

Lemma is_past_grace_period_frame self text p :
  stats (snd (_is_past_grace_period utcnow self text p)) = stats p
  /\ summaries (snd (_is_past_grace_period utcnow self text p)) = summaries p
  /\ mapper (snd (_is_past_grace_period utcnow self text p)) = mapper p
  /\ calls (snd (_is_past_grace_period utcnow self text p)) = calls p.
Proof.
  rewrite is_past_grace_period_unfold.
  destruct (fromisoformat text) as [lp|e]; cbn [snd]; [|repeat split].
  unfold now. destruct (utcnow (world p)). repeat split.
Qed.

Lemma wp_is_past_grace_period self text (Q : outcome bool -> Proc World -> Prop) p :
  (forall o p1, fst (_is_past_grace_period utcnow self text p) = o ->
                stats p1 = stats p -> summaries p1 = summaries p ->
                mapper p1 = mapper p -> calls p1 = calls p -> Q o p1) ->
  wp (_is_past_grace_period utcnow self text) Q p.
Proof.
  intros HQ. unfold wp.
  destruct (is_past_grace_period_frame self text p) as (H1 & H2 & H3 & H4).
  apply HQ; auto.
Qed.

End Pipeline.

Ltac wp_step :=
  cbv beta;
  lazymatch goal with
  | |- wp (bind _ _) _ _ => apply wp_bind
  | |- wp (ret _) _ _ => apply wp_ret
  | |- wp (raise _) _ _ => apply wp_raise
  | |- wp (incr _) _ _ => apply wp_modify_stats
  | |- wp (modify_stats _) _ _ => apply wp_modify_stats
  | |- wp (now _) _ _ => apply wp_now; intros ? ? ? ? ? ?
  | |- wp (_is_past_grace_period _ _ _) _ _ =>
      apply wp_is_past_grace_period; intros [?|?] ? ? ? ? ? ?
  | |- wp (if ?b then _ else _) _ _ => destruct b eqn:?
  | |- wp (match ?x with _ => _ end) _ _ => destruct x eqn:?
  | |- wp _ _ _ => apply wp_frame; [solve [auto with proc] | intros [?|?] ? ? ?]
  end.

Ltac stats_chain :=
  cbn [with_stats stats summaries] in *;
  repeat match goal with
         | H : stats ?q = _ |- _ => rewrite H in *; clear H
         | H : summaries ?q = _ |- _ => rewrite H in *; clear H
         end.

Ltac grace_facts :=
  repeat match goal with
         | H : negb _ = true |- _ => apply negb_true_iff in H
         | H : negb _ = false |- _ => apply negb_false_iff in H
         end.

Ltac fits_verdict v :=
  exists v; split; [reflexivity|];
  split; [cbn [verdict_fits]; unfold grace_check;
          repeat match goal with
                 | H : LastPlayedDate _ = _ |- _ => rewrite H
                 | H : fst (_is_past_grace_period _ _ _ _) = _ |- _ => rewrite H
                 end;
          solve [eauto 6] | ];
  first [ discriminate
        | intros _ Hk;
          match goal with H : _has_keep_tag _ _ = true |- _ => rewrite Hk in H end;
          discriminate ].

Ltac pick_verdict :=
  first
    [ fits_verdict UnknownSkip | fits_verdict Unchecked | fits_verdict GraceSkip
    | fits_verdict NotFoundSkip
    | fits_verdict TagSkip | fits_verdict Deleted | fits_verdict Failed
    | fits_verdict Aborted ].

Section Verdicts.

Context {World : Type}.
Variable http : forall r : request, World -> outcome (reply r) * World.
Variable utcnow : World -> Z * World.
Implicit Types p : Proc World.

Lemma cleanup_movie_verdict (self : MediaCleanup) (movie : JellyfinItem) p :
  wp (cleanup_movie http utcnow self movie)
     (fun o p' =>
        summaries p' = summaries p /\
        exists v, stats p' = movie_verdict_stats v (stats p)
                  /\ verdict_fits v (grace_check utcnow self movie p) o
                  /\ (v = TagSkip -> radarr_keep_tag_id self <> None)) p.
Proof.
  unfold cleanup_movie.
  repeat wp_step.
  all: stats_chain; grace_facts; subst; (split; [reflexivity|]); pick_verdict.
Qed.

Lemma cleanup_episode_verdict (self : MediaCleanup) (episode : JellyfinItem) p :
  wp (cleanup_episode http utcnow self episode)
     (fun o p' =>
        summaries p' = summaries p /\
        exists v, stats p' = episode_verdict_stats v (stats p)
                  /\ verdict_fits v (grace_check utcnow self episode p) o
                  /\ v <> TagSkip) p.
Proof.
  unfold cleanup_episode.
  repeat wp_step.
  all: stats_chain; grace_facts; subst; (split; [reflexivity|]); pick_verdict.
Qed.

(** How the eligible counters move, outcome by outcome. *)
Lemma movies_eligible_verdict v st :
  movies_eligible (movie_verdict_stats v st)
  = movies_eligible st + match v with UnknownSkip | Unchecked | GraceSkip => 0 | _ => 1 end.
Proof. destruct st, v; cbn; lia. Qed.

Lemma episodes_eligible_verdict v st :
  episodes_eligible (episode_verdict_stats v st)
  = episodes_eligible st + match v with UnknownSkip | Unchecked | GraceSkip => 0 | _ => 1 end.
Proof. destruct st, v; cbn; lia. Qed.

Lemma verdict_fits_eligible v check o :
  verdict_fits v (Some check) o ->
  match v with UnknownSkip | Unchecked | GraceSkip => 0 | _ => 1 end
  = match check with Return true => 1 | _ => 0 end.
Proof.
  destruct v; cbn [verdict_fits].
  1: intros [H _]; discriminate H.
  1: intros (e & [= ->] & _); reflexivity.
  all: intros ([= ->] & _); reflexivity.
Qed.

Lemma verdict_fits_unchecked v e o :
  verdict_fits v (Some (Raise e)) o -> v = Unchecked /\ o = Raise e.
Proof.
  destruct v; cbn [verdict_fits].
  1: intros [H _]; discriminate H.
  1: intros (e' & [= ->] & ->); split; reflexivity.
  all: intros (H & _); discriminate H.
Qed.

(** The check on a timestamp with an offset, when the grace period and the
    cutoff are representable. *)
Lemma is_past_grace_period_aware self p (last_played : Z) :
  Z.abs (grace_period_days (config self)) <= 999999999 ->
  0 <= fst (utcnow (world p)) - grace_period_days (config self) * 86400000000
    <= 315537897599999999 ->
  fst (_is_past_grace_period utcnow self (Aware last_played) p)
  = Return (last_played
            <? fst (utcnow (world p)) - grace_period_days (config self) * 86400000000).
Proof.
  intros Hd [Hlo Hhi]. rewrite is_past_grace_period_unfold.
  cbn [fromisoformat fst]. unfold timedelta.
  destruct (Z.gtb_spec (Z.abs (grace_period_days (config self))) 999999999) as [H|_]; [lia|].
  unfold datetime_sub, datetime_min, datetime_max, timedelta_days, microseconds_per_day.
  cbv zeta.
  change (86400 * 1000000) with 86400000000.
  change (3652059 * 86400000000 - 1) with 315537897599999999.
  destruct (Z.ltb_spec (fst (utcnow (world p))
                        - grace_period_days (config self) * 86400000000) 0) as [H|_]; [lia|].
  destruct (Z.ltb_spec 315537897599999999
              (fst (utcnow (world p)) - grace_period_days (config self) * 86400000000))
    as [H|_]; [lia|].
  reflexivity.
Qed.

(** C1, amended. The grace-period check is the strict comparison of the
    last playback with the cutoff, the clock reading minus the grace
    period, for a timestamp that carries a UTC offset and a cutoff that is
    a [datetime] (a grace period of at most 999999999 days either way, a
    cutoff between year 1 and year 9999): it answers true exactly below the
    cutoff and false at the cutoff itself. Otherwise it raises:
    [ValueError] for a text that is not in ISO format, [OverflowError] for
    a grace period or a cutoff out of range, [TypeError] for a timestamp
    without offset. A movie or an episode is counted eligible exactly when
    the check answers true; when the check raises, the loop body raises
    the same and the statistics are as before; an item without a last
    playback is passed over, the process unchanged and no exception
    raised. *)
Theorem grace_period_is_strict (self : MediaCleanup) (item : JellyfinItem) p :
  let days := grace_period_days (config self) in
  let cutoff := fst (utcnow (world p)) - days * 86400000000 in
  let check text := fst (_is_past_grace_period utcnow self text p) in
  let representable := Z.abs days <= 999999999 /\ 0 <= cutoff <= 315537897599999999 in
  (representable ->
   forall last_played,
     check (Aware last_played) = Return (last_played <? cutoff)
     /\ (check (Aware last_played) = Return true <-> last_played < cutoff))
  /\ (representable -> check (Aware cutoff) = Return false)
  /\ check Malformed = Raise ValueError
  /\ (forall text, text <> Malformed -> ~ representable -> check text = Raise OverflowError)
  /\ (representable -> forall wall, check (Naive wall) = Raise TypeError)
  /\ match LastPlayedDate item with
     | None =>
         cleanup_movie http utcnow self item p = (Return tt, p)
         /\ cleanup_episode http utcnow self item p = (Return tt, p)
     | Some text =>
         movies_eligible (stats (snd (cleanup_movie http utcnow self item p)))
         = movies_eligible (stats p) + (match check text with Return true => 1 | _ => 0 end)
         /\ episodes_eligible (stats (snd (cleanup_episode http utcnow self item p)))
            = episodes_eligible (stats p)
              + (match check text with Return true => 1 | _ => 0 end)
         /\ (forall e, check text = Raise e ->
               fst (cleanup_movie http utcnow self item p) = Raise e
               /\ stats (snd (cleanup_movie http utcnow self item p)) = stats p
               /\ fst (cleanup_episode http utcnow self item p) = Raise e
               /\ stats (snd (cleanup_episode http utcnow self item p)) = stats p)
     end.
Proof.
  intros days cutoff check representable.
  assert (Haware : representable ->
                   forall t, check (Aware t) = Return (t <? cutoff)).
  { intros [Hd Hc] t. apply is_past_grace_period_aware; assumption. }
  split; [|split; [|split; [|split; [|split]]]].
  - intros Hr t. rewrite (Haware Hr). split; [reflexivity|].
    rewrite <- Z.ltb_lt. split; [intros [= ->]; reflexivity | intros ->; reflexivity].
  - intros Hr. rewrite (Haware Hr), Z.ltb_irrefl. reflexivity.
  - unfold check. rewrite is_past_grace_period_unfold. reflexivity.
  - intros text Htext Hr. unfold check. rewrite is_past_grace_period_unfold.
    assert (Hparse : exists lp, fromisoformat text = Return lp).
    { destruct text; [eexists; reflexivity | eexists; reflexivity | contradiction]. }
    destruct Hparse as (lp & ->). cbn [fst]. unfold timedelta. fold days.
    destruct (Z.gtb_spec (Z.abs days) 999999999) as [H|Hd]; [reflexivity|].
    unfold datetime_sub, datetime_min, datetime_max, timedelta_days, microseconds_per_day.
    cbv zeta.
    change (86400 * 1000000) with 86400000000.
    change (3652059 * 86400000000 - 1) with 315537897599999999.
    fold cutoff.
    destruct (Z.ltb_spec cutoff 0) as [H|Hlo]; [reflexivity|].
    destruct (Z.ltb_spec 315537897599999999 cutoff) as [H|Hhi]; [reflexivity|].
    exfalso. apply Hr. unfold representable. lia.
  - intros [Hd [Hlo Hhi]] wall. unfold check. rewrite is_past_grace_period_unfold.
    cbn [fromisoformat fst]. unfold timedelta. fold days.
    destruct (Z.gtb_spec (Z.abs days) 999999999) as [H|_]; [lia|].
    unfold datetime_sub, datetime_min, datetime_max, timedelta_days, microseconds_per_day.
    cbv zeta.
    change (86400 * 1000000) with 86400000000.
    change (3652059 * 86400000000 - 1) with 315537897599999999.
    fold cutoff.
    destruct (Z.ltb_spec cutoff 0) as [H|_]; [lia|].
    destruct (Z.ltb_spec 315537897599999999 cutoff) as [H|_]; [lia|].
    reflexivity.
  - destruct (LastPlayedDate item) as [text|] eqn:Hlp.
    + destruct (cleanup_movie_verdict self item p) as (_ & v & Hst & Hfit & _).
      destruct (cleanup_episode_verdict self item p) as (_ & v' & Hst' & Hfit' & _).
      unfold grace_check in Hfit, Hfit'. rewrite Hlp in Hfit, Hfit'. fold (check text) in *.
      split; [|split].
      * rewrite Hst, movies_eligible_verdict.
        now rewrite (verdict_fits_eligible _ _ _ Hfit).
      * rewrite Hst', episodes_eligible_verdict.
        now rewrite (verdict_fits_eligible _ _ _ Hfit').
      * intros e He. rewrite He in Hfit, Hfit'.
        apply verdict_fits_unchecked in Hfit as [-> Ho].
        apply verdict_fits_unchecked in Hfit' as [-> Ho'].
        rewrite Hst, Hst'. auto.
    + unfold cleanup_movie, cleanup_episode. rewrite Hlp. split; reflexivity.
Qed.

End Verdicts.

Lemma grace_period_is_strict_witness :
  let self := Scenario.cleanup false None in
  let p := Scenario.start Scenario.quiet in
  let check text := fst (_is_past_grace_period Scenario.utcnow self text p) in
  check (Aware (95 * microseconds_per_day)) = Return false
  /\ check (Aware (95 * microseconds_per_day - 1)) = Return true
  /\ check (Naive (1 * microseconds_per_day)) = Raise TypeError
  /\ movies_eligible
       (stats (snd (cleanup_movie Scenario.http Scenario.utcnow self
                      (Scenario.watched ("/media/movies/" ++ Scenario.the_matrix) 1 None) p)))
     = 1.
Proof.
  cbv zeta.
  destruct (grace_period_is_strict Scenario.http Scenario.utcnow
              (Scenario.cleanup false None)
              (Scenario.watched ("/media/movies/" ++ Scenario.the_matrix) 1 None)
              (Scenario.start Scenario.quiet))
    as (Hlt & Hat & _ & _ & Hnaive & Hitem).
  assert (Hrep : Z.abs 5 <= 999999999
                 /\ 0 <= 100 * 86400000000 - 5 * 86400000000 <= 315537897599999999) by lia.
  split; [exact (Hat Hrep)|].
  split; [exact (proj1 (Hlt Hrep (95 * microseconds_per_day - 1)))|].
  split; [exact (Hnaive Hrep (1 * microseconds_per_day))|].
  exact (proj1 Hitem).
Defined.

(** C1, as stated, fails: eligibility is not the comparison alone. A movie
    whose last playback is written without a UTC offset, 94 days before the
    cutoff on the face of it, is not counted eligible: the check raises
    [TypeError] and so does the loop body. With a grace period of 1000000
    days, on 1 January 2026, the cutoff falls before year 1 and the check
    raises [OverflowError] for a movie played the day before; and a text
    that is not in ISO format makes it raise [ValueError]. *)
Theorem grace_check_is_not_the_comparison_alone :
  let self := Scenario.cleanup false None in
  let p := Scenario.start Scenario.quiet in
  let played := 1 * microseconds_per_day in
  let movie := {| Name := "Heat"; Path := Some "/media/movies/Heat (1995)/Heat (1995).mkv";
                  LastPlayedDate := Some (Naive played);
                  Tmdb := None; SeriesName := None |} in
  let patient := {| config := {| grace_period_days := 1000000; dry_run := false;
                                 keep_tag_label := "keep"; primary_user_name := "admin" |};
                    primary_user_id := "u1";
                    radarr_keep_tag_id := None; sonarr_keep_tag_id := None |} in
  let today := Scenario.start Scenario.new_year_2026 in
  (played < cutoff_date Scenario.utcnow self p
   /\ fst (_is_past_grace_period Scenario.utcnow self (Naive played) p) = Raise TypeError
   /\ fst (cleanup_movie Scenario.http Scenario.utcnow self movie p) = Raise TypeError
   /\ movies_eligible
        (stats (snd (cleanup_movie Scenario.http Scenario.utcnow self movie p))) = 0)
  /\ (cutoff_date Scenario.utcnow patient today < 0
      /\ fst (_is_past_grace_period Scenario.utcnow patient
                (Aware (739615 * microseconds_per_day)) today) = Raise OverflowError)
  /\ fst (_is_past_grace_period Scenario.utcnow self Malformed p) = Raise ValueError.
Proof. cbv zeta. repeat split; vm_compute; reflexivity. Qed.

(** ** What a computation sends *)

Section Sent.

Context {World : Type}.
Variable http : forall r : request, World -> outcome (reply r) * World.
Variable utcnow : World -> Z * World.
Variable P : list call -> option exn -> Prop.
Variable dry : bool.

Hypothesis P_nil : P [] None.
Hypothesis P_app : forall a b o, P a None -> P b o -> P (a ++ b)%list o.
Hypothesis P_internal : forall e, internal e -> P [] (Some e).
Hypothesis P_send : forall r (o : outcome (reply r)),
    (mutating r && dry)%bool = false -> P [call_of r o] (error_of o).

Lemma T_sent_ok : composes (@T_sent World P).
Proof.
  split.
  - intros p. exists []. rewrite app_nil_r. auto.
  - intros p p1 o p2 (n1 & H1 & Hp1) (n2 & H2 & Hp2).
    exists (n1 ++ n2)%list. rewrite H2, H1, app_assoc. auto.
  - intros p e He. exists []. rewrite app_nil_r. auto.
Qed.

Lemma sent_silent {A} (m : M World A) : silent m -> obeys (T_sent P) m.
Proof.
  intros Hm p. destruct (Hm p) as [Hc He]. exists []. rewrite app_nil_r. split; [exact Hc|].
  destruct (fst (m p)) as [a|e]; simpl; [exact P_nil | apply P_internal, He; reflexivity].
Qed.

Lemma silent_now : silent (now utcnow).
Proof.
  intros p. unfold now. destruct (utcnow (world p)); simpl. split; [reflexivity | discriminate].
Qed.

Lemma silent_modify_mapper f : silent (@modify_mapper World f).
Proof. intros p. split; [reflexivity | discriminate]. Qed.

Lemma silent_modify_stats f : silent (@modify_stats World f).
Proof. intros p. split; [reflexivity | discriminate]. Qed.

Lemma silent_print_summary : silent (@print_summary World).
Proof. intros p. split; [reflexivity | discriminate]. Qed.

Lemma sent_send (r : request) :
  (mutating r && dry)%bool = false -> obeys (T_sent P) (send http r).
Proof.
  intros Hr p. unfold send. destruct (http r (world p)) as [o w]; simpl.
  exists [call_of r o]. split; [reflexivity | apply P_send, Hr].
Qed.

Lemma sent_send_real (r : request) : dry = false -> obeys (T_sent P) (send http r).
Proof. intros Hd. apply sent_send. rewrite Hd. apply andb_false_r. Qed.

Hint Resolve sent_send : proc.
Hint Extern 1 (obeys (T_sent _) (now _)) => apply sent_silent, silent_now : proc.
Hint Extern 1 (obeys (T_sent _) (modify_mapper _)) =>
  apply sent_silent, silent_modify_mapper : proc.
Hint Extern 1 (obeys (T_sent _) (modify_stats _)) =>
  apply sent_silent, silent_modify_stats : proc.
Hint Extern 1 (obeys (T_sent _) (incr _)) =>
  apply sent_silent, silent_modify_stats : proc.

Lemma sent_get_all_radarr_movies : obeys (T_sent P) (_get_all_radarr_movies http).
Proof. unfold _get_all_radarr_movies. obeys_auto T_sent_ok. Qed.

Lemma sent_get_all_sonarr_series : obeys (T_sent P) (_get_all_sonarr_series http).
Proof. unfold _get_all_sonarr_series. obeys_auto T_sent_ok. Qed.

Lemma sent_get_sonarr_episodes sid : obeys (T_sent P) (_get_sonarr_episodes http sid).
Proof. unfold _get_sonarr_episodes. obeys_auto T_sent_ok. Qed.

Hint Resolve sent_get_all_radarr_movies sent_get_all_sonarr_series
  sent_get_sonarr_episodes : proc.

Lemma sent_find_radarr_movie_by_path path :
  obeys (T_sent P) (find_radarr_movie_by_path http path).
Proof. unfold find_radarr_movie_by_path. obeys_auto T_sent_ok. Qed.

Lemma sent_find_radarr_movie_by_tmdb t :
  obeys (T_sent P) (find_radarr_movie_by_tmdb http t).
Proof. unfold find_radarr_movie_by_tmdb. obeys_auto T_sent_ok. Qed.

Hint Resolve sent_find_radarr_movie_by_path sent_find_radarr_movie_by_tmdb : proc.

Lemma sent_resolve_radarr_movie path t :
  obeys (T_sent P) (resolve_radarr_movie http path t).
Proof. unfold resolve_radarr_movie. obeys_auto T_sent_ok. Qed.

Lemma sent_delete_radarr_movie i : obeys (T_sent P) (delete_radarr_movie http i dry).
Proof.
  unfold delete_radarr_movie.
  destruct (Bool.bool_dec dry true) as [Hd|Hd].
  - rewrite Hd. apply (obeys_ret _ T_sent_ok).
  - apply not_true_is_false in Hd. rewrite Hd.
    pose proof (fun r => sent_send_real r Hd). obeys_auto T_sent_ok.
Qed.

Lemma sent_scan_series sp jn sids : obeys (T_sent P) (scan_series http sp jn sids).
Proof.
  induction sids as [|sid r IH]; cbn [scan_series]; obeys_auto T_sent_ok.
Qed.

Hint Resolve sent_scan_series : proc.

Lemma sent_find_sonarr_episode_by_path path sid :
  obeys (T_sent P) (find_sonarr_episode_by_path http path sid).
Proof. unfold find_sonarr_episode_by_path. obeys_auto T_sent_ok. Qed.

Lemma sent_delete_sonarr_episode_file i :
  obeys (T_sent P) (delete_sonarr_episode_file http i dry).
Proof.
  unfold delete_sonarr_episode_file.
  destruct (Bool.bool_dec dry true) as [Hd|Hd].
  - rewrite Hd. apply (obeys_ret _ T_sent_ok).
  - apply not_true_is_false in Hd. rewrite Hd.
    pose proof (fun r => sent_send_real r Hd). obeys_auto T_sent_ok.
Qed.

Hint Resolve sent_resolve_radarr_movie sent_delete_radarr_movie
  sent_find_sonarr_episode_by_path sent_delete_sonarr_episode_file : proc.

Lemma sent_is_past_grace_period self t :
  obeys (T_sent P) (_is_past_grace_period utcnow self t).
Proof. unfold _is_past_grace_period. obeys_auto T_sent_ok. Qed.

Hint Resolve sent_is_past_grace_period : proc.

Lemma sent_cleanup_movie self movie :
  dry_run (config self) = dry -> obeys (T_sent P) (cleanup_movie http utcnow self movie).
Proof. intros Hd. unfold cleanup_movie. rewrite Hd. obeys_auto T_sent_ok. Qed.

Lemma sent_cleanup_episode self episode :
  dry_run (config self) = dry -> obeys (T_sent P) (cleanup_episode http utcnow self episode).
Proof. intros Hd. unfold cleanup_episode. rewrite Hd. obeys_auto T_sent_ok. Qed.

Lemma sent_get_jellyfin_watched_movies uid :
  obeys (T_sent P) (get_jellyfin_watched_movies http uid).
Proof. exact (sent_send (GET_jellyfin_Items_Movie uid) eq_refl). Qed.

Lemma sent_get_jellyfin_watched_episodes uid :
  obeys (T_sent P) (get_jellyfin_watched_episodes http uid).
Proof. exact (sent_send (GET_jellyfin_Items_Episode uid) eq_refl). Qed.

Hint Resolve sent_get_jellyfin_watched_movies sent_get_jellyfin_watched_episodes : proc.

Lemma sent_cleanup_movies self :
  dry_run (config self) = dry -> obeys (T_sent P) (cleanup_movies http utcnow self).
Proof.
  intros Hd. unfold cleanup_movies.
  pose proof (fun m => sent_cleanup_movie self m Hd).
  obeys_auto T_sent_ok.
Qed.

Lemma sent_cleanup_episodes self :
  dry_run (config self) = dry -> obeys (T_sent P) (cleanup_episodes http utcnow self).
Proof.
  intros Hd. unfold cleanup_episodes.
  pose proof (fun m => sent_cleanup_episode self m Hd).
  obeys_auto T_sent_ok.
Qed.

(** The summary is printed on the way out, whatever happened. *)
Lemma sent_try_finally_summary {A} (body : M World A) :
  obeys (T_sent P) body -> obeys (T_sent P) (try_finally body print_summary).
Proof.
  intros H p. specialize (H p). unfold try_finally, print_summary.
  destruct (body p) as [o p1]; simpl in *. exact H.
Qed.

Lemma sent_run self :
  dry_run (config self) = dry -> obeys (T_sent P) (run http utcnow self).
Proof.
  intros Hd. unfold run.
  apply (obeys_bind _ T_sent_ok); [|intros _; apply (obeys_get_stats _ T_sent_ok)].
  apply sent_try_finally_summary.
  apply (obeys_bind _ T_sent_ok); [apply sent_cleanup_movies, Hd|].
  intros _. apply sent_cleanup_episodes, Hd.
Qed.

End Sent.

(** ** Failures and the record of calls *)

Section Failures.

Context {World : Type}.
Variable http : forall r : request, World -> outcome (reply r) * World.
Variable utcnow : World -> Z * World.
Implicit Types p : Proc World.

Lemma failure_is_last_app a b o :
  failure_is_last a None -> failure_is_last b o -> failure_is_last (a ++ b) o.
Proof.
  unfold failure_is_last. intros Ha Hb. destruct o as [e|].
  - destruct Hb as [[Hi Hb]|(pre & c & -> & Hpre & Hc)].
    + left. split; [exact Hi | apply Forall_app; split; assumption].
    + right. exists (a ++ pre)%list, c. rewrite app_assoc.
      repeat split; [apply Forall_app; split; assumption | exact Hc].
  - apply Forall_app; split; assumption.
Qed.

Lemma failure_is_last_send r (o : outcome (reply r)) :
  failure_is_last [call_of r o] (error_of o).
Proof.
  destruct o as [a|e]; simpl.
  - repeat constructor.
  - right. exists [], (call_of r (Raise e)). repeat split. constructor.
Qed.

(** In every run: a call that raised is the last call of the run, and the
    run raises what that call raised. *)
Lemma run_failure_is_last self :
  obeys (T_sent failure_is_last) (run http utcnow self).
Proof.
  apply (sent_run http utcnow failure_is_last (dry_run (config self))).
  - constructor.
  - exact failure_is_last_app.
  - intros e He. left. split; [exact He | constructor].
  - intros r o _. apply failure_is_last_send.
  - reflexivity.
Qed.

Lemma failure_is_last_inv new o c e :
  failure_is_last new o -> In c new -> call_error c = Some e ->
  o = Some e /\ exists pre, new = (pre ++ [c])%list /\ Forall succeeded pre.
Proof.
  intros H Hin Hc.
  assert (Hclean : Forall succeeded new -> False).
  { intros HF. rewrite Forall_forall in HF. specialize (HF c Hin).
    unfold succeeded in HF. congruence. }
  destruct o as [e'|]; cbn [failure_is_last] in H; [|contradiction].
  destruct H as [[_ HF]|(pre & c' & -> & Hpre & Hc')]; [contradiction|].
  apply in_app_or in Hin as [Hin|[<-|[]]].
  - rewrite Forall_forall in Hpre. specialize (Hpre c Hin).
    unfold succeeded in Hpre. congruence.
  - split; [congruence | exists pre; split; [reflexivity | exact Hpre]].
Qed.

Lemma scan_movies_by_path_none rp jn cache :
  no_path_match rp jn cache -> scan_movies_by_path rp jn cache = Return None.
Proof.
  induction cache as [|[k m] r IH]; intros H; [reflexivity|].
  cbn [scan_movies_by_path].
  assert (Hr : no_path_match rp jn r).
  { intros k' m' Hin. apply (H k' m'). right. exact Hin. }
  destruct (hasFile m) eqn:Hf; cbn [negb]; [|apply IH, Hr].
  destruct (H k m (or_introl eq_refl) Hf) as (f & -> & Hne).
  destruct (String.eqb_spec jn (_normalize_path f rp)) as [->|_];
    [contradiction | apply IH, Hr].
Qed.

Lemma scan_movies_by_tmdb_none t cache :
  no_tmdb_match t cache -> scan_movies_by_tmdb t cache = None.
Proof.
  induction cache as [|[k m] r IH]; intros H; [reflexivity|].
  cbn [scan_movies_by_tmdb].
  destruct (String.eqb_spec (str_of_tmdbId (tmdbId m)) t) as [E|_].
  - destruct (H k m (or_introl eq_refl) E).
  - apply IH. intros k' m' Hin. apply (H k' m'). right. exact Hin.
Qed.

(** A path that matches nothing in the cached catalog: [None], nothing
    sent, nothing changed. *)
Lemma find_radarr_movie_by_path_not_found path cache p :
  _movies_cache (mapper p) = Some cache ->
  no_path_match (radarr_prefix (mapper p))
                (_normalize_path path (jellyfin_movie_prefix (mapper p))) cache ->
  find_radarr_movie_by_path http path p = (Return None, p).
Proof.
  intros Hc Hn. unfold find_radarr_movie_by_path, _get_all_radarr_movies, bind, get_mapper, ret.
  rewrite Hc. cbn. now rewrite (scan_movies_by_path_none _ _ _ Hn).
Qed.

Lemma find_radarr_movie_by_tmdb_not_found t cache p :
  _movies_cache (mapper p) = Some cache ->
  no_tmdb_match t cache ->
  find_radarr_movie_by_tmdb http t p = (Return None, p).
Proof.
  intros Hc Hn. unfold find_radarr_movie_by_tmdb, _get_all_radarr_movies, bind, get_mapper, ret.
  rewrite Hc. cbn. now rewrite (scan_movies_by_tmdb_none _ _ Hn).
Qed.

End Failures.

(** ** The summary on the way out *)

Section Summary.

Context {World : Type}.
Variable http : forall r : request, World -> outcome (reply r) * World.
Variable utcnow : World -> Z * World.
Implicit Types p : Proc World.

Lemma obeys_weaken {A} (T T' : Proc World -> option exn -> Proc World -> Prop)
      (m : M World A) :
  (forall p o p', T p o p' -> T' p o p') -> obeys T m -> obeys T' m.
Proof. intros HT Hm p. apply HT, Hm. Qed.

Lemma T_summaries_ok : composes (@T_summaries World).
Proof.
  split; unfold T_summaries; try reflexivity.
  intros p p1 o p2 H1 H2. congruence.
Qed.

Lemma summaries_of_frame {A} (m : M World A) : obeys T_frame m -> obeys T_summaries m.
Proof. apply obeys_weaken. intros p o p' [_ H]. exact H. Qed.

Lemma summaries_modify_stats f : obeys T_summaries (@modify_stats World f).
Proof. intros p. reflexivity. Qed.

Lemma summaries_cleanup_movie self movie :
  obeys T_summaries (cleanup_movie http utcnow self movie).
Proof. intros p. apply (cleanup_movie_verdict http utcnow self movie p). Qed.

Lemma summaries_cleanup_episode self episode :
  obeys T_summaries (cleanup_episode http utcnow self episode).
Proof. intros p. apply (cleanup_episode_verdict http utcnow self episode p). Qed.

Hint Resolve summaries_modify_stats summaries_cleanup_movie summaries_cleanup_episode : proc.
Hint Extern 4 (obeys T_summaries _) => apply summaries_of_frame; solve [auto with proc] : proc.

Lemma summaries_phases self :
  obeys T_summaries
        (bind (cleanup_movies http utcnow self) (fun _ => cleanup_episodes http utcnow self)).
Proof.
  unfold cleanup_movies, cleanup_episodes.
  obeys_auto (@T_summaries_ok).
Qed.

(** Whatever the two phases did, [run] reports the statistics once, as they
    stand when the phases are over or cut short. *)
(** [run], in terms of what its two phases did. *)
Lemma run_unfold self p :
  run http utcnow self p =
  let (o, p1) := bind (cleanup_movies http utcnow self)
                      (fun _ => cleanup_episodes http utcnow self) p in
  let p2 := {| mapper := mapper p1; stats := stats p1; world := world p1;
               calls := calls p1; summaries := (summaries p1 ++ [stats p1])%list |} in
  match o with
  | Return _ => (Return (stats p1), p2)
  | Raise e => (Raise e, p2)
  end.
Proof.
  unfold run.
  set (body := bind (cleanup_movies http utcnow self)
                    (fun _ => cleanup_episodes http utcnow self)).
  unfold bind, try_finally, print_summary, get_stats.
  destruct (body p) as [[[]|e] p1]; reflexivity.
Qed.

Lemma run_reports_once self p :
  summaries (snd (run http utcnow self p))
  = (summaries p ++ [stats (snd (run http utcnow self p))])%list.
Proof.
  pose proof (summaries_phases self p) as H. unfold T_summaries in H.
  rewrite run_unfold.
  destruct (bind (cleanup_movies http utcnow self)
              (fun _ => cleanup_episodes http utcnow self) p) as [[[]|e] p1];
    simpl in *; now rewrite H.
Qed.

End Summary.

(** ** Dictionaries *)

Section DictFacts.

Context {V : Type}.

Lemma dict_get_set_Z (k k' : Z) (v : V) (d : dict Z V) :
  dict_get Z.eqb k (dict_set Z.eqb k' v d)
  = if Z.eqb k k' then Some v else dict_get Z.eqb k d.
Proof.
  induction d as [|[k0 v0] r IH]; cbn [dict_set dict_get]; [reflexivity|].
  destruct (Z.eqb_spec k' k0) as [->|Hne]; cbn [dict_get].
  - destruct (Z.eqb k k0); reflexivity.
  - rewrite IH. destruct (Z.eqb_spec k k0) as [->|_]; [|reflexivity].
    destruct (Z.eqb_spec k0 k') as [E|_]; [congruence | reflexivity].
Qed.

Lemma dict_get_set_string (k k' : string) (v : V) (d : dict string V) :
  dict_get String.eqb k (dict_set String.eqb k' v d)
  = if String.eqb k k' then Some v else dict_get String.eqb k d.
Proof.
  induction d as [|[k0 v0] r IH]; cbn [dict_set dict_get]; [reflexivity|].
  destruct (String.eqb_spec k' k0) as [->|Hne]; cbn [dict_get].
  - destruct (String.eqb k k0); reflexivity.
  - rewrite IH. destruct (String.eqb_spec k k0) as [->|_]; [|reflexivity].
    destruct (String.eqb_spec k0 k') as [E|_]; [congruence | reflexivity].
Qed.

Lemma dict_mem_set_Z (k k' : Z) (v : V) (d : dict Z V) :
  dict_mem Z.eqb k (dict_set Z.eqb k' v d) = (Z.eqb k k' || dict_mem Z.eqb k d)%bool.
Proof. unfold dict_mem. rewrite dict_get_set_Z. destruct (Z.eqb k k'); reflexivity. Qed.

Lemma dict_mem_set_string (k k' : string) (v : V) (d : dict string V) :
  dict_mem String.eqb k (dict_set String.eqb k' v d)
  = (String.eqb k k' || dict_mem String.eqb k d)%bool.
Proof. unfold dict_mem. rewrite dict_get_set_string. destruct (String.eqb k k'); reflexivity. Qed.

Lemma dict_mem_None {K} (eqb : K -> K -> bool) (k : K) (d : dict K V) :
  dict_get eqb k d = None -> dict_mem eqb k d = false.
Proof. unfold dict_mem. now intros ->. Qed.

Lemma dict_keys_set (k : Z) (v : V) (d : dict Z V) :
  dict_keys (dict_set Z.eqb k v d)
  = if dict_mem Z.eqb k d then dict_keys d else (dict_keys d ++ [k])%list.
Proof.
  unfold dict_mem, dict_keys.
  induction d as [|[k0 v0] r IH]; cbn [dict_set dict_get map]; [reflexivity|].
  destruct (Z.eqb k k0); cbn [map fst]; [reflexivity|].
  rewrite IH. destruct (dict_get Z.eqb k r); reflexivity.
Qed.

Lemma dict_mem_In (k : Z) (d : dict Z V) :
  dict_mem Z.eqb k d = true <-> In k (dict_keys d).
Proof.
  unfold dict_mem, dict_keys.
  induction d as [|[k0 v0] r IH]; cbn [dict_get map In fst]; [split; [discriminate | tauto]|].
  destruct (Z.eqb_spec k k0) as [->|Hne].
  - split; auto.
  - rewrite IH. split; [auto | intros [E|H]; [congruence | exact H]].
Qed.

(** Keys stay distinct under assignment, so a dictionary built by a
    comprehension has distinct keys. *)
Lemma dict_set_NoDup (k : Z) (v : V) (d : dict Z V) :
  NoDup (dict_keys d) -> NoDup (dict_keys (dict_set Z.eqb k v d)).
Proof.
  intros H. rewrite dict_keys_set.
  destruct (dict_mem Z.eqb k d) eqn:E; [exact H|].
  apply NoDup_app; repeat split; [exact H | repeat constructor; intros [] | ].
  intros x Hx [<-|[]]. apply dict_mem_In in Hx. congruence.
Qed.

Lemma dict_of_NoDup {A} (key : A -> Z) (val : A -> V) (l : list A) :
  NoDup (dict_keys (dict_of Z.eqb key val l)).
Proof.
  unfold dict_of.
  assert (H : forall acc, NoDup (dict_keys acc) ->
                          NoDup (dict_keys (fold_left
                                   (fun d x => dict_set Z.eqb (key x) (val x) d) l acc))).
  { induction l as [|x r IH]; intros acc Hacc; cbn [fold_left]; [exact Hacc|].
    apply IH, dict_set_NoDup, Hacc. }
  apply H. constructor.
Qed.

(** With distinct keys, [del d[i]] leaves every other entry, in order. *)
Lemma dict_del_without (i : Z) (d : dict Z V) :
  NoDup (dict_keys d) -> dict_del Z.eqb i d = without i d.
Proof.
  unfold without, dict_keys.
  induction d as [|[k0 v0] r IH]; cbn [dict_del filter map fst]; [reflexivity|].
  intros H. inversion H as [|? ? Hnin Hr]; subst.
  destruct (Z.eqb_spec i k0) as [->|Hne].
  - rewrite Z.eqb_refl. cbn [negb].
    symmetry. apply forallb_filter_id. apply forallb_forall.
    intros [k v] Hin. cbn [fst]. destruct (Z.eqb_spec k k0) as [->|_]; [|reflexivity].
    exfalso. apply Hnin. change k0 with (fst (k0, v)). apply in_map, Hin.
  - destruct (Z.eqb_spec k0 i) as [E|_]; [congruence|]. cbn [negb].
    now rewrite (IH Hr).
Qed.

Lemma dict_get_without (i k : Z) (d : dict Z V) :
  dict_get Z.eqb k (without i d) = if Z.eqb k i then None else dict_get Z.eqb k d.
Proof.
  unfold without.
  induction d as [|[k0 v0] r IH]; cbn [filter dict_get fst].
  - destruct (Z.eqb k i); reflexivity.
  - destruct (Z.eqb_spec k0 i) as [->|Hne]; cbn [negb dict_get].
    + rewrite IH. destruct (Z.eqb k i); reflexivity.
    + rewrite IH. destruct (Z.eqb_spec k k0) as [->|_]; [|reflexivity].
      destruct (Z.eqb_spec k0 i) as [E|_]; [congruence | reflexivity].
Qed.

Lemma dict_set_new (k : Z) (v : V) (d : dict Z V) :
  ~ In k (dict_keys d) -> dict_set Z.eqb k v d = (d ++ [(k, v)])%list.
Proof.
  unfold dict_keys.
  induction d as [|[k0 v0] r IH]; cbn [dict_set map fst In app]; [reflexivity|].
  intros H. destruct (Z.eqb_spec k k0) as [->|_]; [exfalso; apply H; auto|].
  rewrite IH; [reflexivity|]. intros Hin. apply H. auto.
Qed.

(** A comprehension over a list with distinct keys keeps the list, in its
    order. *)
Lemma dict_of_distinct {A} (key : A -> Z) (val : A -> V) (l : list A) :
  NoDup (map key l) -> dict_of Z.eqb key val l = map (fun x => (key x, val x)) l.
Proof.
  unfold dict_of.
  assert (H : forall acc, NoDup (dict_keys acc ++ map key l) ->
                fold_left (fun d x => dict_set Z.eqb (key x) (val x) d) l acc
                = (acc ++ map (fun x => (key x, val x)) l)%list).
  { induction l as [|x r IH]; intros acc Hnd; cbn [fold_left map];
      [now rewrite app_nil_r|].
    cbn [map] in Hnd. rewrite dict_set_new.
    - rewrite IH; [now rewrite <- app_assoc|].
      unfold dict_keys. rewrite map_app. cbn [map fst]. rewrite <- app_assoc. exact Hnd.
    - intros Hin. apply NoDup_remove_2 in Hnd. apply Hnd. apply in_or_app. left. exact Hin. }
  intros Hnd. apply (H [] Hnd).
Qed.

Lemma find_snoc {A} (f : A -> bool) (l : list A) (x : A) :
  find f (l ++ [x])
  = match find f l with
    | Some y => Some y
    | None => if f x then Some x else None
    end.
Proof.
  induction l as [|a r IH]; cbn [app find]; [reflexivity|]. destruct (f a); auto.
Qed.

(** In a comprehension the last element with a given key is the one that
    stays. *)
Lemma dict_of_get {A} (key : A -> Z) (val : A -> V) (l : list A) (k : Z) :
  dict_get Z.eqb k (dict_of Z.eqb key val l)
  = option_map val (find (fun x => Z.eqb (key x) k) (rev l)).
Proof.
  unfold dict_of.
  assert (H : forall acc,
             dict_get Z.eqb k (fold_left (fun d x => dict_set Z.eqb (key x) (val x) d) l acc)
             = match find (fun x => Z.eqb (key x) k) (rev l) with
               | Some x => Some (val x)
               | None => dict_get Z.eqb k acc
               end).
  { induction l as [|x r IH]; intros acc; cbn [fold_left rev find]; [reflexivity|].
    rewrite IH, find_snoc. destruct (find _ (rev r)); [reflexivity|].
    rewrite dict_get_set_Z, (Z.eqb_sym k). destruct (key x =? k); reflexivity. }
  rewrite H. destruct (find _ (rev l)); reflexivity.
Qed.

Lemma In_dict_get (k : Z) (v : V) (d : dict Z V) :
  NoDup (dict_keys d) -> In (k, v) d -> dict_get Z.eqb k d = Some v.
Proof.
  unfold dict_keys.
  induction d as [|[k0 v0] r IH]; cbn [map fst In dict_get]; [intros _ []|].
  intros Hnd [E|Hin].
  - injection E as -> ->. now rewrite Z.eqb_refl.
  - inversion Hnd as [|? ? Hnin Hr]; subst.
    destruct (Z.eqb_spec k k0) as [->|_]; [|exact (IH Hr Hin)].
    exfalso. apply Hnin. change k0 with (fst (k0, v)). apply in_map, Hin.
Qed.

End DictFacts.

Section NotFound.

Context {World : Type}.
Variable http : forall r : request, World -> outcome (reply r) * World.
Variable utcnow : World -> Z * World.
Implicit Types p : Proc World.

(** What [_get_all_radarr_movies] hands back is what the cache holds
    afterwards; the prefixes are not touched. *)
Lemma get_all_radarr_movies_cached p c :
  fst (_get_all_radarr_movies http p) = Return c ->
  _movies_cache (mapper (snd (_get_all_radarr_movies http p))) = Some c
  /\ radarr_prefix (mapper (snd (_get_all_radarr_movies http p))) = radarr_prefix (mapper p)
  /\ jellyfin_movie_prefix (mapper (snd (_get_all_radarr_movies http p)))
     = jellyfin_movie_prefix (mapper p).
Proof.
  unfold _get_all_radarr_movies, bind, get_mapper, send, modify_mapper, ret.
  destruct (_movies_cache (mapper p)) as [c0|] eqn:E.
  - cbn. intros [= <-]. auto.
  - destruct (http GET_radarr_movie (world p)) as [[l|e] w]; cbn; [|discriminate].
    intros [= <-]. auto.
Qed.

(** A cached catalog is handed back as it is. *)
Lemma get_all_radarr_movies_again p c :
  _movies_cache (mapper p) = Some c -> _get_all_radarr_movies http p = (Return c, p).
Proof.
  intros H. unfold _get_all_radarr_movies, bind, get_mapper, ret. now rewrite H.
Qed.

(** A catalog that could not be fetched is not cached. *)
Lemma get_all_radarr_movies_raises p e :
  fst (_get_all_radarr_movies http p) = Raise e ->
  _movies_cache (mapper p) = None
  /\ fst (http GET_radarr_movie (world p)) = Raise e.
Proof.
  unfold _get_all_radarr_movies, bind, get_mapper, send, modify_mapper, ret.
  destruct (_movies_cache (mapper p)) as [c0|] eqn:E; [discriminate|].
  destruct (http GET_radarr_movie (world p)) as [[l|e0] w]; cbn; [discriminate|].
  intros [= <-]. auto.
Qed.

(** The resolution works on the catalog that [_get_all_radarr_movies] hands
    back, cached before or fetched now, and does nothing else. *)
Lemma resolve_radarr_movie_at path tmdb cache p :
  fst (_get_all_radarr_movies http p) = Return cache ->
  resolve_radarr_movie http path tmdb p
  = (chain_on (mapper p) cache path tmdb, snd (_get_all_radarr_movies http p)).
Proof.
  intros H.
  destruct (get_all_radarr_movies_cached p cache H) as (Hc & Hr & Hj).
  pose proof (get_all_radarr_movies_again _ _ Hc) as Hagain.
  unfold resolve_radarr_movie, find_radarr_movie_by_path, find_radarr_movie_by_tmdb, chain_on.
  unfold bind at 1. unfold bind at 1.
  destruct (_get_all_radarr_movies http p) as [o p1]. cbn [fst snd] in *. subst o.
  unfold bind at 1. unfold get_mapper at 1, lift. rewrite Hr, Hj.
  destruct (scan_movies_by_path _ _ cache) as [r|e]; [|reflexivity].
  destruct (negb (truthy_id r)); [|reflexivity].
  destruct (truthy_str tmdb); [|reflexivity].
  unfold bind. rewrite Hagain. reflexivity.
Qed.

(** The resolution raises what the fetch of the catalog raised. *)
Lemma resolve_radarr_movie_fetch_raises path tmdb e p :
  fst (_get_all_radarr_movies http p) = Raise e ->
  fst (resolve_radarr_movie http path tmdb p) = Raise e.
Proof.
  intros H.
  unfold resolve_radarr_movie, find_radarr_movie_by_path.
  unfold bind at 1. unfold bind at 1.
  destruct (_get_all_radarr_movies http p) as [o p1]. cbn [fst] in H. subst o. reflexivity.
Qed.

(** Neither matcher finds the movie in the catalog: [None], and nothing is
    done beyond the fetch of a catalog that was not cached. *)
Lemma resolve_radarr_movie_not_found path tmdb cache p :
  fst (_get_all_radarr_movies http p) = Return cache ->
  no_path_match (radarr_prefix (mapper p))
                (_normalize_path path (jellyfin_movie_prefix (mapper p))) cache ->
  truthy_str tmdb = false \/ no_tmdb_match (or_default tmdb "") cache ->
  resolve_radarr_movie http path tmdb p = (Return None, snd (_get_all_radarr_movies http p)).
Proof.
  intros Hc Hn Ht. rewrite (resolve_radarr_movie_at _ _ _ _ Hc). f_equal.
  unfold chain_on. rewrite (scan_movies_by_path_none _ _ _ Hn). cbn [truthy_id negb].
  destruct (truthy_str tmdb) eqn:E; [|reflexivity].
  destruct Ht as [Ht|Ht]; [discriminate|].
  now rewrite (scan_movies_by_tmdb_none _ _ Ht).
Qed.

(** The matcher by path alone, in the same generality. *)
Lemma find_radarr_movie_by_path_no_match path cache p :
  fst (_get_all_radarr_movies http p) = Return cache ->
  no_path_match (radarr_prefix (mapper p))
                (_normalize_path path (jellyfin_movie_prefix (mapper p))) cache ->
  find_radarr_movie_by_path http path p = (Return None, snd (_get_all_radarr_movies http p)).
Proof.
  intros H Hn.
  destruct (get_all_radarr_movies_cached p cache H) as (Hc & Hr & Hj).
  unfold find_radarr_movie_by_path. unfold bind at 1.
  destruct (_get_all_radarr_movies http p) as [o p1]. cbn [fst snd] in *. subst o.
  unfold bind, get_mapper, lift. rewrite Hr, Hj.
  now rewrite (scan_movies_by_path_none _ _ _ Hn).
Qed.

Lemma find_radarr_movie_by_tmdb_no_match t cache p :
  fst (_get_all_radarr_movies http p) = Return cache ->
  no_tmdb_match t cache ->
  find_radarr_movie_by_tmdb http t p = (Return None, snd (_get_all_radarr_movies http p)).
Proof.
  intros H Hn.
  unfold find_radarr_movie_by_tmdb. unfold bind at 1.
  destruct (_get_all_radarr_movies http p) as [o p1]. cbn [fst snd] in *. subst o.
  unfold ret. now rewrite (scan_movies_by_tmdb_none _ _ Hn).
Qed.

Lemma scan_episodes_by_path_none sp jn episodes :
  no_episode_match sp jn episodes -> scan_episodes_by_path sp jn episodes = Return None.
Proof.
  induction episodes as [|e r IH]; intros H; [reflexivity|].
  cbn [scan_episodes_by_path].
  assert (Hr : no_episode_match sp jn r).
  { intros e' Hin. apply (H e'). right. exact Hin. }
  destruct (ep_hasFile e) eqn:Hf; cbn [negb]; [|apply IH, Hr].
  destruct (H e (or_introl eq_refl) Hf) as (f & -> & Hne).
  destruct (String.eqb_spec jn (_normalize_path f sp)) as [->|_];
    [contradiction | apply IH, Hr].
Qed.

Lemma scan_series_not_found sp jn sids p :
  no_series_match sp jn (_episodes_cache (mapper p)) sids ->
  scan_series http sp jn sids p = (Return None, p).
Proof.
  induction sids as [|sid r IH]; intros H; [reflexivity|].
  cbn [scan_series]. unfold bind at 1. unfold _get_sonarr_episodes, bind at 1, get_mapper.
  destruct (H sid (or_introl eq_refl)) as (eps & Hget & Hno). rewrite Hget.
  unfold ret at 1. unfold bind at 1. rewrite (scan_episodes_by_path_none _ _ _ Hno).
  apply IH. intros sid' Hin. apply (H sid'). right. exact Hin.
Qed.

(** An episode path that matches nothing in the cached series: [None],
    nothing sent, nothing changed. *)
Lemma find_sonarr_episode_by_path_not_found path series p :
  _series_cache (mapper p) = Some series ->
  no_series_match (sonarr_prefix (mapper p))
                  (_normalize_path path (jellyfin_tv_prefix (mapper p)))
                  (_episodes_cache (mapper p)) (dict_keys series) ->
  find_sonarr_episode_by_path http path None p = (Return None, p).
Proof.
  intros Hs Hno.
  unfold find_sonarr_episode_by_path, bind at 1, get_mapper. cbn [truthy_id].
  unfold bind at 1. unfold bind at 1. unfold _get_all_sonarr_series, bind at 1, get_mapper.
  rewrite Hs. unfold ret. apply scan_series_not_found, Hno.
Qed.

(** [_get_sonarr_episodes] caches what it hands back, and keeps what the
    episode cache held. *)
Lemma get_sonarr_episodes_cached sid p l :
  fst (_get_sonarr_episodes http sid p) = Return l ->
  let p1 := snd (_get_sonarr_episodes http sid p) in
  dict_get Z.eqb sid (_episodes_cache (mapper p1)) = Some l
  /\ (forall sid' l', dict_get Z.eqb sid' (_episodes_cache (mapper p)) = Some l' ->
                      dict_get Z.eqb sid' (_episodes_cache (mapper p1)) = Some l').
Proof.
  cbv zeta.
  remember (_get_sonarr_episodes http sid p) as r eqn:Hr.
  unfold _get_sonarr_episodes, bind, get_mapper, send, modify_mapper, ret in Hr.
  destruct (dict_get Z.eqb sid (_episodes_cache (mapper p))) as [l0|] eqn:E.
  - subst r. cbn [fst snd]. intros [= <-]. auto.
  - destruct (http (GET_sonarr_episode sid) (world p)) as [[eps|e] w]; subst r;
      cbn [fst snd]; [|discriminate].
    intros [= <-]. cbn [mapper with_mapper set_episodes_cache _episodes_cache].
    split; [now rewrite dict_get_set_Z, Z.eqb_refl|].
    intros sid' l' H. rewrite dict_get_set_Z.
    destruct (Z.eqb_spec sid' sid) as [->|_]; [congruence | exact H].
Qed.

(** Episodes that could not be fetched are not cached. *)
Lemma get_sonarr_episodes_raises sid p e :
  fst (_get_sonarr_episodes http sid p) = Raise e ->
  dict_get Z.eqb sid (_episodes_cache (mapper (snd (_get_sonarr_episodes http sid p)))) = None.
Proof.
  remember (_get_sonarr_episodes http sid p) as r eqn:Hr.
  unfold _get_sonarr_episodes, bind, get_mapper, send, modify_mapper, ret in Hr.
  destruct (dict_get Z.eqb sid (_episodes_cache (mapper p))) as [l0|] eqn:E.
  - subst r. cbn [fst]. discriminate.
  - destruct (http (GET_sonarr_episode sid) (world p)) as [[eps|e0] w]; subst r;
      cbn [fst snd]; [discriminate|].
    intros _. exact E.
Qed.

Lemma get_sonarr_episodes_series_cache sid p :
  _series_cache (mapper (snd (_get_sonarr_episodes http sid p))) = _series_cache (mapper p).
Proof.
  unfold _get_sonarr_episodes, bind, get_mapper, send, modify_mapper, ret.
  destruct (dict_get Z.eqb sid (_episodes_cache (mapper p))) as [l0|]; [reflexivity|].
  destruct (http (GET_sonarr_episode sid) (world p)) as [[eps|e0] w]; reflexivity.
Qed.

Lemma scan_series_series_cache sp jn sids : forall p,
  _series_cache (mapper (snd (scan_series http sp jn sids p))) = _series_cache (mapper p).
Proof.
  induction sids as [|sid rest IH]; intros p; [reflexivity|].
  cbn [scan_series]. unfold bind at 1.
  pose proof (get_sonarr_episodes_series_cache sid p) as H.
  destruct (_get_sonarr_episodes http sid p) as [[l|e] p1]; cbn [snd] in H; [|exact H].
  unfold bind at 1, lift.
  destruct (scan_episodes_by_path sp jn l) as [[fid|]|e]; [exact H | | exact H].
  rewrite IH. exact H.
Qed.

(** The series cache after [_get_all_sonarr_series]: what it handed back,
    or still nothing when the fetch raised. *)
Lemma get_all_sonarr_series_cached p :
  let r := _get_all_sonarr_series http p in
  match fst r with
  | Return all => _series_cache (mapper (snd r)) = Some all
  | Raise _ => _series_cache (mapper (snd r)) = None
  end.
Proof.
  cbv zeta. unfold _get_all_sonarr_series, bind, get_mapper, send, modify_mapper, ret.
  destruct (_series_cache (mapper p)) as [c0|] eqn:E; [exact E|].
  destruct (http GET_sonarr_series (world p)) as [[l|e] w]; cbn; [reflexivity | exact E].
Qed.

(** The scan of the series, judged on the episode cache it leaves: when
    that cache holds the episodes of every series of [sids] and none of
    them matches, the scan has returned [None]; it has raised nothing. *)
Lemma scan_series_no_match sp jn sids : forall p,
  no_series_match sp jn
    (_episodes_cache (mapper (snd (scan_series http sp jn sids p)))) sids ->
  fst (scan_series http sp jn sids p) = Return None.
Proof.
  induction sids as [|sid rest IH]; intros p H; [reflexivity|].
  destruct (H sid (or_introl eq_refl)) as (eps & Hget & Hno).
  assert (Hrest : no_series_match sp jn
            (_episodes_cache (mapper (snd (scan_series http sp jn (sid :: rest) p)))) rest).
  { intros s Hin. apply H. right. exact Hin. }
  clear H. revert Hget Hrest.
  remember (scan_series http sp jn (sid :: rest) p) as r eqn:Hr.
  cbn [scan_series] in Hr. unfold bind at 1 in Hr.
  pose proof (get_sonarr_episodes_cached sid p) as Hok.
  pose proof (get_sonarr_episodes_raises sid p) as Hbad.
  destruct (_get_sonarr_episodes http sid p) as [[l|e] p1]; cbn [fst snd] in Hok, Hbad.
  - destruct (Hok l eq_refl) as [Hl _]. unfold bind at 1, lift in Hr.
    destruct (scan_episodes_by_path sp jn l) as [[fid|]|e] eqn:Es.
    + unfold ret in Hr. subst r. cbn [fst snd]. intros Hget _.
      rewrite Hl in Hget. injection Hget as <-.
      rewrite (scan_episodes_by_path_none _ _ _ Hno) in Es. discriminate.
    + subst r. intros _ Hrest. apply IH, Hrest.
    + subst r. cbn [fst snd]. intros Hget _.
      rewrite Hl in Hget. injection Hget as <-.
      rewrite (scan_episodes_by_path_none _ _ _ Hno) in Es. discriminate.
  - subst r. cbn [fst snd]. intros Hget _. rewrite (Hbad e eq_refl) in Hget. discriminate.
Qed.

(** The episode lookup, judged on the caches it leaves, whether they were
    filled before or by this very call: when the series are cached, the
    episodes of each of them are cached and none has the path, the lookup
    has returned [None]; it has raised nothing. *)
Lemma find_sonarr_episode_by_path_no_match path series p :
  let r := find_sonarr_episode_by_path http path None p in
  _series_cache (mapper (snd r)) = Some series ->
  no_series_match (sonarr_prefix (mapper p))
                  (_normalize_path path (jellyfin_tv_prefix (mapper p)))
                  (_episodes_cache (mapper (snd r))) (dict_keys series) ->
  fst r = Return None.
Proof.
  cbv zeta.
  remember (find_sonarr_episode_by_path http path None p) as r eqn:Hr.
  unfold find_sonarr_episode_by_path, bind at 1, get_mapper in Hr. cbn [truthy_id] in Hr.
  unfold bind at 1 in Hr. unfold bind at 1 in Hr.
  pose proof (get_all_sonarr_series_cached p) as Hall. cbv zeta in Hall.
  destruct (_get_all_sonarr_series http p) as [[all|e] p1]; cbn [fst snd] in Hall.
  - unfold ret at 1 in Hr. subst r. rewrite scan_series_series_cache, Hall.
    intros [= <-]. apply scan_series_no_match.
  - subst r. cbn [fst snd]. rewrite Hall. discriminate.
Qed.

(** The matchers on the catalog that [_get_all_radarr_movies] hands back. *)
Lemma find_radarr_movie_by_path_at path cache p :
  fst (_get_all_radarr_movies http p) = Return cache ->
  find_radarr_movie_by_path http path p
  = (scan_movies_by_path (radarr_prefix (mapper p))
       (_normalize_path path (jellyfin_movie_prefix (mapper p))) cache,
     snd (_get_all_radarr_movies http p)).
Proof.
  intros H.
  destruct (get_all_radarr_movies_cached p cache H) as (Hc & Hr & Hj).
  unfold find_radarr_movie_by_path. unfold bind at 1.
  destruct (_get_all_radarr_movies http p) as [o p1]. cbn [fst snd] in *. subst o.
  unfold bind, get_mapper, lift. now rewrite Hr, Hj.
Qed.

Lemma find_radarr_movie_by_tmdb_at t cache p :
  fst (_get_all_radarr_movies http p) = Return cache ->
  find_radarr_movie_by_tmdb http t p
  = (Return (scan_movies_by_tmdb t cache), snd (_get_all_radarr_movies http p)).
Proof.
  intros H. unfold find_radarr_movie_by_tmdb. unfold bind at 1.
  destruct (_get_all_radarr_movies http p) as [o p1]. cbn [fst snd] in *. now subst o.
Qed.

Lemma find_radarr_movie_by_path_fetch_raises path e p :
  fst (_get_all_radarr_movies http p) = Raise e ->
  fst (find_radarr_movie_by_path http path p) = Raise e.
Proof.
  intros H. unfold find_radarr_movie_by_path. unfold bind at 1.
  destruct (_get_all_radarr_movies http p) as [o p1]. cbn [fst] in H. now subst o.
Qed.

Lemma find_radarr_movie_by_tmdb_fetch_raises t e p :
  fst (_get_all_radarr_movies http p) = Raise e ->
  fst (find_radarr_movie_by_tmdb http t p) = Raise e.
Proof.
  intros H. unfold find_radarr_movie_by_tmdb. unfold bind at 1.
  destruct (_get_all_radarr_movies http p) as [o p1]. cbn [fst] in H. now subst o.
Qed.

(** A scan that ends on [None] has seen every entry and matched none. *)
Lemma scan_movies_by_path_none_inv rp jn cache :
  scan_movies_by_path rp jn cache = Return None -> no_path_match rp jn cache.
Proof.
  induction cache as [|[k m] r IH]; intros H k' m' Hin Hf; [destruct Hin|].
  cbn [scan_movies_by_path] in H.
  destruct Hin as [E|Hin].
  - injection E as <- <-. rewrite Hf in H. cbn [negb] in H.
    destruct (movieFile m) as [f|]; [|discriminate]. exists f. split; [reflexivity|].
    destruct (String.eqb_spec jn (_normalize_path f rp)) as [->|Hne]; [discriminate|].
    congruence.
  - destruct (hasFile m); cbn [negb] in H; [|exact (IH H k' m' Hin Hf)].
    destruct (movieFile m) as [f|]; [|discriminate].
    destruct (String.eqb jn (_normalize_path f rp)); [discriminate|].
    exact (IH H k' m' Hin Hf).
Qed.

Lemma scan_movies_by_tmdb_none_inv t cache :
  scan_movies_by_tmdb t cache = None -> no_tmdb_match t cache.
Proof.
  induction cache as [|[k m] r IH]; intros H k' m' Hin; [destruct Hin|].
  cbn [scan_movies_by_tmdb] in H.
  destruct (String.eqb_spec (str_of_tmdbId (tmdbId m)) t) as [E|Hne]; [discriminate|].
  destruct Hin as [E|Hin]; [injection E as <- <-; exact Hne | exact (IH H k' m' Hin)].
Qed.

Lemma scan_episodes_by_path_none_inv sp jn episodes :
  scan_episodes_by_path sp jn episodes = Return None -> no_episode_match sp jn episodes.
Proof.
  induction episodes as [|x r IH]; intros H x' Hin Hf; [destruct Hin|].
  cbn [scan_episodes_by_path] in H.
  destruct Hin as [<-|Hin].
  - rewrite Hf in H. cbn [negb] in H.
    destruct (episodeFile x) as [f|]; [|discriminate]. exists f. split; [reflexivity|].
    destruct (String.eqb_spec jn (_normalize_path f sp)) as [->|Hne]; [discriminate|].
    congruence.
  - destruct (ep_hasFile x); cbn [negb] in H; [|exact (IH H x' Hin Hf)].
    destruct (episodeFile x) as [f|]; [|discriminate].
    destruct (String.eqb jn (_normalize_path f sp)); [discriminate|].
    exact (IH H x' Hin Hf).
Qed.

(** The path matcher returns [None] exactly when the catalog could be had
    and no entry of it matches. *)
Lemma find_radarr_movie_by_path_none_iff path p :
  fst (find_radarr_movie_by_path http path p) = Return None
  <-> exists cache,
        fst (_get_all_radarr_movies http p) = Return cache
        /\ no_path_match (radarr_prefix (mapper p))
                         (_normalize_path path (jellyfin_movie_prefix (mapper p))) cache.
Proof.
  split.
  - intros H. destruct (fst (_get_all_radarr_movies http p)) as [cache|e] eqn:E.
    + exists cache. split; [reflexivity|].
      rewrite (find_radarr_movie_by_path_at path cache p E) in H. cbn [fst] in H.
      apply scan_movies_by_path_none_inv, H.
    + rewrite (find_radarr_movie_by_path_fetch_raises path e p E) in H. discriminate.
  - intros (cache & Hc & Hn).
    now rewrite (find_radarr_movie_by_path_no_match path cache p Hc Hn).
Qed.

Lemma find_radarr_movie_by_tmdb_none_iff t p :
  fst (find_radarr_movie_by_tmdb http t p) = Return None
  <-> exists cache,
        fst (_get_all_radarr_movies http p) = Return cache /\ no_tmdb_match t cache.
Proof.
  split.
  - intros H. destruct (fst (_get_all_radarr_movies http p)) as [cache|e] eqn:E.
    + exists cache. split; [reflexivity|].
      rewrite (find_radarr_movie_by_tmdb_at t cache p E) in H. cbn [fst] in H.
      apply scan_movies_by_tmdb_none_inv. congruence.
    + rewrite (find_radarr_movie_by_tmdb_fetch_raises t e p E) in H. discriminate.
  - intros (cache & Hc & Hn).
    now rewrite (find_radarr_movie_by_tmdb_no_match t cache p Hc Hn).
Qed.

(** What the episode cache holds, it keeps. *)
Lemma get_sonarr_episodes_keeps sid p s l :
  dict_get Z.eqb s (_episodes_cache (mapper p)) = Some l ->
  dict_get Z.eqb s (_episodes_cache (mapper (snd (_get_sonarr_episodes http sid p)))) = Some l.
Proof.
  intros H.
  unfold _get_sonarr_episodes, bind, get_mapper, send, modify_mapper, ret.
  destruct (dict_get Z.eqb sid (_episodes_cache (mapper p))) as [l0|] eqn:E; [exact H|].
  destruct (http (GET_sonarr_episode sid) (world p)) as [[eps|e0] w]; cbn [snd]; [|exact H].
  cbn [mapper with_mapper set_episodes_cache _episodes_cache].
  rewrite dict_get_set_Z. destruct (Z.eqb_spec s sid) as [->|_]; [congruence | exact H].
Qed.

Lemma scan_series_keeps sp jn sids s l : forall p,
  dict_get Z.eqb s (_episodes_cache (mapper p)) = Some l ->
  dict_get Z.eqb s (_episodes_cache (mapper (snd (scan_series http sp jn sids p)))) = Some l.
Proof.
  induction sids as [|sid rest IH]; intros p H; [exact H|].
  cbn [scan_series]. unfold bind at 1.
  pose proof (get_sonarr_episodes_keeps sid p s l H) as H1.
  destruct (_get_sonarr_episodes http sid p) as [[l1|e] p1]; cbn [snd] in H1; [|exact H1].
  unfold bind at 1, lift.
  destruct (scan_episodes_by_path sp jn l1) as [[fid|]|e]; [exact H1 | | exact H1].
  apply IH, H1.
Qed.

(** A scan of the series that ends on [None] has cached the episodes of
    every series and matched none of them. *)
Lemma scan_series_none_inv sp jn sids : forall p,
  fst (scan_series http sp jn sids p) = Return None ->
  no_series_match sp jn
    (_episodes_cache (mapper (snd (scan_series http sp jn sids p)))) sids.
Proof.
  induction sids as [|sid rest IH]; intros p H s Hin; [destruct Hin|].
  revert H.
  remember (scan_series http sp jn (sid :: rest) p) as r eqn:Hr.
  cbn [scan_series] in Hr. unfold bind at 1 in Hr.
  pose proof (get_sonarr_episodes_cached sid p) as Hok.
  destruct (_get_sonarr_episodes http sid p) as [[l|e] p1]; cbn [fst snd] in Hok;
    [|subst r; discriminate].
  destruct (Hok l eq_refl) as [Hl _]. unfold bind at 1, lift in Hr.
  destruct (scan_episodes_by_path sp jn l) as [[fid|]|e] eqn:Es;
    [subst r; discriminate | | subst r; discriminate].
  subst r. intros H. destruct Hin as [<-|Hin].
  - exists l. split; [apply scan_series_keeps, Hl | apply scan_episodes_by_path_none_inv, Es].
  - apply (IH p1 H s Hin).
Qed.

(** The episode lookup returns [None] exactly when, as it leaves the
    caches, the series are cached, the episodes of each of them are cached
    and none of them has the path. *)
Lemma find_sonarr_episode_by_path_none_iff path p :
  let r := find_sonarr_episode_by_path http path None p in
  fst r = Return None
  <-> exists series,
        _series_cache (mapper (snd r)) = Some series
        /\ no_series_match (sonarr_prefix (mapper p))
                           (_normalize_path path (jellyfin_tv_prefix (mapper p)))
                           (_episodes_cache (mapper (snd r))) (dict_keys series).
Proof.
  cbv zeta. split.
  - remember (find_sonarr_episode_by_path http path None p) as r eqn:Hr.
    unfold find_sonarr_episode_by_path, bind at 1, get_mapper in Hr. cbn [truthy_id] in Hr.
    unfold bind at 1 in Hr. unfold bind at 1 in Hr.
    pose proof (get_all_sonarr_series_cached p) as Hall. cbv zeta in Hall.
    destruct (_get_all_sonarr_series http p) as [[all|e] p1]; cbn [fst snd] in Hall;
      [|subst r; discriminate].
    unfold ret at 1 in Hr. subst r. intros H. exists all.
    split; [now rewrite scan_series_series_cache | apply scan_series_none_inv, H].
  - intros (series & Hs & Hno).
    apply (find_sonarr_episode_by_path_no_match path series p Hs Hno).
Qed.

Lemma find_sonarr_episode_by_path_fetch_raises path e p :
  fst (_get_all_sonarr_series http p) = Raise e ->
  fst (find_sonarr_episode_by_path http path None p) = Raise e.
Proof.
  intros H.
  unfold find_sonarr_episode_by_path, bind at 1, get_mapper. cbn [truthy_id].
  unfold bind at 1. unfold bind at 1.
  destruct (_get_all_sonarr_series http p) as [o p1]. cbn [fst] in H. now subst o.
Qed.

(** A fetch of the movie catalog on an empty cache answers with what the
    service listed, keyed by identifier, the movies without a file left
    out. *)
Lemma get_all_radarr_movies_fresh p movies w :
  _movies_cache (mapper p) = None ->
  http GET_radarr_movie (world p) = (Return movies, w) ->
  fst (_get_all_radarr_movies http p)
  = Return (dict_of Z.eqb id (fun m => m) (filter hasFile movies)).
Proof.
  intros Hc Hw. unfold _get_all_radarr_movies, bind, get_mapper, send, modify_mapper, ret.
  rewrite Hc. change (reply GET_radarr_movie) with (list RadarrMovie) in *.
  now rewrite Hw.
Qed.

(** The process when the resolution of an eligible item starts. *)
Lemma counted_eligible_frame c p :
  mapper (counted_eligible utcnow c p) = mapper p
  /\ calls (counted_eligible utcnow c p) = calls p
  /\ summaries (counted_eligible utcnow c p) = summaries p
  /\ stats (counted_eligible utcnow c p) = plus_one c (stats p).
Proof.
  unfold counted_eligible, now, with_stats. cbn [world].
  destruct (utcnow (world p)) as [t0 w0]. cbn [snd world].
  destruct (utcnow w0) as [t1 w1]. cbn. repeat split.
Qed.

(** An eligible movie: the loop body is the resolution and what follows
    it, from the process [counted_eligible]. *)
Lemma cleanup_movie_eligible self movie text p :
  LastPlayedDate movie = Some text ->
  fst (_is_past_grace_period utcnow self text p) = Return true ->
  cleanup_movie http utcnow self movie p
  = bind (resolve_radarr_movie http (or_default (Path movie) "unknown") (Tmdb movie))
      (fun radarr_movie_id =>
         match radarr_movie_id with
         | Some movie_id =>
             if Z.eqb movie_id 0 then incr c_movies_skipped_not_found
             else
               bind (_get_all_radarr_movies http)
                 (fun radarr_movies =>
                    match dict_get Z.eqb movie_id radarr_movies with
                    | None => raise KeyError
                    | Some radarr_movie =>
                        if _has_keep_tag (tags radarr_movie) (radarr_keep_tag_id self)
                        then incr c_movies_skipped_tag
                        else
                          bind (delete_radarr_movie http movie_id (dry_run (config self)))
                            (fun success => if success then incr c_movies_deleted
                                            else incr c_movies_failed)
                    end)
         | None => incr c_movies_skipped_not_found
         end)
      (counted_eligible utcnow c_movies_eligible p).
Proof.
  intros Hlp Hpast. unfold cleanup_movie. rewrite Hlp.
  unfold bind at 1. rewrite (is_past_grace_period_returns utcnow self text p true Hpast).
  cbn [negb]. unfold bind at 1. unfold incr at 1, modify_stats.
  unfold bind at 1. unfold counted_eligible.
  destruct (now utcnow (with_stats (update_counter c_movies_eligible (fun n => n + 1))
                                   (snd (now utcnow p)))) as [o p2] eqn:E.
  assert (Ho : o = Return (fst (utcnow (world (snd (now utcnow p)))))).
  { unfold now in E at 1. cbn [world with_stats] in E.
    destruct (utcnow (world (snd (now utcnow p)))). now injection E as <- _. }
  subst o. reflexivity.
Qed.

(** An eligible movie against the catalog the resolution works on, cached
    before or fetched now: the whole of the loop body. *)
Lemma cleanup_movie_resolved self movie text cache p :
  LastPlayedDate movie = Some text ->
  fst (_is_past_grace_period utcnow self text p) = Return true ->
  fst (_get_all_radarr_movies http (counted_eligible utcnow c_movies_eligible p))
  = Return cache ->
  let p1 := snd (_get_all_radarr_movies http (counted_eligible utcnow c_movies_eligible p)) in
  cleanup_movie http utcnow self movie p
  = match chain_on (mapper p) cache (or_default (Path movie) "unknown") (Tmdb movie) with
    | Raise e => (Raise e, p1)
    | Return None => (Return tt, with_stats (plus_one c_movies_skipped_not_found) p1)
    | Return (Some i) =>
        if Z.eqb i 0
        then (Return tt, with_stats (plus_one c_movies_skipped_not_found) p1)
        else
          match dict_get Z.eqb i cache with
          | None => (Raise KeyError, p1)
          | Some entry =>
              if _has_keep_tag (tags entry) (radarr_keep_tag_id self)
              then (Return tt, with_stats (plus_one c_movies_skipped_tag) p1)
              else bind (delete_radarr_movie http i (dry_run (config self)))
                        (fun success => if success then incr c_movies_deleted
                                        else incr c_movies_failed) p1
          end
    end.
Proof.
  intros Hlp Hpast Hc. cbv zeta.
  rewrite (cleanup_movie_eligible self movie text p Hlp Hpast).
  unfold bind at 1. rewrite (resolve_radarr_movie_at _ _ _ _ Hc).
  destruct (counted_eligible_frame c_movies_eligible p) as (-> & _).
  destruct (get_all_radarr_movies_cached _ _ Hc) as (Hcached & _).
  destruct (chain_on (mapper p) cache (or_default (Path movie) "unknown") (Tmdb movie))
    as [[i|]|e]; [| reflexivity | reflexivity].
  destruct (Z.eqb i 0); [reflexivity|].
  unfold bind at 1. rewrite (get_all_radarr_movies_again _ _ Hcached).
  destruct (dict_get Z.eqb i cache) as [entry|]; [|reflexivity].
  destruct (_has_keep_tag (tags entry) (radarr_keep_tag_id self)); reflexivity.
Qed.

(** An eligible movie whose catalog cannot be fetched: the loop body raises
    what the fetch raised. *)
Lemma cleanup_movie_fetch_raises self movie text e p :
  LastPlayedDate movie = Some text ->
  fst (_is_past_grace_period utcnow self text p) = Return true ->
  fst (_get_all_radarr_movies http (counted_eligible utcnow c_movies_eligible p)) = Raise e ->
  fst (cleanup_movie http utcnow self movie p) = Raise e.
Proof.
  intros Hlp Hpast Hc.
  rewrite (cleanup_movie_eligible self movie text p Hlp Hpast).
  unfold bind at 1.
  pose proof (resolve_radarr_movie_fetch_raises (or_default (Path movie) "unknown")
                (Tmdb movie) e _ Hc) as H.
  destruct (resolve_radarr_movie http _ _ _) as [o p1]. cbn [fst] in H. now subst o.
Qed.

(** An eligible movie that is not in the catalog is counted as such and the
    loop body returns normally; nothing is sent beyond the fetch of a
    catalog that was not cached. *)
Lemma cleanup_movie_not_found self movie cache text p :
  LastPlayedDate movie = Some text ->
  fst (_is_past_grace_period utcnow self text p) = Return true ->
  fst (_get_all_radarr_movies http (counted_eligible utcnow c_movies_eligible p))
  = Return cache ->
  no_path_match (radarr_prefix (mapper p))
                (_normalize_path (or_default (Path movie) "unknown")
                                 (jellyfin_movie_prefix (mapper p))) cache ->
  truthy_str (Tmdb movie) = false \/ no_tmdb_match (or_default (Tmdb movie) "") cache ->
  cleanup_movie http utcnow self movie p
  = (Return tt,
     with_stats (plus_one c_movies_skipped_not_found)
       (snd (_get_all_radarr_movies http (counted_eligible utcnow c_movies_eligible p)))).
Proof.
  intros Hlp Hpast Hc Hn Ht.
  rewrite (cleanup_movie_resolved self movie text cache p Hlp Hpast Hc).
  unfold chain_on. rewrite (scan_movies_by_path_none _ _ _ Hn). cbn [truthy_id negb].
  destruct (truthy_str (Tmdb movie)) eqn:E; [|reflexivity].
  destruct Ht as [Ht|Ht]; [discriminate|].
  now rewrite (scan_movies_by_tmdb_none _ _ Ht).
Qed.

(** An eligible episode: the loop body is the lookup and what follows it,
    from the process [counted_eligible]. *)
Lemma cleanup_episode_eligible self episode text p :
  LastPlayedDate episode = Some text ->
  fst (_is_past_grace_period utcnow self text p) = Return true ->
  cleanup_episode http utcnow self episode p
  = bind (find_sonarr_episode_by_path http (or_default (Path episode) "unknown") None)
      (fun episode_file_id =>
         match episode_file_id with
         | Some file_id =>
             if Z.eqb file_id 0 then incr c_episodes_skipped_not_found
             else
               bind (delete_sonarr_episode_file http file_id (dry_run (config self)))
                 (fun success => if success then incr c_episodes_deleted
                                 else incr c_episodes_failed)
         | None => incr c_episodes_skipped_not_found
         end)
      (counted_eligible utcnow c_episodes_eligible p).
Proof.
  intros Hlp Hpast. unfold cleanup_episode. rewrite Hlp.
  unfold bind at 1. rewrite (is_past_grace_period_returns utcnow self text p true Hpast).
  cbn [negb]. unfold bind at 1. unfold incr at 1, modify_stats.
  unfold bind at 1. unfold counted_eligible.
  destruct (now utcnow (with_stats (update_counter c_episodes_eligible (fun n => n + 1))
                                   (snd (now utcnow p)))) as [o p2] eqn:E.
  assert (Ho : o = Return (fst (utcnow (world (snd (now utcnow p)))))).
  { unfold now in E at 1. cbn [world with_stats] in E.
    destruct (utcnow (world (snd (now utcnow p)))). now injection E as <- _. }
  subst o. reflexivity.
Qed.

(** An eligible episode that no cached series holds, the caches judged as
    the lookup leaves them: counted as not found, and the loop body returns
    normally. *)
Lemma cleanup_episode_not_found self episode series text p :
  LastPlayedDate episode = Some text ->
  fst (_is_past_grace_period utcnow self text p) = Return true ->
  let r := find_sonarr_episode_by_path http (or_default (Path episode) "unknown") None
             (counted_eligible utcnow c_episodes_eligible p) in
  _series_cache (mapper (snd r)) = Some series ->
  no_series_match (sonarr_prefix (mapper p))
                  (_normalize_path (or_default (Path episode) "unknown")
                                   (jellyfin_tv_prefix (mapper p)))
                  (_episodes_cache (mapper (snd r))) (dict_keys series) ->
  cleanup_episode http utcnow self episode p
  = (Return tt, with_stats (plus_one c_episodes_skipped_not_found) (snd r)).
Proof.
  intros Hlp Hpast. cbv zeta. intros Hs Hno.
  rewrite (cleanup_episode_eligible self episode text p Hlp Hpast).
  unfold bind at 1.
  pose proof (find_sonarr_episode_by_path_no_match (or_default (Path episode) "unknown")
                series (counted_eligible utcnow c_episodes_eligible p)) as H.
  cbv zeta in H.
  destruct (counted_eligible_frame c_episodes_eligible p) as (Hm & _).
  rewrite Hm in H. specialize (H Hs Hno).
  destruct (find_sonarr_episode_by_path http _ None _) as [o p1]. cbn [fst snd] in *.
  now subst o.
Qed.

End NotFound.

(** ** Accounting *)

Section Accounting.

Context {World : Type}.
Variable http : forall r : request, World -> outcome (reply r) * World.
Variable utcnow : World -> Z * World.
Implicit Types p : Proc World.

Lemma T_counts_ok : composes (@T_counts World).
Proof.
  split; unfold T_counts, movies_gap, episodes_gap.
  - intros p. repeat split; lia.
  - intros p p1 o p2 (H1 & H2 & H3 & H4 & H5) (K1 & K2 & K3 & K4 & K5).
    destruct (H5 eq_refl) as [G1 G2].
    repeat split; try lia.
    all: match goal with H : _ = None |- _ => destruct (K5 H); lia end.
  - intros p e _. repeat split; lia.
Qed.

Lemma counts_of_frame {A} (m : M World A) : obeys T_frame m -> obeys T_counts m.
Proof.
  apply obeys_weaken. intros p o p' [H _]. unfold T_counts, movies_gap, episodes_gap.
  rewrite H. repeat split; lia.
Qed.

Lemma movie_verdict_gaps v st :
  episodes_skipped_tag (movie_verdict_stats v st) = episodes_skipped_tag st
  /\ movies_gap st (movie_verdict_stats v st) = match v with Aborted => 1 | _ => 0 end
  /\ episodes_gap st (movie_verdict_stats v st) = 0.
Proof.
  unfold movies_gap, episodes_gap, movies_outcomes, episodes_outcomes.
  destruct st, v; cbn; repeat split; lia.
Qed.

Lemma episode_verdict_gaps v st :
  v <> TagSkip ->
  episodes_skipped_tag (episode_verdict_stats v st) = episodes_skipped_tag st
  /\ movies_gap st (episode_verdict_stats v st) = 0
  /\ episodes_gap st (episode_verdict_stats v st) = match v with Aborted => 1 | _ => 0 end.
Proof.
  unfold movies_gap, episodes_gap, movies_outcomes, episodes_outcomes.
  destruct st, v; cbn; intros Hv; repeat split; try lia; congruence.
Qed.

Lemma verdict_fits_aborted v check (o : outcome unit) :
  verdict_fits v check o -> error_of o = None ->
  match v with Aborted => 1 | _ => 0 end = 0.
Proof.
  destruct v; cbn [verdict_fits]; try reflexivity.
  intros (_ & e & ->). discriminate.
Qed.

Lemma counts_cleanup_movie self movie : obeys T_counts (cleanup_movie http utcnow self movie).
Proof.
  intros p. destruct (cleanup_movie_verdict http utcnow self movie p) as (_ & v & Hst & Hfit & _).
  unfold T_counts. rewrite Hst.
  destruct (movie_verdict_gaps v (stats p)) as (-> & -> & ->).
  pose proof (verdict_fits_aborted _ _ _ Hfit) as Hab.
  split; [reflexivity|]. split; [destruct v; lia|]. split; [lia|].
  split; [destruct v; lia|]. intros Ho. split; [apply Hab, Ho | reflexivity].
Qed.

Lemma counts_cleanup_episode self episode :
  obeys T_counts (cleanup_episode http utcnow self episode).
Proof.
  intros p.
  destruct (cleanup_episode_verdict http utcnow self episode p) as (_ & v & Hst & Hfit & Hv).
  unfold T_counts. rewrite Hst.
  destruct (episode_verdict_gaps v (stats p) Hv) as (-> & -> & ->).
  pose proof (verdict_fits_aborted _ _ _ Hfit) as Hab.
  split; [reflexivity|]. split; [lia|]. split; [destruct v; lia|].
  split; [destruct v; lia|]. intros Ho. split; [reflexivity | apply Hab, Ho].
Qed.

Lemma counts_set_movies_watched n :
  obeys T_counts (@modify_stats World (update_counter c_movies_watched (fun _ => n))).
Proof.
  intros p. unfold T_counts, movies_gap, episodes_gap, movies_outcomes, episodes_outcomes.
  cbn. destruct (stats p); cbn. repeat split; lia.
Qed.

Lemma counts_set_episodes_watched n :
  obeys T_counts (@modify_stats World (update_counter c_episodes_watched (fun _ => n))).
Proof.
  intros p. unfold T_counts, movies_gap, episodes_gap, movies_outcomes, episodes_outcomes.
  cbn. destruct (stats p); cbn. repeat split; lia.
Qed.

Hint Resolve counts_cleanup_movie counts_cleanup_episode counts_set_movies_watched
  counts_set_episodes_watched : proc.
Hint Extern 4 (obeys T_counts _) => apply counts_of_frame; solve [auto with proc] : proc.

Lemma counts_phases self :
  obeys T_counts
        (bind (cleanup_movies http utcnow self) (fun _ => cleanup_episodes http utcnow self)).
Proof.
  unfold cleanup_movies, cleanup_episodes.
  obeys_auto (@T_counts_ok).
Qed.

End Accounting.

(** ** Eligible items are among the watched ones *)

Section Budget.

Context {World : Type}.
Variable http : forall r : request, World -> outcome (reply r) * World.
Variable utcnow : World -> Z * World.
Implicit Types p : Proc World.

(** A loop whose iteration over [x] costs at most [w x] costs at most the
    sum of the weights, whether or not it runs to the end. *)
Lemma for_each_budget {A} (B : nat -> Proc World -> Proc World -> Prop) (w : A -> nat)
      (body : A -> M World unit) :
  (forall n p, B n p p) ->
  (forall n m p p1 p2, B n p p1 -> B m p1 p2 -> B (n + m)%nat p p2) ->
  (forall x p, B (w x) p (snd (body x p))) ->
  forall l p, B (list_sum (map w l)) p (snd (for_each body l p)).
Proof.
  intros Brefl Badd Hbody. induction l as [|x r IH]; intros p.
  - apply Brefl.
  - cbn [for_each map list_sum]. unfold bind. specialize (Hbody x p).
    destruct (body x p) as [[[]|e] p1]; cbn [snd] in *.
    + eapply Badd; [exact Hbody | apply IH].
    + eapply Badd; [exact Hbody | apply Brefl].
Qed.

Lemma list_sum_ones {A} (l : list A) : list_sum (map (fun _ => 1%nat) l) = List.length l.
Proof.
  induction l as [|x r IH]; [reflexivity|].
  simpl. f_equal. exact IH.
Qed.

Lemma movies_step_refl n p : movies_step n p p.
Proof. unfold movies_step. repeat split; lia. Qed.

Lemma movies_step_add n m p p1 p2 :
  movies_step n p p1 -> movies_step m p1 p2 -> movies_step (n + m)%nat p p2.
Proof. unfold movies_step. intros (?&?&?&?) (?&?&?&?). repeat split; lia. Qed.

Lemma episodes_step_refl n p : episodes_step n p p.
Proof. unfold episodes_step. repeat split; lia. Qed.

Lemma episodes_step_add n m p p1 p2 :
  episodes_step n p p1 -> episodes_step m p1 p2 -> episodes_step (n + m)%nat p p2.
Proof. unfold episodes_step. intros (?&?&?&?) (?&?&?&?). repeat split; lia. Qed.

Lemma movie_verdict_step v st :
  movies_watched (movie_verdict_stats v st) = movies_watched st
  /\ episodes_watched (movie_verdict_stats v st) = episodes_watched st
  /\ episodes_eligible (movie_verdict_stats v st) = episodes_eligible st
  /\ movies_eligible st <= movies_eligible (movie_verdict_stats v st) <= movies_eligible st + 1.
Proof. destruct st, v; cbn; repeat split; lia. Qed.

Lemma episode_verdict_step v st :
  movies_watched (episode_verdict_stats v st) = movies_watched st
  /\ episodes_watched (episode_verdict_stats v st) = episodes_watched st
  /\ movies_eligible (episode_verdict_stats v st) = movies_eligible st
  /\ episodes_eligible st <= episodes_eligible (episode_verdict_stats v st)
     <= episodes_eligible st + 1.
Proof. destruct st, v; cbn; repeat split; lia. Qed.

Lemma cleanup_movie_step self movie p :
  movies_step 1 p (snd (cleanup_movie http utcnow self movie p)).
Proof.
  destruct (cleanup_movie_verdict http utcnow self movie p) as (_ & v & Hst & _).
  unfold movies_step. rewrite Hst. apply movie_verdict_step.
Qed.

Lemma cleanup_episode_step self episode p :
  episodes_step 1 p (snd (cleanup_episode http utcnow self episode p)).
Proof.
  destruct (cleanup_episode_verdict http utcnow self episode p) as (_ & v & Hst & _).
  unfold episodes_step. rewrite Hst. apply episode_verdict_step.
Qed.

(** Grouping by series keeps every episode. *)
Lemma grouped_total_add (name : string) (episode : JellyfinItem)
      (d : dict string (list JellyfinItem)) :
  grouped_total
    (dict_set String.eqb name
       (match dict_get String.eqb name d with Some l => l | None => [] end ++ [episode])%list d)
  = S (grouped_total d).
Proof.
  assert (Hcons : forall k v r, grouped_total ((k, v) :: r)
                                = (List.length v + grouped_total r)%nat) by reflexivity.
  induction d as [|[k v] r IH]; [reflexivity|].
  cbn [dict_get dict_set]. destruct (String.eqb name k).
  - rewrite !Hcons, length_app. cbn. lia.
  - rewrite !Hcons, IH. lia.
Qed.

Lemma group_by_series_total (watched : list JellyfinItem) :
  grouped_total (group_by_series watched) = List.length watched.
Proof.
  unfold group_by_series.
  assert (H : forall acc,
             grouped_total
               (fold_left
                  (fun by_series episode =>
                     let series_name := or_default (SeriesName episode) "Unknown" in
                     let sofar := match dict_get String.eqb series_name by_series with
                                  | Some l => l
                                  | None => []
                                  end in
                     dict_set String.eqb series_name (sofar ++ [episode])%list by_series)
                  watched acc)
             = (grouped_total acc + List.length watched)%nat).
  { induction watched as [|x r IH]; intros acc; cbn [fold_left List.length]; [lia|].
    rewrite IH. cbv zeta. rewrite grouped_total_add. lia. }
  apply (H []).
Qed.

(** The movie phase: nothing changed (the list could not be fetched), or
    the watched counter is the length of the list and at most that many
    movies became eligible. The episode side is untouched either way. *)
Lemma cleanup_movies_within self p :
  let st := stats p in
  let st' := stats (snd (cleanup_movies http utcnow self p)) in
  episodes_watched st' = episodes_watched st
  /\ episodes_eligible st' = episodes_eligible st
  /\ (st' = st
      \/ movies_eligible st <= movies_eligible st' <= movies_eligible st + movies_watched st').
Proof.
  cbv zeta. unfold cleanup_movies, bind.
  pose proof (frame_get_jellyfin_watched_movies http (primary_user_id self) p) as [Hs _].
  destruct (get_jellyfin_watched_movies http (primary_user_id self) p) as [[l|e] p1];
    cbn [fst snd] in *.
  2: { rewrite Hs. auto. }
  cbn [modify_stats].
  pose proof (for_each_budget movies_step (fun _ => 1%nat) (cleanup_movie http utcnow self)
                movies_step_refl movies_step_add (cleanup_movie_step self) l
                (with_stats (update_counter c_movies_watched
                               (fun _ => Z.of_nat (List.length l))) p1)) as H.
  rewrite list_sum_ones in H.
  destruct (for_each (cleanup_movie http utcnow self) l _) as [o p2]; cbn [snd] in *.
  unfold movies_step in H. cbn [with_stats stats] in H. rewrite Hs in H.
  destruct H as (Hw & Hew & Hee & Hb). rewrite Hw, Hew, Hee.
  destruct (stats p); cbn in *. repeat split; try reflexivity. right. lia.
Qed.

Lemma cleanup_series_step self (entry : string * list JellyfinItem) p :
  episodes_step (List.length (snd entry)) p
                (snd (for_each (cleanup_episode http utcnow self) (snd entry) p)).
Proof.
  pose proof (for_each_budget episodes_step (fun _ => 1%nat)
                (cleanup_episode http utcnow self)
                episodes_step_refl episodes_step_add (cleanup_episode_step self)
                (snd entry) p) as H.
  rewrite list_sum_ones in H. exact H.
Qed.

Lemma cleanup_episodes_within self p :
  let st := stats p in
  let st' := stats (snd (cleanup_episodes http utcnow self p)) in
  movies_watched st' = movies_watched st
  /\ movies_eligible st' = movies_eligible st
  /\ (st' = st
      \/ episodes_eligible st <= episodes_eligible st'
         <= episodes_eligible st + episodes_watched st').
Proof.
  cbv zeta. unfold cleanup_episodes, bind.
  pose proof (frame_get_jellyfin_watched_episodes http (primary_user_id self) p) as [Hs _].
  destruct (get_jellyfin_watched_episodes http (primary_user_id self) p) as [[l|e] p1];
    cbn [fst snd] in *.
  2: { rewrite Hs. auto. }
  cbn [modify_stats].
  pose proof (for_each_budget episodes_step
                (fun entry : string * list JellyfinItem => List.length (snd entry))
                (fun entry => for_each (cleanup_episode http utcnow self) (snd entry))
                episodes_step_refl episodes_step_add (cleanup_series_step self)
                (group_by_series l)
                (with_stats (update_counter c_episodes_watched
                               (fun _ => Z.of_nat (List.length l))) p1)) as H.
  fold (grouped_total (group_by_series l)) in H. rewrite group_by_series_total in H.
  destruct (for_each _ (group_by_series l) _) as [o p2]; cbn [snd] in *.
  unfold episodes_step in H. cbn [with_stats stats] in H. rewrite Hs in H.
  destruct H as (Hw & Hew & Hee & Hb). rewrite Hw, Hew, Hee.
  destruct (stats p); cbn in *. repeat split; try reflexivity. right. lia.
Qed.

End Budget.

(** ** Accounting over a whole run *)

Section Runs.

Context {World : Type}.
Variable http : forall r : request, World -> outcome (reply r) * World.
Variable utcnow : World -> Z * World.
Variable lower : string -> string.
Implicit Types p : Proc World.

Lemma phases_unfold self p :
  bind (cleanup_movies http utcnow self) (fun _ => cleanup_episodes http utcnow self) p
  = match cleanup_movies http utcnow self p with
    | (Return _, p1) => cleanup_episodes http utcnow self p1
    | (Raise e, p1) => (Raise e, p1)
    end.
Proof. reflexivity. Qed.

(** C10, amended. A run that starts from fresh statistics ends with at most
    as many eligible items as watched ones in each phase, with the episode
    keep-tag counter at zero, and with the outcome counters of each phase
    at most its eligible counter, the two differences adding up to at most
    one. When the run returns, it returns these statistics and both
    differences are zero: every eligible item has exactly one outcome. *)
Theorem run_accounts (self : MediaCleanup) p :
  stats p = CleanupStats_new ->
  let o := fst (run http utcnow self p) in
  let st := stats (snd (run http utcnow self p)) in
  eligible_within_watched st
  /\ episodes_skipped_tag st = 0
  /\ movies_outcomes st <= movies_eligible st
  /\ episodes_outcomes st <= episodes_eligible st
  /\ (movies_eligible st - movies_outcomes st)
     + (episodes_eligible st - episodes_outcomes st) <= 1
  /\ (forall result, o = Return result -> result = st /\ accounts_balance st).
Proof.
  intros Hnew. cbv zeta. rewrite run_unfold.
  pose proof (counts_phases http utcnow self p) as Hc.
  unfold T_counts, movies_gap, episodes_gap in Hc.
  rewrite phases_unfold in *.
  pose proof (cleanup_movies_within http utcnow self p) as Hm. cbv zeta in Hm.
  destruct (cleanup_movies http utcnow self p) as [[[]|e] p1]; cbn [fst snd] in *.
  - pose proof (cleanup_episodes_within http utcnow self p1) as He. cbv zeta in He.
    destruct (cleanup_episodes http utcnow self p1) as [[[]|e] p2]; cbn [fst snd error_of] in *.
    all: rewrite Hnew in *; unfold eligible_within_watched, accounts_balance,
           movies_outcomes, episodes_outcomes in *; cbn in *.
    all: destruct Hc as (K1 & K2 & K3 & K4 & K5).
    all: destruct Hm as (M1 & M2 & [M3|M3]); destruct He as (E1 & E2 & [E3|E3]).
    all: try rewrite M3 in *; try rewrite E3 in *; cbn in *.
    all: repeat split; try lia.
    all: try (intros result [= <-]); try discriminate; try reflexivity.
    all: try (destruct (K5 eq_refl); lia).
    all: match goal with H : Return _ = Return _ |- _ => now injection H as <- end.
  - cbn [error_of] in *.
    rewrite Hnew in *; unfold eligible_within_watched, accounts_balance,
      movies_outcomes, episodes_outcomes in *; cbn in *.
    destruct Hc as (K1 & K2 & K3 & K4 & K5).
    destruct Hm as (M1 & M2 & [M3|M3]).
    all: try rewrite M3 in *; cbn in *.
    all: repeat split; try lia; discriminate.
Qed.

End Runs.

(** C10, as stated, fails: a run cut short by a transport failure has just
    counted a movie eligible and gives it no outcome. *)
Lemma aborted_run_leaves_eligible_movie_unaccounted :
  stats (Scenario.start Scenario.catalog_down) = CleanupStats_new
  /\ ~ accounts_balance
        (stats (snd (run Scenario.http Scenario.utcnow (Scenario.cleanup true None)
                         (Scenario.start Scenario.catalog_down)))).
Proof.
  split; [reflexivity|]. vm_compute. intros [H _]. discriminate H.
Qed.

(** The fresh start matters: the statistics object is never reset, so a
    second [run] on the same process adds to the eligible counter while the
    watched counter is set anew. *)
Lemma second_run_outgrows_watched :
  let self := Scenario.cleanup true None in
  let p1 := snd (run Scenario.http Scenario.utcnow self
                     (Scenario.start (Scenario.one_movie []))) in
  let st := stats (snd (run Scenario.http Scenario.utcnow self p1)) in
  movies_watched st = 1 /\ movies_eligible st = 2.
Proof. cbv zeta. split; vm_compute; reflexivity. Qed.

Lemma run_accounts_witness :
  stats (Scenario.start (Scenario.one_movie [])) = CleanupStats_new
  /\ accounts_balance
       (stats (snd (run Scenario.http Scenario.utcnow (Scenario.cleanup true None)
                        (Scenario.start (Scenario.one_movie []))))).
Proof.
  split; [reflexivity|].
  destruct (run_accounts Scenario.http Scenario.utcnow (Scenario.cleanup true None)
              (Scenario.start (Scenario.one_movie [])) eq_refl)
    as (_ & _ & _ & _ & _ & H).
  apply (H (stats (snd (run Scenario.http Scenario.utcnow (Scenario.cleanup true None)
                           (Scenario.start (Scenario.one_movie [])))))).
  vm_compute. reflexivity.
Defined.

Section Errors.

Context {World : Type}.
Variable http : forall r : request, World -> outcome (reply r) * World.
Variable utcnow : World -> Z * World.
Implicit Types p : Proc World.

(** C9. In every run: the statistics are reported exactly once, as they
    stand at the end; a collaborator call that raises is the last call the
    run makes, and the run raises that very exception; a run that raises a
    transport exception got it from its last call. The lookups work on the
    movie catalog that [_get_all_radarr_movies] hands back: the cached one,
    or, on an empty cache, what the service lists now. The matcher by path
    returns [None] exactly when that catalog could be had and no entry of it
    has the path, and the matcher by provider id likewise; when the catalog
    cannot be had each of them raises what the fetch raised, which is what
    the service call raised. The two matchers in a row return [None] when
    neither matches, doing nothing beyond that fetch. The episode lookup
    returns [None] exactly when it leaves the series cached, the episodes
    of every series cached and none of them with the path; it raises what
    the fetch of the series raised. An eligible movie that neither matcher
    finds, and an eligible episode that the lookup does not find, are
    counted as not found while the loop body returns normally. *)
Theorem transport_failure_propagates_not_found_returns (self : MediaCleanup) p :
  let o := fst (run http utcnow self p) in
  let p' := snd (run http utcnow self p) in
  summaries p' = (summaries p ++ [stats p'])%list
  /\ (exists new,
        calls p' = (calls p ++ new)%list
        /\ (forall c e, In c new -> call_error c = Some e ->
              o = Raise e /\ exists pre, new = (pre ++ [c])%list /\ Forall succeeded pre)
        /\ (forall d, o = Raise (RequestException d) ->
              exists pre c, new = (pre ++ [c])%list
                            /\ call_error c = Some (RequestException d)))
  /\ (forall cache,
        _movies_cache (mapper p) = Some cache ->
        _get_all_radarr_movies http p = (Return cache, p))
  /\ (forall movies w,
        _movies_cache (mapper p) = None ->
        http GET_radarr_movie (world p) = (Return movies, w) ->
        fst (_get_all_radarr_movies http p)
        = Return (dict_of Z.eqb id (fun m => m) (filter hasFile movies)))
  /\ (forall path,
        fst (find_radarr_movie_by_path http path p) = Return None
        <-> exists cache,
              fst (_get_all_radarr_movies http p) = Return cache
              /\ no_path_match (radarr_prefix (mapper p))
                   (_normalize_path path (jellyfin_movie_prefix (mapper p))) cache)
  /\ (forall tmdb,
        fst (find_radarr_movie_by_tmdb http tmdb p) = Return None
        <-> exists cache,
              fst (_get_all_radarr_movies http p) = Return cache
              /\ no_tmdb_match tmdb cache)
  /\ (forall path tmdb e,
        fst (_get_all_radarr_movies http p) = Raise e ->
        fst (http GET_radarr_movie (world p)) = Raise e
        /\ fst (find_radarr_movie_by_path http path p) = Raise e
        /\ fst (find_radarr_movie_by_tmdb http tmdb p) = Raise e)
  /\ (forall path tmdb cache,
        fst (_get_all_radarr_movies http p) = Return cache ->
        no_path_match (radarr_prefix (mapper p))
                      (_normalize_path path (jellyfin_movie_prefix (mapper p))) cache ->
        truthy_str tmdb = false \/ no_tmdb_match (or_default tmdb "") cache ->
        resolve_radarr_movie http path tmdb p
        = (Return None, snd (_get_all_radarr_movies http p)))
  /\ (forall path,
        let r := find_sonarr_episode_by_path http path None p in
        fst r = Return None
        <-> exists series,
              _series_cache (mapper (snd r)) = Some series
              /\ no_series_match (sonarr_prefix (mapper p))
                   (_normalize_path path (jellyfin_tv_prefix (mapper p)))
                   (_episodes_cache (mapper (snd r))) (dict_keys series))
  /\ (forall path e,
        fst (_get_all_sonarr_series http p) = Raise e ->
        fst (find_sonarr_episode_by_path http path None p) = Raise e)
  /\ (forall movie text cache,
        LastPlayedDate movie = Some text ->
        fst (_is_past_grace_period utcnow self text p) = Return true ->
        let q := counted_eligible utcnow c_movies_eligible p in
        fst (_get_all_radarr_movies http q) = Return cache ->
        no_path_match (radarr_prefix (mapper p))
                      (_normalize_path (or_default (Path movie) "unknown")
                                       (jellyfin_movie_prefix (mapper p))) cache ->
        truthy_str (Tmdb movie) = false \/ no_tmdb_match (or_default (Tmdb movie) "") cache ->
        cleanup_movie http utcnow self movie p
        = (Return tt,
           with_stats (plus_one c_movies_skipped_not_found)
                      (snd (_get_all_radarr_movies http q)))
        /\ stats (snd (cleanup_movie http utcnow self movie p))
           = movie_verdict_stats NotFoundSkip (stats p))
  /\ (forall episode text series,
        LastPlayedDate episode = Some text ->
        fst (_is_past_grace_period utcnow self text p) = Return true ->
        let r := find_sonarr_episode_by_path http (or_default (Path episode) "unknown") None
                   (counted_eligible utcnow c_episodes_eligible p) in
        _series_cache (mapper (snd r)) = Some series ->
        no_series_match (sonarr_prefix (mapper p))
                        (_normalize_path (or_default (Path episode) "unknown")
                                         (jellyfin_tv_prefix (mapper p)))
                        (_episodes_cache (mapper (snd r))) (dict_keys series) ->
        cleanup_episode http utcnow self episode p
        = (Return tt, with_stats (plus_one c_episodes_skipped_not_found) (snd r))
        /\ stats (snd (cleanup_episode http utcnow self episode p))
           = episode_verdict_stats NotFoundSkip (stats p)).
Proof.
  cbv zeta. split; [apply run_reports_once|].
  split; [|split; [|split; [|split; [|split; [|split; [|split; [|split; [|split; [|split]]]]]]]]].
  - destruct (run_failure_is_last http utcnow self p) as (new & Hc & HP).
    exists new. split; [exact Hc|]. split.
    + intros c e Hin He.
      destruct (failure_is_last_inv _ _ _ _ HP Hin He) as [Ho Hpre].
      split; [|exact Hpre].
      destruct (fst (run http utcnow self p)); cbn in Ho; congruence.
    + intros d Ho. rewrite Ho in HP. cbn in HP.
      destruct HP as [[Hi _]|(pre & c & Hn & _ & Hcall)].
      * unfold internal in Hi. destruct Hi as [Hi|[Hi|[Hi|Hi]]]; discriminate Hi.
      * exists pre, c. split; assumption.
  - intros cache. apply get_all_radarr_movies_again.
  - intros movies w. apply get_all_radarr_movies_fresh.
  - intros path. apply find_radarr_movie_by_path_none_iff.
  - intros tmdb. apply find_radarr_movie_by_tmdb_none_iff.
  - intros path tmdb e He. split; [apply (get_all_radarr_movies_raises http p e He)|].
    split; [apply find_radarr_movie_by_path_fetch_raises, He
           | apply find_radarr_movie_by_tmdb_fetch_raises, He].
  - intros path tmdb cache. apply resolve_radarr_movie_not_found.
  - intros path. apply (find_sonarr_episode_by_path_none_iff http path p).
  - intros path e. apply find_sonarr_episode_by_path_fetch_raises.
  - intros movie text cache Hlp Hpast Hc Hn Ht.
    rewrite (cleanup_movie_not_found http utcnow self movie cache text p Hlp Hpast Hc Hn Ht).
    split; [reflexivity|]. cbn [snd with_stats stats].
    destruct (frame_get_all_radarr_movies http (counted_eligible utcnow c_movies_eligible p))
      as [-> _].
    now destruct (counted_eligible_frame utcnow c_movies_eligible p) as (_ & _ & _ & ->).
  - intros episode text series Hlp Hpast Hs Hno.
    rewrite (cleanup_episode_not_found http utcnow self episode series text p Hlp Hpast Hs Hno).
    split; [reflexivity|]. cbn [snd with_stats stats].
    destruct (frame_find_sonarr_episode_by_path http (or_default (Path episode) "unknown") None
                (counted_eligible utcnow c_episodes_eligible p)) as [-> _].
    now destruct (counted_eligible_frame utcnow c_episodes_eligible p) as (_ & _ & _ & ->).
Qed.

End Errors.

Lemma transport_failure_propagates_not_found_returns_witness :
  let self := Scenario.cleanup false None in
  let failed := call_of GET_radarr_movie (Raise (RequestException "503 Service Unavailable")) in
  (let p := Scenario.start Scenario.catalog_down in
   In failed (calls (snd (run Scenario.http Scenario.utcnow self p)))
   /\ call_error failed = Some (RequestException "503 Service Unavailable")
   /\ fst (run Scenario.http Scenario.utcnow self p)
      = Raise (RequestException "503 Service Unavailable"))
  /\ (let p := Scenario.start (Scenario.one_movie []) in
      let movie := Scenario.watched "/media/movies/Heat (1995)/Heat (1995).mkv" 1 None in
      _movies_cache (mapper p) = None
      /\ fst (find_radarr_movie_by_path Scenario.http
                "/media/movies/Heat (1995)/Heat (1995).mkv" p) = Return None
      /\ fst (cleanup_movie Scenario.http Scenario.utcnow self movie p) = Return tt
      /\ stats (snd (cleanup_movie Scenario.http Scenario.utcnow self movie p))
         = movie_verdict_stats NotFoundSkip (stats p))
  /\ (let p := Scenario.start Scenario.one_series in
      let episode := Scenario.watched "/media/tv/Dark/Season 1/Dark S01E02.mkv" 1 None in
      _series_cache (mapper p) = None
      /\ fst (cleanup_episode Scenario.http Scenario.utcnow self episode p) = Return tt
      /\ stats (snd (cleanup_episode Scenario.http Scenario.utcnow self episode p))
         = episode_verdict_stats NotFoundSkip (stats p)).
Proof.
  cbv zeta. split; [|split].
  - split; [vm_compute; auto|]. split; [reflexivity|].
    destruct (transport_failure_propagates_not_found_returns
                Scenario.http Scenario.utcnow (Scenario.cleanup false None)
                (Scenario.start Scenario.catalog_down))
      as (_ & (new & Hc & Hfail & _) & _).
    cbn [Scenario.start calls app] in Hc.
    refine (proj1 (Hfail (call_of GET_radarr_movie
                            (Raise (RequestException "503 Service Unavailable"))) _ _ eq_refl)).
    rewrite <- Hc. vm_compute. auto.
  - destruct (transport_failure_propagates_not_found_returns
                Scenario.http Scenario.utcnow (Scenario.cleanup false None)
                (Scenario.start (Scenario.one_movie [])))
      as (_ & _ & _ & _ & Hpath & _ & _ & _ & _ & _ & Hmovie & _).
    split; [reflexivity|]. split.
    + apply Hpath. eexists. split; [vm_compute; reflexivity|].
      intros k m [E|[]] _. injection E as <- <-. eexists. split; [reflexivity|].
      vm_compute. discriminate.
    + destruct (Hmovie (Scenario.watched "/media/movies/Heat (1995)/Heat (1995).mkv" 1 None)
                  (Aware (1 * microseconds_per_day))
                  [(3, Scenario.in_catalog 3 ("/movies/" ++ Scenario.the_matrix) (Some 603) [])]
                  eq_refl eq_refl eq_refl) as [Hr Hst].
      * intros k m [E|[]] _. injection E as <- <-. eexists. split; [reflexivity|].
        vm_compute. discriminate.
      * left. reflexivity.
      * split; [now rewrite Hr | exact Hst].
  - destruct (transport_failure_propagates_not_found_returns
                Scenario.http Scenario.utcnow (Scenario.cleanup false None)
                (Scenario.start Scenario.one_series))
      as (_ & _ & _ & _ & _ & _ & _ & _ & _ & _ & _ & Hepisode).
    split; [reflexivity|].
    destruct (Hepisode (Scenario.watched "/media/tv/Dark/Season 1/Dark S01E02.mkv" 1 None)
                (Aware (1 * microseconds_per_day)) [(4, {| series_id := 4 |})]
                eq_refl eq_refl eq_refl) as [Hr Hst].
    + intros sid [<-|[]]. eexists. split; [vm_compute; reflexivity|].
      intros e [<-|[]] _. eexists. split; [reflexivity|]. vm_compute. discriminate.
    + split; [now rewrite Hr | exact Hst].
Defined.

(** ** The matcher chain and the order of the checks *)

Section Chain.

Context {World : Type}.
Variable http : forall r : request, World -> outcome (reply r) * World.
Variable utcnow : World -> Z * World.
Implicit Types p : Proc World.

(** On a cached catalog the resolution sends nothing and changes nothing. *)
Lemma resolve_on_cache path tmdb cache p :
  _movies_cache (mapper p) = Some cache ->
  resolve_radarr_movie http path tmdb p = (chain_on (mapper p) cache path tmdb, p).
Proof.
  intros Hc.
  unfold resolve_radarr_movie, find_radarr_movie_by_path, find_radarr_movie_by_tmdb,
    _get_all_radarr_movies, chain_on, bind, get_mapper, ret.
  rewrite Hc. cbn.
  destruct (scan_movies_by_path _ _ cache) as [r|e]; [|reflexivity].
  destruct (negb (truthy_id r)); [|reflexivity].
  destruct (truthy_str tmdb); [|reflexivity].
  rewrite Hc. reflexivity.
Qed.

(** The code and the document agree on the chain as long as the path match
    does not come back with identifier 0. *)
Lemma chain_meets_spec mp cache path tmdb :
  scan_movies_by_path (radarr_prefix mp)
    (_normalize_path path (jellyfin_movie_prefix mp)) cache <> Return (Some 0) ->
  chain_on mp cache path tmdb = chain_spec mp cache path tmdb.
Proof.
  unfold chain_on, chain_spec. intros H.
  destruct (scan_movies_by_path _ _ cache) as [[i|]|e]; [| |reflexivity].
  - cbn. destruct (Z.eqb_spec i 0) as [->|_]; [congruence | reflexivity].
  - cbn. destruct tmdb as [t|]; cbn; [destruct (PyStr.truthy t)|]; reflexivity.
Qed.

(** Steps 3, 5 and 6 for a movie that resolves to a catalog entry with an
    identifier other than 0: it is counted eligible; with the keep tag it
    is counted skipped and nothing more is sent; otherwise the deletion is
    the one further call (none in a dry run) and its answer decides between
    deleted and failed. The catalog is the one the resolution works on,
    cached before or fetched now. *)
Lemma cleanup_movie_matched self movie cache text i entry p :
  LastPlayedDate movie = Some text ->
  fst (_is_past_grace_period utcnow self text p) = Return true ->
  let p1 := snd (_get_all_radarr_movies http (counted_eligible utcnow c_movies_eligible p)) in
  fst (_get_all_radarr_movies http (counted_eligible utcnow c_movies_eligible p))
  = Return cache ->
  chain_on (mapper p) cache (or_default (Path movie) "unknown") (Tmdb movie)
    = Return (Some i) ->
  i <> 0 ->
  dict_get Z.eqb i cache = Some entry ->
  let r := cleanup_movie http utcnow self movie p in
  if _has_keep_tag (tags entry) (radarr_keep_tag_id self) then
    fst r = Return tt /\ calls (snd r) = calls p1
    /\ stats (snd r) = movie_verdict_stats TagSkip (stats p)
  else if dry_run (config self) then
    fst r = Return tt /\ calls (snd r) = calls p1
    /\ stats (snd r) = movie_verdict_stats Deleted (stats p)
  else
    exists o : outcome Z,
      calls (snd r) = (calls p1 ++ [call_of (DELETE_radarr_movie i) o])%list
      /\ match o with
         | Return status_code =>
             fst r = Return tt
             /\ stats (snd r)
                = movie_verdict_stats (if status_code =? 200 then Deleted else Failed) (stats p)
         | Raise e =>
             fst r = Raise e /\ stats (snd r) = movie_verdict_stats Aborted (stats p)
         end.
Proof.
  intros Hlp Hpast. cbv zeta. intros Hc Hchain Hi Hget.
  remember (cleanup_movie http utcnow self movie p) as r eqn:Hr.
  rewrite (cleanup_movie_resolved http utcnow self movie text cache p Hlp Hpast Hc) in Hr.
  rewrite Hchain in Hr. apply Z.eqb_neq in Hi. rewrite Hi, Hget in Hr.
  assert (Hst : stats (snd (_get_all_radarr_movies http
                              (counted_eligible utcnow c_movies_eligible p)))
                = plus_one c_movies_eligible (stats p)).
  { destruct (frame_get_all_radarr_movies http (counted_eligible utcnow c_movies_eligible p))
      as [-> _].
    now destruct (counted_eligible_frame utcnow c_movies_eligible p) as (_ & _ & _ & ->). }
  remember (snd (_get_all_radarr_movies http (counted_eligible utcnow c_movies_eligible p)))
    as p1 eqn:Hp1. clear Hp1.
  destruct (_has_keep_tag (tags entry) (radarr_keep_tag_id self)).
  { subst r. cbn -[plus_one]. now rewrite Hst. }
  unfold delete_radarr_movie in Hr.
  destruct (dry_run (config self)).
  { subst r. unfold bind, ret, incr, modify_stats. cbn -[plus_one update_counter].
    fold (plus_one c_movies_deleted). now rewrite Hst. }
  unfold bind at 1 in Hr. unfold bind at 1 in Hr. unfold send in Hr.
  change (reply (DELETE_radarr_movie i)) with Z in Hr.
  destruct (http (DELETE_radarr_movie i) (world p1)) as [[code|e] w2].
  - exists (Return code). subst r. unfold bind, modify_mapper, ret, incr, modify_stats.
    destruct (code =? 200); cbn -[plus_one update_counter];
      fold (plus_one c_movies_deleted); fold (plus_one c_movies_failed); now rewrite Hst.
  - exists (Raise e). subst r. cbn -[plus_one update_counter]. now rewrite Hst.
Qed.

(** For a movie that resolves to a catalog entry, the keep-tag counter moves
    exactly when the entry's tags hold the resolved keep-tag id. *)
Lemma cleanup_movie_tag_decides self movie cache text i entry p :
  LastPlayedDate movie = Some text ->
  fst (_is_past_grace_period utcnow self text p) = Return true ->
  fst (_get_all_radarr_movies http (counted_eligible utcnow c_movies_eligible p))
  = Return cache ->
  chain_on (mapper p) cache (or_default (Path movie) "unknown") (Tmdb movie)
    = Return (Some i) ->
  i <> 0 ->
  dict_get Z.eqb i cache = Some entry ->
  movies_skipped_tag (stats (snd (cleanup_movie http utcnow self movie p)))
  = movies_skipped_tag (stats p)
    + (if _has_keep_tag (tags entry) (radarr_keep_tag_id self) then 1 else 0).
Proof.
  intros Hlp Hpast Hc Hchain Hi Hget.
  pose proof (cleanup_movie_matched self movie cache text i entry p
                Hlp Hpast Hc Hchain Hi Hget) as H.
  cbv zeta in H.
  destruct (_has_keep_tag (tags entry) (radarr_keep_tag_id self)).
  { destruct H as (_ & _ & ->). destruct (stats p); cbn; lia. }
  destruct (dry_run (config self)).
  { destruct H as (_ & _ & ->). destruct (stats p); cbn; lia. }
  destruct H as ([code|e] & _ & _ & ->).
  - destruct (code =? 200); destruct (stats p); cbn; lia.
  - destruct (stats p); cbn; lia.
Qed.

End Chain.

(** ** The keep tag *)

Section KeepTag.

Context {World : Type}.
Variable http : forall r : request, World -> outcome (reply r) * World.
Variable utcnow : World -> Z * World.
Variable lower : string -> string.
Implicit Types p : Proc World.

Lemma mem_Z_In (k : Z) (l : list Z) : mem_Z k l = true <-> In k l.
Proof.
  induction l as [|x r IH]; cbn [mem_Z In]; [split; [discriminate | tauto]|].
  rewrite orb_true_iff, IH, Z.eqb_eq. split; intros [H|H]; auto.
Qed.

Lemma first_tag_none (keep : string) (items : dict Z string) :
  first_tag lower keep items = None
  <-> forall tid lbl, In (tid, lbl) items -> lower lbl <> lower keep.
Proof.
  induction items as [|[k l] r IH]; cbn [first_tag In].
  - split; [intros _ tid lbl [] | reflexivity].
  - destruct (String.eqb_spec (lower l) (lower keep)) as [E|E].
    + split; [discriminate|]. intros H. destruct (H k l (or_introl eq_refl) E).
    + rewrite IH. split.
      * intros H tid lbl [[= <- <-]|Hin]; [exact E | exact (H tid lbl Hin)].
      * intros H tid lbl Hin. apply (H tid lbl). right. exact Hin.
Qed.

Lemma first_tag_some (keep : string) (items : dict Z string) (k : Z) :
  first_tag lower keep items = Some k ->
  exists lbl, In (k, lbl) items /\ lower lbl = lower keep.
Proof.
  induction items as [|[k' l] r IH]; cbn [first_tag In]; [discriminate|].
  destruct (String.eqb_spec (lower l) (lower keep)) as [E|E].
  - intros [= <-]. exists l. auto.
  - intros H. destruct (IH H) as (lbl & Hin & Hl). exists lbl. auto.
Qed.

Lemma dict_get_set_same {V} (k : string) (v : V) (d : dict string V) :
  dict_get String.eqb k (dict_set String.eqb k v d) = Some v.
Proof.
  induction d as [|[k' v'] r IH]; cbn [dict_set dict_get].
  - now rewrite String.eqb_refl.
  - destruct (String.eqb k k') eqn:E; cbn [dict_get]; rewrite E; [reflexivity | exact IH].
Qed.

(** What [_get_keep_tag_id] returns is the first id, in the order of the
    service's tag dictionary, whose label equals the configured label when
    both are lower-cased. *)
Lemma get_keep_tag_id_first cfg service p :
  wp (_get_keep_tag_id http lower cfg service)
     (fun o p' =>
        forall r, o = Return r ->
          exists tags,
            dict_get String.eqb (service_key service) (_tags_cache (mapper p')) = Some tags
            /\ r = first_tag lower (keep_tag_label cfg) tags) p.
Proof.
  unfold wp, _get_keep_tag_id, service_key, bind, ret.
  destruct (String.eqb service "radarr").
  - unfold get_radarr_tags, bind, get_mapper, ret, modify_mapper, send.
    destruct (dict_get String.eqb "radarr" (_tags_cache (mapper p))) as [d|] eqn:E.
    + cbn. intros r [= <-]. exists d. auto.
    + destruct (http GET_radarr_tag (world p)) as [[l|e] w]; cbn; [|discriminate].
      intros r [= <-]. exists (tag_dict l). split; [apply dict_get_set_same | reflexivity].
  - unfold get_sonarr_tags, bind, get_mapper, ret, modify_mapper, send.
    destruct (dict_get String.eqb "sonarr" (_tags_cache (mapper p))) as [d|] eqn:E.
    + cbn. intros r [= <-]. exists d. auto.
    + destruct (http GET_sonarr_tag (world p)) as [[l|e] w]; cbn; [|discriminate].
      intros r [= <-]. exists (tag_dict l). split; [apply dict_get_set_same | reflexivity].
Qed.

(** What [_get_keep_tag_id] computes when the tags of the service are not
    cached: the first match in the dictionary made of the tags the service
    lists now. *)
Lemma get_keep_tag_id_fresh cfg p (tags : list Tag) (w : World) :
  (dict_get String.eqb "radarr" (_tags_cache (mapper p)) = None ->
   http GET_radarr_tag (world p) = (Return tags, w) ->
   fst (_get_keep_tag_id http lower cfg "radarr" p)
   = Return (first_tag lower (keep_tag_label cfg) (tag_dict tags)))
  /\ (dict_get String.eqb "sonarr" (_tags_cache (mapper p)) = None ->
      http GET_sonarr_tag (world p) = (Return tags, w) ->
      fst (_get_keep_tag_id http lower cfg "sonarr" p)
      = Return (first_tag lower (keep_tag_label cfg) (tag_dict tags))).
Proof.
  split; intros Hc Hw; unfold _get_keep_tag_id.
  - rewrite String.eqb_refl.
    unfold get_radarr_tags, bind, get_mapper, ret, modify_mapper, send.
    rewrite Hc. change (reply GET_radarr_tag) with (list Tag) in *. now rewrite Hw.
  - change (String.eqb "sonarr" "radarr") with false. cbv iota.
    unfold get_sonarr_tags, bind, get_mapper, ret, modify_mapper, send.
    rewrite Hc. change (reply GET_sonarr_tag) with (list Tag) in *. now rewrite Hw.
Qed.

(** The resolved id is the id of a tag the service listed, whose label is
    the configured one when both are lower-cased. *)
Lemma first_tag_listed (keep : string) (tags : list Tag) (k : Z) :
  first_tag lower keep (tag_dict tags) = Some k ->
  exists t, In t tags /\ tag_id t = k /\ lower (label t) = lower keep.
Proof.
  intros H. destruct (first_tag_some _ _ _ H) as (lbl & Hin & Hl).
  apply In_dict_get in Hin; [|apply dict_of_NoDup].
  unfold tag_dict in Hin. rewrite dict_of_get in Hin.
  destruct (find (fun x => tag_id x =? k) (rev tags)) as [t|] eqn:E; [|discriminate].
  injection Hin as <-. destruct (find_some _ _ E) as [Hin Hk].
  exists t. split; [now apply in_rev|]. split; [now apply Z.eqb_eq | exact Hl].
Qed.

(** Among tags with distinct ids, nothing is resolved exactly when no
    listed tag has the label. *)
Lemma first_tag_unlisted (keep : string) (tags : list Tag) :
  NoDup (map tag_id tags) ->
  first_tag lower keep (tag_dict tags) = None
  <-> forall t, In t tags -> lower (label t) <> lower keep.
Proof.
  intros Hnd. unfold tag_dict. rewrite (dict_of_distinct tag_id label tags Hnd).
  rewrite first_tag_none. split.
  - intros H t Hin. apply (H (tag_id t) (label t)).
    apply in_map_iff. exists t. auto.
  - intros H tid lbl Hin. apply in_map_iff in Hin as (t & [= <- <-] & Hin). apply H, Hin.
Qed.

(** The keep-tag ids of a constructed object are what the constructor
    resolved from the tags each service listed. *)
Lemma MediaCleanup_init_keep_tags
      (cfg : CleanupConfig) (jm jt rp sp : string) p (self : MediaCleanup) :
  fst (MediaCleanup_init http lower cfg jm jt rp sp p) = Return self ->
  exists (users : list JellyfinUser) (rtags stags : list Tag) (w1 w2 w3 : World),
    http GET_jellyfin_Users (world p) = (Return users, w1)
    /\ http GET_radarr_tag w1 = (Return rtags, w2)
    /\ http GET_sonarr_tag w2 = (Return stags, w3)
    /\ radarr_keep_tag_id self = first_tag lower (keep_tag_label cfg) (tag_dict rtags)
    /\ sonarr_keep_tag_id self = first_tag lower (keep_tag_label cfg) (tag_dict stags).
Proof.
  remember (MediaCleanup_init http lower cfg jm jt rp sp p) as r eqn:Hr.
  unfold MediaCleanup_init, _get_primary_user_id, get_jellyfin_users, _get_keep_tag_id,
    get_radarr_tags, get_sonarr_tags, bind, modify_stats, modify_mapper, get_mapper,
    send, ret, raise in Hr.
  cbn -[tag_dict first_tag first_user app] in Hr.
  change (reply GET_jellyfin_Users) with (list JellyfinUser) in Hr.
  destruct (http GET_jellyfin_Users (world p)) as [[users|e] w1] eqn:E1.
  2: { subst r. cbn [fst]. intros H. discriminate H. }
  destruct (first_user lower (primary_user_name cfg) users) as [u|] eqn:Eu.
  2: { subst r. cbn [fst]. intros H. discriminate H. }
  cbn -[tag_dict first_tag first_user app] in Hr.
  change (reply GET_radarr_tag) with (list Tag) in Hr.
  destruct (http GET_radarr_tag w1) as [[rtags|e] w2] eqn:E2.
  2: { subst r. cbn [fst]. intros H. discriminate H. }
  cbn -[tag_dict first_tag first_user app] in Hr.
  change (reply GET_sonarr_tag) with (list Tag) in Hr.
  destruct (http GET_sonarr_tag w2) as [[stags|e] w3] eqn:E3.
  2: { subst r. cbn [fst]. intros H. discriminate H. }
  subst r. cbn [fst]. intros [= <-].
  exists users, rtags, stags, w1, w2, w3.
  repeat split; first [reflexivity | assumption].
Qed.

Lemma movies_skipped_tag_verdict v st :
  movies_skipped_tag (movie_verdict_stats v st)
  = movies_skipped_tag st + match v with TagSkip => 1 | _ => 0 end.
Proof. destruct st, v; cbn; lia. Qed.

(** C2. An item counts as kept exactly when a keep-tag id was resolved and
    the item's tag ids contain it. Resolution takes the first tag of the
    service's tag dictionary whose lower-cased label equals the lower-cased
    configured label, and yields nothing exactly when no label does. That
    dictionary is the cached one or, when the service's tags are not
    cached, the one made of the tags the service lists now, for Radarr and
    for Sonarr alike; it maps an id to the label of the last listed tag
    with that id, and is the list itself when the ids are distinct. So a
    resolved id is the id of a listed tag with the label, and among tags
    with distinct ids nothing is resolved exactly when no listed tag has the
    label. The keep-tag ids of a constructed object are the ones resolved
    from the tags each service listed to the constructor. With no keep-tag
    id resolved for Radarr, no movie is ever skipped for its tags, whatever
    they are; and an eligible movie that resolves to an entry of the
    catalog, cached or fetched for it, is skipped for its tags exactly when
    the entry's tags hold the resolved id: then the loop body returns
    without a further call, and otherwise the movie goes on to the
    deletion (the one further call, none in a dry run). No episode is ever
    skipped for its tags. *)
Theorem keep_tag_exclusion_fails_open :
  (forall item_tags keep_tag_id,
      _has_keep_tag item_tags keep_tag_id = true
      <-> exists k, keep_tag_id = Some k /\ In k item_tags)
  /\ (forall item_tags, _has_keep_tag item_tags None = false)
  /\ (forall keep tags,
        first_tag lower keep tags = None
        <-> forall tid lbl, In (tid, lbl) tags -> lower lbl <> lower keep)
  /\ (forall cfg service p r,
        fst (_get_keep_tag_id http lower cfg service p) = Return r ->
        exists tags,
          dict_get String.eqb (service_key service)
                   (_tags_cache (mapper (snd (_get_keep_tag_id http lower cfg service p))))
          = Some tags
          /\ r = first_tag lower (keep_tag_label cfg) tags)
  /\ (forall cfg p (tags : list Tag) w,
        dict_get String.eqb "radarr" (_tags_cache (mapper p)) = None ->
        http GET_radarr_tag (world p) = (Return tags, w) ->
        fst (_get_keep_tag_id http lower cfg "radarr" p)
        = Return (first_tag lower (keep_tag_label cfg) (tag_dict tags)))
  /\ (forall cfg p (tags : list Tag) w,
        dict_get String.eqb "sonarr" (_tags_cache (mapper p)) = None ->
        http GET_sonarr_tag (world p) = (Return tags, w) ->
        fst (_get_keep_tag_id http lower cfg "sonarr" p)
        = Return (first_tag lower (keep_tag_label cfg) (tag_dict tags)))
  /\ (forall tags k,
        dict_get Z.eqb k (tag_dict tags)
        = option_map label (find (fun t => tag_id t =? k) (rev tags)))
  /\ (forall tags,
        NoDup (map tag_id tags) ->
        tag_dict tags = map (fun t => (tag_id t, label t)) tags)
  /\ (forall keep tags k,
        first_tag lower keep (tag_dict tags) = Some k ->
        exists t, In t tags /\ tag_id t = k /\ lower (label t) = lower keep)
  /\ (forall keep tags,
        NoDup (map tag_id tags) ->
        first_tag lower keep (tag_dict tags) = None
        <-> forall t, In t tags -> lower (label t) <> lower keep)
  /\ (forall cfg jm jt rp sp p self,
        fst (MediaCleanup_init http lower cfg jm jt rp sp p) = Return self ->
        exists (users : list JellyfinUser) (rtags stags : list Tag) (w1 w2 w3 : World),
          http GET_jellyfin_Users (world p) = (Return users, w1)
          /\ http GET_radarr_tag w1 = (Return rtags, w2)
          /\ http GET_sonarr_tag w2 = (Return stags, w3)
          /\ radarr_keep_tag_id self = first_tag lower (keep_tag_label cfg) (tag_dict rtags)
          /\ sonarr_keep_tag_id self
             = first_tag lower (keep_tag_label cfg) (tag_dict stags))
  /\ (forall self movie p,
        radarr_keep_tag_id self = None ->
        movies_skipped_tag (stats (snd (cleanup_movie http utcnow self movie p)))
        = movies_skipped_tag (stats p))
  /\ (forall self movie cache text i entry p,
        LastPlayedDate movie = Some text ->
        fst (_is_past_grace_period utcnow self text p) = Return true ->
        fst (_get_all_radarr_movies http (counted_eligible utcnow c_movies_eligible p))
        = Return cache ->
        chain_on (mapper p) cache (or_default (Path movie) "unknown") (Tmdb movie)
          = Return (Some i) ->
        i <> 0 ->
        dict_get Z.eqb i cache = Some entry ->
        movies_skipped_tag (stats (snd (cleanup_movie http utcnow self movie p)))
        = movies_skipped_tag (stats p)
          + (if _has_keep_tag (tags entry) (radarr_keep_tag_id self) then 1 else 0))
  /\ (forall self movie cache text i entry p,
        LastPlayedDate movie = Some text ->
        fst (_is_past_grace_period utcnow self text p) = Return true ->
        let p1 := snd (_get_all_radarr_movies http
                         (counted_eligible utcnow c_movies_eligible p)) in
        fst (_get_all_radarr_movies http (counted_eligible utcnow c_movies_eligible p))
        = Return cache ->
        chain_on (mapper p) cache (or_default (Path movie) "unknown") (Tmdb movie)
          = Return (Some i) ->
        i <> 0 ->
        dict_get Z.eqb i cache = Some entry ->
        let r := cleanup_movie http utcnow self movie p in
        if _has_keep_tag (tags entry) (radarr_keep_tag_id self) then
          fst r = Return tt /\ calls (snd r) = calls p1
          /\ stats (snd r) = movie_verdict_stats TagSkip (stats p)
        else if dry_run (config self) then
          fst r = Return tt /\ calls (snd r) = calls p1
          /\ stats (snd r) = movie_verdict_stats Deleted (stats p)
        else
          exists o : outcome Z,
            calls (snd r) = (calls p1 ++ [call_of (DELETE_radarr_movie i) o])%list
            /\ match o with
               | Return status_code =>
                   fst r = Return tt
                   /\ stats (snd r)
                      = movie_verdict_stats (if status_code =? 200 then Deleted else Failed)
                                            (stats p)
               | Raise e =>
                   fst r = Raise e /\ stats (snd r) = movie_verdict_stats Aborted (stats p)
               end)
  /\ (forall self episode p,
        episodes_skipped_tag (stats (snd (cleanup_episode http utcnow self episode p)))
        = episodes_skipped_tag (stats p)).
Proof.
  split; [|split; [|split; [|split; [|split; [|split; [|split; [|split; [|split;
    [|split; [|split; [|split; [|split; [|split]]]]]]]]]]]]].
  14: { intros self movie cache text i entry p. apply cleanup_movie_matched. }
  14: { intros self episode p.
        destruct (cleanup_episode_verdict http utcnow self episode p)
          as (_ & v & Hst & _ & Hv).
        rewrite Hst. apply (episode_verdict_gaps v (stats p) Hv). }
  - intros item_tags [k|]; cbn [_has_keep_tag].
    + rewrite mem_Z_In. split.
      * intros H. exists k. auto.
      * intros (k' & [= <-] & H). exact H.
    + split; [discriminate | intros (k & H & _); discriminate H].
  - reflexivity.
  - apply first_tag_none.
  - intros cfg service p r. apply (get_keep_tag_id_first cfg service p).
  - intros cfg p tags w. apply (get_keep_tag_id_fresh cfg p tags w).
  - intros cfg p tags w. apply (get_keep_tag_id_fresh cfg p tags w).
  - intros tags k. apply dict_of_get.
  - intros tags. apply dict_of_distinct.
  - apply first_tag_listed.
  - apply first_tag_unlisted.
  - apply MediaCleanup_init_keep_tags.
  - intros self movie p Hk.
    destruct (cleanup_movie_verdict http utcnow self movie p) as (_ & v & Hst & _ & Htag).
    rewrite Hst, movies_skipped_tag_verdict.
    destruct v; try lia. destruct (Htag eq_refl Hk).
  - intros self movie cache text i entry p. apply cleanup_movie_tag_decides.
Qed.

End KeepTag.

Lemma keep_tag_exclusion_fails_open_witness :
  let p := Scenario.start (Scenario.one_movie [5]) in
  let movie := Scenario.watched ("/media/movies/" ++ Scenario.the_matrix) 1 None in
  let cfg := config (Scenario.cleanup false None) in
  (_movies_cache (mapper p) = None /\ _tags_cache (mapper p) = [])
  /\ fst (_get_keep_tag_id Scenario.http Scenario.lower cfg "radarr" p) = Return (Some 5)
  /\ fst (_get_keep_tag_id Scenario.http Scenario.lower cfg "sonarr" p) = Return None
  /\ movies_skipped_tag
       (stats (snd (cleanup_movie Scenario.http Scenario.utcnow
                      (Scenario.cleanup false (Some 5)) movie p))) = 1
  /\ movies_skipped_tag
       (stats (snd (cleanup_movie Scenario.http Scenario.utcnow
                      (Scenario.cleanup false None) movie p))) = 0.
Proof.
  cbv zeta.
  destruct (keep_tag_exclusion_fails_open Scenario.http Scenario.utcnow Scenario.lower)
    as (_ & _ & _ & _ & Hradarr & Hsonarr & _ & _ & _ & _ & _ & Hnone & Hsome & _).
  split; [split; reflexivity|]. split; [|split; [|split]].
  - refine (eq_trans (Hradarr (config (Scenario.cleanup false None))
                        (Scenario.start (Scenario.one_movie [5]))
                        [{| tag_id := 5; label := "Keep" |}]
                        (Scenario.one_movie [5]) eq_refl eq_refl) _).
    reflexivity.
  - refine (eq_trans (Hsonarr (config (Scenario.cleanup false None))
                        (Scenario.start (Scenario.one_movie [5])) []
                        (Scenario.one_movie [5]) eq_refl eq_refl) _).
    reflexivity.
  - refine (eq_trans
              (Hsome (Scenario.cleanup false (Some 5))
                 (Scenario.watched ("/media/movies/" ++ Scenario.the_matrix) 1 None)
                 [(3, Scenario.in_catalog 3 ("/movies/" ++ Scenario.the_matrix) (Some 603) [5])]
                 (Aware (1 * microseconds_per_day)) 3
                 (Scenario.in_catalog 3 ("/movies/" ++ Scenario.the_matrix) (Some 603) [5])
                 (Scenario.start (Scenario.one_movie [5]))
                 eq_refl eq_refl eq_refl eq_refl _ eq_refl) _);
      [discriminate | reflexivity].
  - apply (Hnone (Scenario.cleanup false None)). reflexivity.
Defined.

(** C5. The chain does not accept the first result that is present: a path
    match that comes back with identifier 0 is treated as no match, so the
    TMDb matcher runs all the same and the film it finds is the one
    resolved. *)
Theorem resolution_ignores_identifier_zero :
  let p := Scenario.start (Scenario.identifier_zero (Some "11")) in
  let path := ("/media/movies/" ++ Scenario.the_matrix)%string in
  fst (find_radarr_movie_by_path Scenario.http path p) = Return (Some 0)
  /\ fst (resolve_radarr_movie Scenario.http path (Some "11") p) = Return (Some 7)
  /\ chain_spec (MediaMapper_new "/media/movies/" "/media/tv/" "/movies/" "/tv/")
       [(0, Scenario.in_catalog 0 ("/movies/" ++ Scenario.the_matrix) (Some 603) []);
        (7, Scenario.in_catalog 7 "/movies/Star Wars (1977)/Star Wars (1977).mkv" (Some 11) [])]
       path (Some "11") = Return (Some 0).
Proof. cbv zeta. repeat split; vm_compute; reflexivity. Qed.

(** C3. The order of the checks is not kept for a movie whose catalog entry
    has identifier 0: the path match finds the entry, the movie carries no
    keep tag, and still the run counts it as not found and sends no
    deletion. *)
Theorem matched_movie_with_identifier_zero_is_counted_not_found :
  let p := Scenario.start (Scenario.identifier_zero None) in
  let path := ("/media/movies/" ++ Scenario.the_matrix)%string in
  let r := run Scenario.http Scenario.utcnow (Scenario.cleanup false None) p in
  fst (find_radarr_movie_by_path Scenario.http path p) = Return (Some 0)
  /\ movies_eligible (stats (snd r)) = 1
  /\ movies_skipped_not_found (stats (snd r)) = 1
  /\ movies_deleted (stats (snd r)) = 0
  /\ movies_failed (stats (snd r)) = 0
  /\ existsb (fun c => mutating (call_request c)) (calls (snd r)) = false.
Proof. cbv zeta. repeat split; vm_compute; reflexivity. Qed.

(** ** Each cache is filled at most once *)

Section Populate.

Context {World : Type}.
Variable http : forall r : request, World -> outcome (reply r) * World.
Variable utcnow : World -> Z * World.
Variable k : cache_key.
Implicit Types p : Proc World.

Lemma fetch_count_app a b : fetch_count k (a ++ b) = (fetch_count k a + fetch_count k b)%nat.
Proof. unfold fetch_count. now rewrite filter_app, length_app. Qed.

Lemma fetched_once_refl m : fetched_once k m [] m.
Proof.
  intros _. destruct (populated k m); [split; reflexivity | left; reflexivity].
Qed.

Lemma fetched_once_trans m m1 m2 a b :
  fetched_once k m a m1 -> fetched_once k m1 b m2 -> fetched_once k m (a ++ b) m2.
Proof.
  unfold fetched_once. intros Ha Hb Hinv.
  rewrite existsb_app in Hinv. apply orb_false_iff in Hinv as [Hia Hib].
  specialize (Ha Hia). specialize (Hb Hib). rewrite fetch_count_app.
  destruct (populated k m).
  - destruct Ha as [Hp1 Hca]. rewrite Hp1 in Hb. destruct Hb as [Hp2 Hcb].
    split; [exact Hp2 | lia].
  - destruct Ha as [Hca|[Hca Hp1]].
    + destruct (populated k m1).
      * destruct Hb as [Hp2 Hcb]. left. lia.
      * destruct Hb as [Hcb|[Hcb Hp2]]; [left; lia | right; split; [lia | exact Hp2]].
    + rewrite Hp1 in Hb. destruct Hb as [Hp2 Hcb]. right. split; [lia | exact Hp2].
Qed.

Lemma T_pop_ok : composes (@T_pop World k).
Proof.
  split.
  - intros p. exists []. rewrite app_nil_r. split; [reflexivity | apply fetched_once_refl].
  - intros p p1 o p2 (a & Ha & Hfa) (b & Hb & Hfb). exists (a ++ b)%list.
    rewrite Hb, Ha, app_assoc. split; [reflexivity|].
    eapply fetched_once_trans; eassumption.
  - intros p e _. exists []. rewrite app_nil_r. split; [reflexivity | apply fetched_once_refl].
Qed.

(** Steps that send nothing and leave the mapper alone. *)
Lemma pop_now : obeys (T_pop k) (now utcnow).
Proof.
  intros p. unfold now. destruct (utcnow (world p)); cbn.
  exists []. rewrite app_nil_r. split; [reflexivity | apply fetched_once_refl].
Qed.

Lemma pop_modify_stats f : obeys (T_pop k) (@modify_stats World f).
Proof.
  intros p. exists []. cbn. rewrite app_nil_r. split; [reflexivity | apply fetched_once_refl].
Qed.

(** A call that is no catalog fetch, with the mapper left alone. *)
Lemma pop_send_plain (r : request) :
  (forall k', fetch_request k' r = false) -> episodefile_delete r = false ->
  obeys (T_pop k) (send http r).
Proof.
  intros Hr Hd p. unfold send. destruct (http r (world p)) as [o w]; cbn.
  exists [call_of r o]. split; [reflexivity|]. unfold fetched_once. cbn [mapper]. intros _.
  assert (Hc : fetch_count k [call_of r o] = 0%nat).
  { unfold fetch_count, fetches. cbn. now rewrite Hr. }
  rewrite Hc. destruct (populated k (mapper p)); [split; reflexivity | left; reflexivity].
Qed.

Lemma pop_get_jellyfin_watched_movies uid :
  obeys (T_pop k) (get_jellyfin_watched_movies http uid).
Proof.
  apply (pop_send_plain (GET_jellyfin_Items_Movie uid)); [intros []|]; reflexivity.
Qed.

Lemma pop_get_jellyfin_watched_episodes uid :
  obeys (T_pop k) (get_jellyfin_watched_episodes http uid).
Proof.
  apply (pop_send_plain (GET_jellyfin_Items_Episode uid)); [intros []|]; reflexivity.
Qed.

Lemma pop_get_jellyfin_users : obeys (T_pop k) (get_jellyfin_users http).
Proof. apply (pop_send_plain GET_jellyfin_Users); [intros []|]; reflexivity. Qed.

End Populate.

Ltac pop_cases :=
  try match goal with
      | |- if ?b then _ else _ => destruct b eqn:?
      end;
  auto.

Ltac pop_finish :=
  repeat match goal with
         | H : dict_get _ _ _ = None |- _ => apply dict_mem_None in H
         end;
  match goal with
  | |- fetched_once ?k _ _ _ =>
      unfold fetched_once, fetch_count, fetches; intros Hinv; destruct k;
      cbn -[dict_mem dict_set] in *;
      rewrite ?dict_mem_set_Z, ?dict_mem_set_string; cbn -[dict_mem dict_set];
      repeat match goal with H : _ = _ |- _ => rewrite H in * end;
      cbn -[dict_mem dict_set] in *; auto;
      pop_cases
  end.

Section PopulateOps.

Context {World : Type}.
Variable http : forall r : request, World -> outcome (reply r) * World.
Variable utcnow : World -> Z * World.
Variable k : cache_key.
Implicit Types p : Proc World.

Lemma pop_get_all_radarr_movies : obeys (T_pop k) (_get_all_radarr_movies http).
Proof.
  intros p. unfold _get_all_radarr_movies, bind, get_mapper, modify_mapper, send, ret.
  destruct (_movies_cache (mapper p)) as [c|] eqn:E.
  - exists []. cbn. rewrite app_nil_r. split; [reflexivity | apply fetched_once_refl].
  - destruct (http GET_radarr_movie (world p)) as [[l|e] w]; cbn;
      (eexists; split; [reflexivity|]); pop_finish.
Qed.

Lemma pop_get_all_sonarr_series : obeys (T_pop k) (_get_all_sonarr_series http).
Proof.
  intros p. unfold _get_all_sonarr_series, bind, get_mapper, modify_mapper, send, ret.
  destruct (_series_cache (mapper p)) as [c|] eqn:E.
  - exists []. cbn. rewrite app_nil_r. split; [reflexivity | apply fetched_once_refl].
  - destruct (http GET_sonarr_series (world p)) as [[l|e] w]; cbn;
      (eexists; split; [reflexivity|]); pop_finish.
Qed.

Lemma pop_get_radarr_tags : obeys (T_pop k) (get_radarr_tags http).
Proof.
  intros p. unfold get_radarr_tags, bind, get_mapper, modify_mapper, send, ret.
  destruct (dict_get String.eqb "radarr" (_tags_cache (mapper p))) as [c|] eqn:E.
  - exists []. cbn. rewrite app_nil_r. split; [reflexivity | apply fetched_once_refl].
  - destruct (http GET_radarr_tag (world p)) as [[l|e] w]; cbn;
      (eexists; split; [reflexivity|]); pop_finish.
Qed.

Lemma pop_get_sonarr_tags : obeys (T_pop k) (get_sonarr_tags http).
Proof.
  intros p. unfold get_sonarr_tags, bind, get_mapper, modify_mapper, send, ret.
  destruct (dict_get String.eqb "sonarr" (_tags_cache (mapper p))) as [c|] eqn:E.
  - exists []. cbn. rewrite app_nil_r. split; [reflexivity | apply fetched_once_refl].
  - destruct (http GET_sonarr_tag (world p)) as [[l|e] w]; cbn;
      (eexists; split; [reflexivity|]); pop_finish.
Qed.

Lemma pop_get_sonarr_episodes sid0 : obeys (T_pop k) (_get_sonarr_episodes http sid0).
Proof.
  intros p. unfold _get_sonarr_episodes, bind, get_mapper, modify_mapper, send, ret.
  destruct (dict_get Z.eqb sid0 (_episodes_cache (mapper p))) as [c|] eqn:E.
  - exists []. cbn. rewrite app_nil_r. split; [reflexivity | apply fetched_once_refl].
  - destruct (http (GET_sonarr_episode sid0) (world p)) as [[l|e] w]; cbn;
      (eexists; split; [reflexivity|]).
    + apply dict_mem_None in E.
      unfold fetched_once, fetch_count, fetches. intros _.
      destruct k; cbn -[dict_mem dict_set]; rewrite ?dict_mem_set_Z;
        try (destruct (Z.eqb_spec sid sid0) as [->|Hne]); cbn -[dict_mem];
        rewrite ?E; pop_cases; auto.
    + unfold fetched_once, fetch_count, fetches. intros _.
      destruct k; cbn -[dict_mem]; rewrite ?andb_false_r; cbn -[dict_mem]; pop_cases.
Qed.

Lemma pop_delete_radarr_movie i dry : obeys (T_pop k) (delete_radarr_movie http i dry).
Proof.
  intros p. unfold delete_radarr_movie.
  destruct dry.
  { exists []. cbn. rewrite app_nil_r. split; [reflexivity | apply fetched_once_refl]. }
  unfold bind, modify_mapper, send, ret.
  change (reply (DELETE_radarr_movie i)) with Z.
  destruct (http (DELETE_radarr_movie i) (world p)) as [[code|e] w]; cbn.
  - destruct (code =? 200); cbn; (eexists; split; [reflexivity|]).
    + destruct (_movies_cache (mapper p)) as [c|] eqn:E.
      * unfold fetched_once. cbn -[dict_mem dict_del populated fetch_count].
        rewrite E.
        match goal with
        | |- context [if ?b then set_movies_cache _ _ else _] => destruct b
        end;
          unfold fetched_once, fetch_count, fetches; intros _; destruct k; cbn;
          rewrite ?E; cbn; pop_cases.
      * unfold fetched_once, fetch_count, fetches; intros _; destruct k; cbn;
          rewrite ?E; cbn; pop_cases.
    + unfold fetched_once, fetch_count, fetches; intros _; destruct k; cbn; pop_cases.
  - eexists; split; [reflexivity|].
    unfold fetched_once, fetch_count, fetches; intros _; destruct k; cbn; pop_cases.
Qed.

Lemma pop_delete_sonarr_episode_file i dry :
  obeys (T_pop k) (delete_sonarr_episode_file http i dry).
Proof.
  intros p. unfold delete_sonarr_episode_file.
  destruct dry.
  { exists []. cbn. rewrite app_nil_r. split; [reflexivity | apply fetched_once_refl]. }
  unfold bind, modify_mapper, send, ret.
  change (reply (DELETE_sonarr_episodefile i)) with Z.
  destruct (http (DELETE_sonarr_episodefile i) (world p)) as [[code|e] w]; cbn.
  - destruct (code =? 200) eqn:Hcode; cbn; (eexists; split; [reflexivity|]).
    + unfold fetched_once, fetch_count, fetches, invalidates, answered_200.
      destruct k; cbn; rewrite ?Hcode; intros Hinv; try discriminate Hinv; pop_cases.
    + unfold fetched_once, fetch_count, fetches; intros _; destruct k; cbn; pop_cases.
  - eexists; split; [reflexivity|].
    unfold fetched_once, fetch_count, fetches; intros _; destruct k; cbn; pop_cases.
Qed.

Lemma pop_bulk_delete_sonarr_episode_files ids dry :
  obeys (T_pop k) (bulk_delete_sonarr_episode_files http ids dry).
Proof.
  intros p. unfold bulk_delete_sonarr_episode_files.
  destruct dry.
  { exists []. cbn. rewrite app_nil_r. split; [reflexivity | apply fetched_once_refl]. }
  unfold bind, modify_mapper, send, ret.
  change (reply (DELETE_sonarr_episodefile_bulk ids)) with Z.
  destruct (http (DELETE_sonarr_episodefile_bulk ids) (world p)) as [[code|e] w]; cbn.
  - destruct (code =? 200) eqn:Hcode; cbn; (eexists; split; [reflexivity|]).
    + unfold fetched_once, fetch_count, fetches, invalidates, answered_200.
      destruct k; cbn; rewrite ?Hcode; intros Hinv; try discriminate Hinv; pop_cases.
    + unfold fetched_once, fetch_count, fetches; intros _; destruct k; cbn; pop_cases.
  - eexists; split; [reflexivity|].
    unfold fetched_once, fetch_count, fetches; intros _; destruct k; cbn; pop_cases.
Qed.

End PopulateOps.

Section PopulateRun.

Context {World : Type}.
Variable http : forall r : request, World -> outcome (reply r) * World.
Variable utcnow : World -> Z * World.
Variable lower : string -> string.
Variable k : cache_key.
Implicit Types p : Proc World.

Hint Resolve pop_now pop_modify_stats pop_get_jellyfin_watched_movies
  pop_get_jellyfin_watched_episodes pop_get_jellyfin_users
  pop_get_all_radarr_movies pop_get_all_sonarr_series pop_get_radarr_tags
  pop_get_sonarr_tags pop_get_sonarr_episodes pop_delete_radarr_movie
  pop_delete_sonarr_episode_file pop_bulk_delete_sonarr_episode_files : proc.
Hint Extern 1 (obeys (T_pop _) (incr _)) => apply pop_modify_stats : proc.

Lemma pop_find_radarr_movie_by_path path :
  obeys (T_pop k) (find_radarr_movie_by_path http path).
Proof. unfold find_radarr_movie_by_path. obeys_auto (@T_pop_ok World k). Qed.

Lemma pop_find_radarr_movie_by_tmdb t :
  obeys (T_pop k) (find_radarr_movie_by_tmdb http t).
Proof. unfold find_radarr_movie_by_tmdb. obeys_auto (@T_pop_ok World k). Qed.

Hint Resolve pop_find_radarr_movie_by_path pop_find_radarr_movie_by_tmdb : proc.

Lemma pop_resolve_radarr_movie path t :
  obeys (T_pop k) (resolve_radarr_movie http path t).
Proof. unfold resolve_radarr_movie. obeys_auto (@T_pop_ok World k). Qed.

Lemma pop_scan_series sp jn sids : obeys (T_pop k) (scan_series http sp jn sids).
Proof.
  induction sids as [|sid r IH]; cbn [scan_series]; obeys_auto (@T_pop_ok World k).
Qed.

Hint Resolve pop_resolve_radarr_movie pop_scan_series : proc.

Lemma pop_find_sonarr_episode_by_path path sid :
  obeys (T_pop k) (find_sonarr_episode_by_path http path sid).
Proof. unfold find_sonarr_episode_by_path. obeys_auto (@T_pop_ok World k). Qed.

Lemma pop_is_past_grace_period self t :
  obeys (T_pop k) (_is_past_grace_period utcnow self t).
Proof. unfold _is_past_grace_period. obeys_auto (@T_pop_ok World k). Qed.

Hint Resolve pop_find_sonarr_episode_by_path pop_is_past_grace_period : proc.

Lemma pop_cleanup_movie self movie :
  obeys (T_pop k) (cleanup_movie http utcnow self movie).
Proof. unfold cleanup_movie. obeys_auto (@T_pop_ok World k). Qed.

Lemma pop_cleanup_episode self episode :
  obeys (T_pop k) (cleanup_episode http utcnow self episode).
Proof. unfold cleanup_episode. obeys_auto (@T_pop_ok World k). Qed.

Hint Resolve pop_cleanup_movie pop_cleanup_episode : proc.

Lemma pop_phases self :
  obeys (T_pop k)
        (bind (cleanup_movies http utcnow self) (fun _ => cleanup_episodes http utcnow self)).
Proof. unfold cleanup_movies, cleanup_episodes. obeys_auto (@T_pop_ok World k). Qed.

Lemma pop_run self : obeys (T_pop k) (run http utcnow self).
Proof.
  intros p. pose proof (pop_phases self p) as H. rewrite run_unfold.
  destruct (bind (cleanup_movies http utcnow self)
              (fun _ => cleanup_episodes http utcnow self) p) as [[[]|e] p1];
    cbn in *; exact H.
Qed.

Lemma pop_get_keep_tag_id cfg service :
  obeys (T_pop k) (_get_keep_tag_id http lower cfg service).
Proof. unfold _get_keep_tag_id. obeys_auto (@T_pop_ok World k). Qed.

Lemma pop_get_primary_user_id cfg :
  obeys (T_pop k) (_get_primary_user_id http lower cfg).
Proof. unfold _get_primary_user_id. obeys_auto (@T_pop_ok World k). Qed.

End PopulateRun.

(** ** What a deletion does to the caches *)

Section Deletions.

Context {World : Type}.
Variable http : forall r : request, World -> outcome (reply r) * World.
Variable utcnow : World -> Z * World.
Implicit Types p : Proc World.

Lemma dict_del_absent {V} (i : Z) (d : dict Z V) :
  dict_mem Z.eqb i d = false -> dict_del Z.eqb i d = d.
Proof.
  unfold dict_mem. induction d as [|[k0 v0] r IH]; cbn [dict_get dict_del]; [reflexivity|].
  destruct (Z.eqb i k0); [discriminate|]. intros H. now rewrite (IH H).
Qed.

(** The guarded [del] of [delete_radarr_movie] is [dict_del] in every case. *)
Lemma guarded_del {V} (i : Z) (c : dict Z V) :
  (if (negb (Nat.eqb (List.length c) 0) && dict_mem Z.eqb i c)%bool
   then dict_del Z.eqb i c else c) = dict_del Z.eqb i c.
Proof.
  destruct c as [|e r]; [reflexivity|]. cbn [List.length Nat.eqb negb andb].
  destruct (dict_mem Z.eqb i (e :: r)) eqn:E; [reflexivity|].
  symmetry. apply dict_del_absent, E.
Qed.

Lemma delete_radarr_movie_effect (i : Z) p :
  movies_cache_wf (mapper p) ->
  deletion_effect (movie_entry_removed i)
                  (fst (http (DELETE_radarr_movie i) (world p))) p
                  (delete_radarr_movie http i false p).
Proof.
  intros Hwf. unfold deletion_effect, delete_radarr_movie, bind, send, modify_mapper, ret.
  change (reply (DELETE_radarr_movie i)) with Z.
  destruct (http (DELETE_radarr_movie i) (world p)) as [[code|e] w]; cbn [fst snd].
  2: { split; reflexivity. }
  destruct (code =? 200); cbn [fst snd mapper with_mapper]; [|split; reflexivity].
  split; [reflexivity|]. unfold movie_entry_removed, movies_cache_wf in *.
  destruct (_movies_cache (mapper p)) as [c|] eqn:E; cbn [option_map].
  - pose proof (guarded_del i c) as Hg. rewrite (dict_del_without i c Hwf) in Hg.
    destruct (negb (Nat.eqb (List.length c) 0) && dict_mem Z.eqb i c)%bool.
    + cbn [set_movies_cache _movies_cache _series_cache _episodes_cache _tags_cache].
      rewrite (dict_del_without i c Hwf).
      split; [reflexivity|]. split; [intros key; apply dict_get_without|]. repeat split.
    + rewrite E.
      split; [f_equal; exact Hg|].
      split; [intros key; rewrite Hg at 1; apply dict_get_without|]. repeat split.
  - rewrite E. repeat split.
Qed.

Lemma delete_sonarr_episode_file_effect (i : Z) p :
  deletion_effect episodes_cleared
                  (fst (http (DELETE_sonarr_episodefile i) (world p))) p
                  (delete_sonarr_episode_file http i false p).
Proof.
  unfold deletion_effect, delete_sonarr_episode_file, bind, send, modify_mapper, ret.
  change (reply (DELETE_sonarr_episodefile i)) with Z.
  destruct (http (DELETE_sonarr_episodefile i) (world p)) as [[code|e] w]; cbn [fst snd].
  2: { split; reflexivity. }
  destruct (code =? 200); cbn [fst snd mapper with_mapper]; [|split; reflexivity].
  repeat split.
Qed.

Lemma bulk_delete_sonarr_episode_files_effect (ids : list Z) p :
  deletion_effect episodes_cleared
                  (fst (http (DELETE_sonarr_episodefile_bulk ids) (world p))) p
                  (bulk_delete_sonarr_episode_files http ids false p).
Proof.
  unfold deletion_effect, bulk_delete_sonarr_episode_files, bind, send, modify_mapper, ret.
  change (reply (DELETE_sonarr_episodefile_bulk ids)) with Z.
  destruct (http (DELETE_sonarr_episodefile_bulk ids) (world p)) as [[code|e] w]; cbn [fst snd].
  2: { split; reflexivity. }
  destruct (code =? 200); cbn [fst snd mapper with_mapper]; [|split; reflexivity].
  repeat split.
Qed.

(** The movie cache, once filled by [_get_all_radarr_movies], has distinct
    keys, and a deletion keeps them distinct. *)
Lemma get_all_radarr_movies_wf p :
  movies_cache_wf (mapper p) ->
  movies_cache_wf (mapper (snd (_get_all_radarr_movies http p))).
Proof.
  unfold movies_cache_wf, _get_all_radarr_movies, bind, get_mapper, send, modify_mapper, ret.
  destruct (_movies_cache (mapper p)) as [c|] eqn:E.
  - cbn. now rewrite E.
  - intros _. destruct (http GET_radarr_movie (world p)) as [[l|e] w]; cbn.
    + apply dict_of_NoDup.
    + now rewrite E.
Qed.

(** C8. In every run, and for every cache unit (the movie catalog, the
    series list, the episodes of one series, either tag list): as long as
    no deletion of episode files answered 200 the unit is fetched
    successfully at most once, not at all when the cache already holds it,
    and stays in the cache. A real-mode movie deletion that answers 200
    takes the entry of that movie out of the movie cache and leaves every
    other entry and every other cache as it was; a real-mode deletion of
    episode files, single or bulk, that answers 200 empties the episode
    cache and leaves the other caches as they were; a deletion that answers
    anything else, or raises, leaves the mapper as it was. *)
Theorem caches_filled_once_and_invalidated_by_deletion (self : MediaCleanup) p :
  (exists new,
      calls (snd (run http utcnow self p)) = (calls p ++ new)%list
      /\ forall k, fetched_once k (mapper p) new (mapper (snd (run http utcnow self p))))
  /\ (forall movie_id,
        movies_cache_wf (mapper p) ->
        deletion_effect (movie_entry_removed movie_id)
                        (fst (http (DELETE_radarr_movie movie_id) (world p))) p
                        (delete_radarr_movie http movie_id false p))
  /\ (forall episode_file_id,
        deletion_effect episodes_cleared
                        (fst (http (DELETE_sonarr_episodefile episode_file_id) (world p))) p
                        (delete_sonarr_episode_file http episode_file_id false p))
  /\ (forall episode_file_ids,
        deletion_effect episodes_cleared
                        (fst (http (DELETE_sonarr_episodefile_bulk episode_file_ids) (world p))) p
                        (bulk_delete_sonarr_episode_files http episode_file_ids false p)).
Proof.
  split; [|split; [|split]].
  - destruct (pop_run http utcnow MoviesCache self p) as (new & Hc & _).
    exists new. split; [exact Hc|]. intros k.
    destruct (pop_run http utcnow k self p) as (new' & Hc' & Hf).
    rewrite Hc in Hc'. apply app_inv_head in Hc'. subst new'. exact Hf.
  - intros i. apply delete_radarr_movie_effect.
  - intros i. apply delete_sonarr_episode_file_effect.
  - intros ids. apply bulk_delete_sonarr_episode_files_effect.
Qed.

End Deletions.

Lemma caches_filled_once_and_invalidated_by_deletion_witness :
  let p := snd (_get_all_radarr_movies Scenario.http
                  (Scenario.start (Scenario.one_movie []))) in
  movies_cache_wf (mapper p)
  /\ _movies_cache (mapper (snd (delete_radarr_movie Scenario.http 3 false p))) = Some [].
Proof.
  cbv zeta. split.
  - vm_compute. constructor; [intros [] | constructor].
  - assert (Hwf : movies_cache_wf
                    (mapper (snd (_get_all_radarr_movies Scenario.http
                                    (Scenario.start (Scenario.one_movie []))))))
      by (vm_compute; constructor; [intros [] | constructor]).
    destruct (caches_filled_once_and_invalidated_by_deletion
                Scenario.http Scenario.utcnow (Scenario.cleanup false None)
                (snd (_get_all_radarr_movies Scenario.http
                        (Scenario.start (Scenario.one_movie [])))))
      as (_ & Hdel & _).
    destruct (Hdel 3 Hwf) as (_ & Hcache & _).
    rewrite Hcache. reflexivity.
Defined.

(** A dry run sends reads only. *)
Lemma dry_run_sends_only_reads {World : Type}
      (http : forall r : request, World -> outcome (reply r) * World)
      (utcnow : World -> Z * World) (self : MediaCleanup) (p : Proc World) :
  dry_run (config self) = true ->
  exists new,
    calls (snd (run http utcnow self p)) = (calls p ++ new)%list
    /\ Forall (fun c => mutating (call_request c) = false) new.
Proof.
  intros Hd.
  apply (sent_run http utcnow only_reads true); unfold only_reads.
  - constructor.
  - intros a b _ Ha Hb. apply Forall_app. split; assumption.
  - intros e _. constructor.
  - intros r o Hr. rewrite andb_true_r in Hr. repeat constructor. exact Hr.
  - exact Hd.
Qed.

(** C4. With the dry-run flag set, each of the three delete methods
    returns [True] and hands back the process as it found it: no call is
    added to the record of calls, the world is not touched, and the four
    caches are the same. Over a whole dry run, every call sent is a read. *)
Theorem dry_run_deletes_are_inert {World : Type}
        (http : forall r : request, World -> outcome (reply r) * World)
        (utcnow : World -> Z * World) (self : MediaCleanup) (p : Proc World)
        (movie_id episode_file_id : Z) (episode_file_ids : list Z) :
  delete_radarr_movie http movie_id true p = (Return true, p)
  /\ delete_sonarr_episode_file http episode_file_id true p = (Return true, p)
  /\ bulk_delete_sonarr_episode_files http episode_file_ids true p = (Return true, p)
  /\ (dry_run (config self) = true ->
      exists new,
        calls (snd (run http utcnow self p)) = (calls p ++ new)%list
        /\ Forall (fun c => mutating (call_request c) = false) new).
Proof.
  split; [reflexivity|]. split; [reflexivity|]. split; [reflexivity|].
  apply dry_run_sends_only_reads.
Qed.

Lemma dry_run_deletes_are_inert_witness :
  dry_run (config (Scenario.cleanup true None)) = true
  /\ exists new,
       calls (snd (run Scenario.http Scenario.utcnow (Scenario.cleanup true None)
                       (Scenario.start (Scenario.one_movie []))))
       = ([] ++ new)%list
       /\ Forall (fun c => mutating (call_request c) = false) new.
Proof.
  split; [reflexivity|].
  apply (proj2 (proj2 (proj2
           (dry_run_deletes_are_inert Scenario.http Scenario.utcnow
              (Scenario.cleanup true None) (Scenario.start (Scenario.one_movie []))
              0 0 [])))).
  reflexivity.
Defined.

(** * Further properties of the mapper and the orchestrator *)

(** ** The normalizer *)

Section NormalizerMore.

Import PyStr.

Lemma rstrip_no_trailing (s : string) : ends_with_slash (rstrip_slash s) = false.
Proof.
  induction s as [|c r IH]; [reflexivity|].
  cbn [rstrip_slash]. destruct (rstrip_slash r) as [|d r'] eqn:E.
  - destruct (Ascii.eqb c slash) eqn:Ec; [reflexivity | exact Ec].
  - exact IH.
Qed.

Lemma no_leading_starts (s : string) : no_leading_slash s -> starts_with_slash s = false.
Proof. destruct s as [|c r]; [reflexivity | exact (fun H => H)]. Qed.

(** X1. A normalized path neither starts nor ends with a separator, whatever
    the path and the prefix. *)
Theorem normalized_path_has_no_outer_separator (path pre : string) :
  starts_with_slash (_normalize_path path pre) = false
  /\ ends_with_slash (_normalize_path path pre) = false.
Proof.
  unfold _normalize_path, strip_slash. split.
  - apply no_leading_starts, rstrip_no_leading, lstrip_no_leading.
  - apply rstrip_no_trailing.
Qed.

(** X2. The same file seen under two mounts: when neither mount prefix occurs
    in the remainder of the path, the two normalized forms are equal and
    the comparison of the matchers succeeds. *)
Theorem same_remainder_under_two_mounts_matches (pre1 pre2 rest : string) :
  pre1 <> EmptyString -> pre2 <> EmptyString ->
  occurs pre1 rest = false -> occurs pre2 rest = false ->
  String.eqb (_normalize_path (pre1 ++ rest) pre1) (_normalize_path (pre2 ++ rest) pre2) = true.
Proof.
  intros H1 H2 O1 O2.
  rewrite (proj1 (normalize_leading_only pre1 rest H1 O1)).
  rewrite (proj1 (normalize_leading_only pre2 rest H2 O2)).
  apply String.eqb_refl.
Qed.

Lemma same_remainder_under_two_mounts_matches_witness :
  ("/media/movies/"%string <> EmptyString /\ "/movies/"%string <> EmptyString
   /\ occurs "/media/movies/" "Alien (1979)/Alien%20(1979).mkv" = false
   /\ occurs "/movies/" "Alien (1979)/Alien%20(1979).mkv" = false)
  /\ String.eqb (_normalize_path "/media/movies/Alien (1979)/Alien%20(1979).mkv" "/media/movies/")
                (_normalize_path "/movies/Alien (1979)/Alien%20(1979).mkv" "/movies/") = true.
Proof.
  split; [repeat split; (discriminate || reflexivity)|].
  apply (same_remainder_under_two_mounts_matches
           "/media/movies/" "/movies/" "Alien (1979)/Alien%20(1979).mkv");
    (discriminate || reflexivity).
Defined.

End NormalizerMore.

(** ** What the two movie matchers hand back *)

Section Lookups.

Context {World : Type}.
Variable http : forall r : request, World -> outcome (reply r) * World.
Implicit Types p : Proc World.

Lemma scan_movies_by_path_first rp jn cache i :
  scan_movies_by_path rp jn cache = Return (Some i) ->
  exists m, first_path_match rp jn cache i m.
Proof.
  induction cache as [|[k m] r IH]; cbn [scan_movies_by_path]; [discriminate|].
  destruct (hasFile m) eqn:Hf; cbn [negb].
  - destruct (movieFile m) as [f|] eqn:Hm; [|discriminate].
    destruct (String.eqb_spec jn (_normalize_path f rp)) as [E|Hne].
    + intros [= <-]. exists m, [], r, f. repeat split; auto.
      intros k' m' [].
    + intros H. destruct (IH H) as (m' & before & after & f' & -> & Hno & Hf' & Hm' & Hn).
      exists m', ((k, m) :: before)%list, after, f'. repeat split; auto.
      intros k' m'' [[= <- <-]|Hin] Hf''.
      * exists f. split; [exact Hm | congruence].
      * apply (Hno k' m'' Hin Hf'').
  - intros H. destruct (IH H) as (m' & before & after & f' & -> & Hno & Hf' & Hm' & Hn).
    exists m', ((k, m) :: before)%list, after, f'. repeat split; auto.
    intros k' m'' [[= <- <-]|Hin] Hf''; [congruence|].
    apply (Hno k' m'' Hin Hf'').
Qed.

Lemma scan_movies_by_tmdb_first t cache i :
  scan_movies_by_tmdb t cache = Some i ->
  exists m, first_tmdb_match t cache i m.
Proof.
  induction cache as [|[k m] r IH]; cbn [scan_movies_by_tmdb]; [discriminate|].
  destruct (String.eqb_spec (str_of_tmdbId (tmdbId m)) t) as [E|Hne].
  - intros [= <-]. exists m, [], r. repeat split; auto. intros k' m' [].
  - intros H. destruct (IH H) as (m' & before & after & -> & Hno & Hn).
    exists m', ((k, m) :: before)%list, after. repeat split; auto.
    intros k' m'' [[= <- <-]|Hin]; [exact Hne | apply (Hno k' m'' Hin)].
Qed.

Lemma first_path_match_In rp jn cache i m :
  first_path_match rp jn cache i m -> In (i, m) cache.
Proof.
  intros (before & after & f & -> & _). apply in_or_app. right. left. reflexivity.
Qed.

Lemma first_tmdb_match_In t cache i m :
  first_tmdb_match t cache i m -> In (i, m) cache.
Proof.
  intros (before & after & -> & _). apply in_or_app. right. left. reflexivity.
Qed.

Lemma In_dict_mem {V} (i : Z) (v : V) (d : dict Z V) :
  In (i, v) d -> dict_mem Z.eqb i d = true.
Proof.
  intros H. apply dict_mem_In. unfold dict_keys.
  change i with (fst (i, v)). apply in_map, H.
Qed.

(** X3. A movie id handed back by [find_radarr_movie_by_path] is the key of
    the first entry of the cached catalog, in iteration order, that has a
    file whose normalized path equals the normalized Jellyfin path; the
    catalog is cached afterwards and holds that key. *)
Theorem find_radarr_movie_by_path_returns_first_match (path : string) p (i : Z) :
  fst (find_radarr_movie_by_path http path p) = Return (Some i) ->
  exists cache m,
    _movies_cache (mapper (snd (find_radarr_movie_by_path http path p))) = Some cache
    /\ first_path_match (radarr_prefix (mapper p))
         (_normalize_path path (jellyfin_movie_prefix (mapper p))) cache i m
    /\ dict_mem Z.eqb i cache = true.
Proof.
  remember (find_radarr_movie_by_path http path p) as r eqn:Hr.
  unfold find_radarr_movie_by_path, bind, get_mapper, lift in Hr.
  pose proof (get_all_radarr_movies_cached http p) as Hc.
  destruct (_get_all_radarr_movies http p) as [[c|e] p1]; subst r; cbn [fst snd] in *;
    [|discriminate].
  destruct (Hc c eq_refl) as (Hc1 & Hc2 & Hc3).
  rewrite Hc2, Hc3. intros H.
  destruct (scan_movies_by_path_first _ _ _ _ H) as (m & Hm).
  exists c, m. split; [exact Hc1|]. split; [exact Hm|].
  apply (In_dict_mem i m), (first_path_match_In _ _ _ _ _ Hm).
Qed.

(** X4. A movie id handed back by [find_radarr_movie_by_tmdb] is the key of the
    first entry of the cached catalog whose TMDb id, printed by [str],
    equals the id asked for; entries without a file are not passed over. *)
Theorem find_radarr_movie_by_tmdb_returns_first_match (tmdb_id : string) p (i : Z) :
  fst (find_radarr_movie_by_tmdb http tmdb_id p) = Return (Some i) ->
  exists cache m,
    _movies_cache (mapper (snd (find_radarr_movie_by_tmdb http tmdb_id p))) = Some cache
    /\ first_tmdb_match tmdb_id cache i m
    /\ dict_mem Z.eqb i cache = true.
Proof.
  remember (find_radarr_movie_by_tmdb http tmdb_id p) as r eqn:Hr.
  unfold find_radarr_movie_by_tmdb, bind, ret in Hr.
  pose proof (get_all_radarr_movies_cached http p) as Hc.
  destruct (_get_all_radarr_movies http p) as [[c|e] p1]; subst r; cbn [fst snd] in *;
    [|discriminate].
  destruct (Hc c eq_refl) as (Hc1 & _).
  intros [= H].
  destruct (scan_movies_by_tmdb_first _ _ _ H) as (m & Hm).
  exists c, m. split; [exact Hc1|]. split; [exact Hm|].
  apply (In_dict_mem i m), (first_tmdb_match_In _ _ _ _ Hm).
Qed.

End Lookups.

Lemma find_radarr_movie_by_path_returns_first_match_witness :
  exists cache m,
    _movies_cache (mapper (snd (find_radarr_movie_by_path Scenario.http
                                  ("/media/movies/" ++ Scenario.the_matrix)
                                  (Scenario.start (Scenario.one_movie [])))))
    = Some cache
    /\ first_path_match "/movies/" Scenario.the_matrix cache 3 m
    /\ dict_mem Z.eqb 3 cache = true.
Proof.
  apply (find_radarr_movie_by_path_returns_first_match Scenario.http
           ("/media/movies/" ++ Scenario.the_matrix)
           (Scenario.start (Scenario.one_movie [])) 3).
  reflexivity.
Defined.

Lemma find_radarr_movie_by_tmdb_returns_first_match_witness :
  exists cache m,
    _movies_cache (mapper (snd (find_radarr_movie_by_tmdb Scenario.http "11"
                                  (Scenario.start (Scenario.identifier_zero None)))))
    = Some cache
    /\ first_tmdb_match "11" cache 7 m
    /\ dict_mem Z.eqb 7 cache = true.
Proof.
  apply (find_radarr_movie_by_tmdb_returns_first_match Scenario.http "11"
           (Scenario.start (Scenario.identifier_zero None)) 7).
  reflexivity.
Defined.

(** ** The catalog cache as a dictionary *)

Section CatalogCache.

Context {World : Type}.
Variable http : forall r : request, World -> outcome (reply r) * World.
Implicit Types p : Proc World.

(** X5. The first fetch of the movie catalog builds a dictionary with distinct
    keys; a lookup under [k] finds the last movie the service listed with
    a file and id [k], so every cached entry has a file and sits under its
    own id, and every listed movie with a file has its id in the cache. *)
Theorem movie_cache_is_keyed_by_id_over_movies_with_file p (c : dict Z RadarrMovie) :
  _movies_cache (mapper p) = None ->
  fst (_get_all_radarr_movies http p) = Return c ->
  exists movies : list RadarrMovie,
    fst (http GET_radarr_movie (world p)) = Return movies
    /\ NoDup (dict_keys c)
    /\ (forall k, dict_get Z.eqb k c
                  = find (fun m => Z.eqb (id m) k) (rev (filter hasFile movies)))
    /\ (forall k m, dict_get Z.eqb k c = Some m ->
                    id m = k /\ hasFile m = true /\ In m movies)
    /\ (forall m, In m movies -> hasFile m = true -> dict_mem Z.eqb (id m) c = true).
Proof.
  intros Hnone.
  unfold _get_all_radarr_movies, bind, get_mapper, send, modify_mapper, ret.
  rewrite Hnone.
  change (reply GET_radarr_movie) with (list RadarrMovie).
  destruct (http GET_radarr_movie (world p)) as [[movies|e] w]; cbn [fst snd]; [|discriminate].
  intros [= <-]. exists movies. split; [reflexivity|].
  assert (Hget : forall k, dict_get Z.eqb k (dict_of Z.eqb id (fun m => m) (filter hasFile movies))
                           = find (fun m => Z.eqb (id m) k) (rev (filter hasFile movies))).
  { intros k. rewrite dict_of_get. destruct (find _ _); reflexivity. }
  split; [apply dict_of_NoDup|]. split; [exact Hget|]. split.
  - intros k m Hm. rewrite Hget in Hm. apply find_some in Hm as [Hin Hk].
    apply in_rev, filter_In in Hin as [Hin Hf]. apply Z.eqb_eq in Hk. auto.
  - intros m Hin Hf. unfold dict_mem. rewrite Hget.
    destruct (find (fun m0 => Z.eqb (id m0) (id m)) (rev (filter hasFile movies))) eqn:E;
      [reflexivity|].
    assert (Hm : In m (rev (filter hasFile movies))).
    { apply -> in_rev. apply filter_In. auto. }
    pose proof (find_none _ _ E m Hm) as Hk. cbv beta in Hk.
    rewrite Z.eqb_refl in Hk. discriminate.
Qed.

Lemma chain_on_In mp cache path tmdb i :
  chain_on mp cache path tmdb = Return (Some i) ->
  exists m, In (i, m) cache.
Proof.
  unfold chain_on.
  destruct (scan_movies_by_path _ _ cache) as [r|e] eqn:E; [|discriminate].
  assert (Hr : Return r = Return (Some i) -> exists m, In (i, m) cache).
  { intros [= ->]. destruct (scan_movies_by_path_first _ _ _ _ E) as (m & Hm).
    exists m. apply (first_path_match_In _ _ _ _ _ Hm). }
  destruct (negb (truthy_id r)); [|exact Hr].
  destruct (truthy_str tmdb); [|exact Hr].
  intros [= H]. destruct (scan_movies_by_tmdb_first _ _ _ H) as (m & Hm).
  exists m. apply (first_tmdb_match_In _ _ _ _ Hm).
Qed.

(** X6. Once a real deletion of movie [i] has answered 200, neither matcher
    hands [i] back again for any watched item: within one process a movie
    is not deleted twice. *)
Theorem deleted_movie_is_not_resolved_again (i : Z) (path : string) (tmdb : option string)
        p (cache : dict Z RadarrMovie) :
  _movies_cache (mapper p) = Some cache ->
  NoDup (dict_keys cache) ->
  fst (delete_radarr_movie http i false p) = Return true ->
  fst (resolve_radarr_movie http path tmdb (snd (delete_radarr_movie http i false p)))
  <> Return (Some i).
Proof.
  intros Hc Hnd Hdel.
  assert (Hwf : movies_cache_wf (mapper p)) by (unfold movies_cache_wf; now rewrite Hc).
  pose proof (delete_radarr_movie_effect http i p Hwf) as He.
  unfold deletion_effect in He.
  destruct (fst (http (DELETE_radarr_movie i) (world p))) as [code|e].
  2: { destruct He as [He _]. congruence. }
  destruct (code =? 200); [|destruct He as [He _]; congruence].
  destruct He as (_ & Hcache & _). rewrite Hc in Hcache. cbn [option_map] in Hcache.
  rewrite (resolve_on_cache http _ _ _ _ Hcache). cbn [fst].
  intros H. apply chain_on_In in H as (m & Hin).
  unfold without in Hin. apply filter_In in Hin as [_ Hin]. cbn [fst] in Hin.
  rewrite Z.eqb_refl in Hin. discriminate.
Qed.

(** X7. The five cached getters answer a second call from the cache: the same
    value, no call sent, the process as the first call left it. *)
Theorem cached_getters_answer_again_from_the_cache p :
  (forall c, fst (_get_all_radarr_movies http p) = Return c ->
             _get_all_radarr_movies http (snd (_get_all_radarr_movies http p))
             = (Return c, snd (_get_all_radarr_movies http p)))
  /\ (forall c, fst (_get_all_sonarr_series http p) = Return c ->
                _get_all_sonarr_series http (snd (_get_all_sonarr_series http p))
                = (Return c, snd (_get_all_sonarr_series http p)))
  /\ (forall sid l, fst (_get_sonarr_episodes http sid p) = Return l ->
                    _get_sonarr_episodes http sid (snd (_get_sonarr_episodes http sid p))
                    = (Return l, snd (_get_sonarr_episodes http sid p)))
  /\ (forall d, fst (get_radarr_tags http p) = Return d ->
                get_radarr_tags http (snd (get_radarr_tags http p))
                = (Return d, snd (get_radarr_tags http p)))
  /\ (forall d, fst (get_sonarr_tags http p) = Return d ->
                get_sonarr_tags http (snd (get_sonarr_tags http p))
                = (Return d, snd (get_sonarr_tags http p))).
Proof.
  split; [|split; [|split; [|split]]].
  - intros c.
    remember (_get_all_radarr_movies http p) as r eqn:Hr.
    unfold _get_all_radarr_movies, bind, get_mapper, send, modify_mapper, ret in Hr.
    destruct (_movies_cache (mapper p)) as [c0|] eqn:E.
    + subst r. cbn [fst snd]. intros [= <-].
      unfold _get_all_radarr_movies, bind, get_mapper, ret. now rewrite E.
    + destruct (http GET_radarr_movie (world p)) as [[l|e] w]; subst r; cbn [fst snd];
        [|discriminate].
      intros [= <-]. reflexivity.
  - intros c.
    remember (_get_all_sonarr_series http p) as r eqn:Hr.
    unfold _get_all_sonarr_series, bind, get_mapper, send, modify_mapper, ret in Hr.
    destruct (_series_cache (mapper p)) as [c0|] eqn:E.
    + subst r. cbn [fst snd]. intros [= <-].
      unfold _get_all_sonarr_series, bind, get_mapper, ret. now rewrite E.
    + destruct (http GET_sonarr_series (world p)) as [[l|e] w]; subst r; cbn [fst snd];
        [|discriminate].
      intros [= <-]. reflexivity.
  - intros sid l.
    remember (_get_sonarr_episodes http sid p) as r eqn:Hr.
    unfold _get_sonarr_episodes, bind, get_mapper, send, modify_mapper, ret in Hr.
    destruct (dict_get Z.eqb sid (_episodes_cache (mapper p))) as [l0|] eqn:E.
    + subst r. cbn [fst snd]. intros [= <-].
      unfold _get_sonarr_episodes, bind, get_mapper, ret. now rewrite E.
    + destruct (http (GET_sonarr_episode sid) (world p)) as [[eps|e] w]; subst r;
        cbn [fst snd]; [|discriminate].
      intros [= <-].
      unfold _get_sonarr_episodes, bind, get_mapper, ret.
      cbn [mapper with_mapper set_episodes_cache _episodes_cache].
      now rewrite dict_get_set_Z, Z.eqb_refl.
  - intros d.
    remember (get_radarr_tags http p) as r eqn:Hr.
    unfold get_radarr_tags, bind, get_mapper, send, modify_mapper, ret in Hr.
    destruct (dict_get String.eqb "radarr" (_tags_cache (mapper p))) as [d0|] eqn:E.
    + subst r. cbn [fst snd]. intros [= <-].
      unfold get_radarr_tags, bind, get_mapper, ret. now rewrite E.
    + destruct (http GET_radarr_tag (world p)) as [[tags|e] w]; subst r;
        cbn [fst snd]; [|discriminate].
      intros [= <-].
      unfold get_radarr_tags, bind, get_mapper, ret.
      cbn [mapper with_mapper set_tags_cache _tags_cache].
      now rewrite dict_get_set_string, String.eqb_refl.
  - intros d.
    remember (get_sonarr_tags http p) as r eqn:Hr.
    unfold get_sonarr_tags, bind, get_mapper, send, modify_mapper, ret in Hr.
    destruct (dict_get String.eqb "sonarr" (_tags_cache (mapper p))) as [d0|] eqn:E.
    + subst r. cbn [fst snd]. intros [= <-].
      unfold get_sonarr_tags, bind, get_mapper, ret. now rewrite E.
    + destruct (http GET_sonarr_tag (world p)) as [[tags|e] w]; subst r;
        cbn [fst snd]; [|discriminate].
      intros [= <-].
      unfold get_sonarr_tags, bind, get_mapper, ret.
      cbn [mapper with_mapper set_tags_cache _tags_cache].
      now rewrite dict_get_set_string, String.eqb_refl.
Qed.

End CatalogCache.

Lemma movie_cache_is_keyed_by_id_over_movies_with_file_witness :
  let p := Scenario.start (Scenario.identifier_zero None) in
  _movies_cache (mapper p) = None
  /\ exists c movies,
       fst (_get_all_radarr_movies Scenario.http p) = Return c
       /\ fst (Scenario.http GET_radarr_movie (world p)) = Return movies
       /\ NoDup (dict_keys c)
       /\ (forall k, dict_get Z.eqb k c
                     = find (fun m => Z.eqb (id m) k) (rev (filter hasFile movies))).
Proof.
  cbv zeta. split; [reflexivity|].
  eexists.
  destruct (movie_cache_is_keyed_by_id_over_movies_with_file Scenario.http
              (Scenario.start (Scenario.identifier_zero None)) _ eq_refl eq_refl)
    as (movies & H1 & H2 & H3 & _).
  exists movies. split; [reflexivity|]. split; [exact H1|]. split; [exact H2 | exact H3].
Defined.

Lemma deleted_movie_is_not_resolved_again_witness :
  let p := snd (_get_all_radarr_movies Scenario.http
                  (Scenario.start (Scenario.one_movie []))) in
  fst (resolve_radarr_movie Scenario.http ("/media/movies/" ++ Scenario.the_matrix) None p)
  = Return (Some 3)
  /\ fst (delete_radarr_movie Scenario.http 3 false p) = Return true
  /\ fst (resolve_radarr_movie Scenario.http ("/media/movies/" ++ Scenario.the_matrix) None
            (snd (delete_radarr_movie Scenario.http 3 false p)))
     <> Return (Some 3).
Proof.
  cbv zeta. split; [reflexivity|]. split; [reflexivity|].
  apply (deleted_movie_is_not_resolved_again Scenario.http 3
           ("/media/movies/" ++ Scenario.the_matrix) None
           (snd (_get_all_radarr_movies Scenario.http
                   (Scenario.start (Scenario.one_movie []))))
           [(3, Scenario.in_catalog 3 ("/movies/" ++ Scenario.the_matrix) (Some 603) [])]).
  - reflexivity.
  - cbn. constructor; [intros [] | constructor].
  - reflexivity.
Defined.

Lemma cached_getters_answer_again_from_the_cache_witness :
  let p := Scenario.start (Scenario.one_movie []) in
  exists d,
    fst (get_radarr_tags Scenario.http p) = Return d
    /\ get_radarr_tags Scenario.http (snd (get_radarr_tags Scenario.http p))
       = (Return d, snd (get_radarr_tags Scenario.http p)).
Proof.
  cbv zeta. eexists. split; [reflexivity|].
  apply (proj1 (proj2 (proj2 (proj2
           (cached_getters_answer_again_from_the_cache Scenario.http
              (Scenario.start (Scenario.one_movie []))))))).
  reflexivity.
Defined.

(** ** The constructor of the orchestrator *)

Section Init.

Context {World : Type}.
Variable http : forall r : request, World -> outcome (reply r) * World.
Variable lower : string -> string.
Implicit Types p : Proc World.

Lemma first_user_none (name : string) (users : list JellyfinUser) :
  first_user lower name users = None
  <-> forall u, In u users -> lower (user_Name u) <> lower name.
Proof.
  induction users as [|u r IH]; cbn [first_user In].
  - split; [intros _ u [] | reflexivity].
  - destruct (String.eqb_spec (lower (user_Name u)) (lower name)) as [E|E].
    + split; [discriminate|]. intros H. destruct (H u (or_introl eq_refl) E).
    + rewrite IH. split.
      * intros H u' [<-|Hin]; [exact E | exact (H u' Hin)].
      * intros H u' Hin. apply (H u'). right. exact Hin.
Qed.

(** A constructor that returns holds the configuration it was given and
    leaves the statistics at zero. *)
Lemma MediaCleanup_init_fresh
      (cfg : CleanupConfig) (jm jt rp sp : string) p (self : MediaCleanup) :
  fst (MediaCleanup_init http lower cfg jm jt rp sp p) = Return self ->
  config self = cfg
  /\ stats (snd (MediaCleanup_init http lower cfg jm jt rp sp p)) = CleanupStats_new.
Proof.
  remember (MediaCleanup_init http lower cfg jm jt rp sp p) as r eqn:Hr.
  unfold MediaCleanup_init, _get_primary_user_id, get_jellyfin_users, _get_keep_tag_id,
    get_radarr_tags, get_sonarr_tags, bind, modify_stats, modify_mapper, get_mapper,
    send, ret, raise in Hr.
  cbn -[tag_dict first_tag first_user app] in Hr.
  destruct (http GET_jellyfin_Users (world p)) as [[users|e] w1].
  2: { subst r. cbn [fst]. intros H. discriminate H. }
  destruct (first_user lower (primary_user_name cfg) users) as [u|].
  2: { subst r. cbn [fst]. intros H. discriminate H. }
  cbn -[tag_dict first_tag first_user app] in Hr.
  destruct (http GET_radarr_tag w1) as [[rtags|e] w2].
  2: { subst r. cbn [fst]. intros H. discriminate H. }
  cbn -[tag_dict first_tag first_user app] in Hr.
  destruct (http GET_sonarr_tag w2) as [[stags|e] w3].
  2: { subst r. cbn [fst]. intros H. discriminate H. }
  subst r. cbn [fst snd stats]. intros [= <-]. split; reflexivity.
Qed.

(** X8. A constructor that returns made exactly three calls, all reads, in the
    order users, Radarr tags, Sonarr tags, each answered; the statistics
    are zero, the mapper is new with both tag dictionaries cached and no
    catalog, and the object holds the id of the first user whose
    lower-cased name is the configured one and, per service, the first tag
    whose lower-cased label is the configured one. *)
Theorem MediaCleanup_init_makes_three_reads_in_order
        (cfg : CleanupConfig) (jm jt rp sp : string) p (self : MediaCleanup) :
  fst (MediaCleanup_init http lower cfg jm jt rp sp p) = Return self ->
  exists (users : list JellyfinUser) (rtags stags : list Tag) (w1 w2 : World)
         (u : JellyfinUser),
    http GET_jellyfin_Users (world p) = (Return users, w1)
    /\ http GET_radarr_tag w1 = (Return rtags, w2)
    /\ http GET_sonarr_tag w2
       = (Return stags, world (snd (MediaCleanup_init http lower cfg jm jt rp sp p)))
    /\ calls (snd (MediaCleanup_init http lower cfg jm jt rp sp p))
       = (calls p ++ [call_of GET_jellyfin_Users (Return users);
                      call_of GET_radarr_tag (Return rtags);
                      call_of GET_sonarr_tag (Return stags)])%list
    /\ first_user lower (primary_user_name cfg) users = Some u
    /\ self = {| config := cfg; primary_user_id := user_Id u;
                 radarr_keep_tag_id := first_tag lower (keep_tag_label cfg) (tag_dict rtags);
                 sonarr_keep_tag_id := first_tag lower (keep_tag_label cfg) (tag_dict stags) |}
    /\ stats (snd (MediaCleanup_init http lower cfg jm jt rp sp p)) = CleanupStats_new
    /\ mapper (snd (MediaCleanup_init http lower cfg jm jt rp sp p))
       = set_tags_cache [("radarr"%string, tag_dict rtags); ("sonarr"%string, tag_dict stags)]
                        (MediaMapper_new jm jt rp sp)
    /\ summaries (snd (MediaCleanup_init http lower cfg jm jt rp sp p)) = summaries p.
Proof.
  remember (MediaCleanup_init http lower cfg jm jt rp sp p) as r eqn:Hr.
  unfold MediaCleanup_init, _get_primary_user_id, get_jellyfin_users, _get_keep_tag_id,
    get_radarr_tags, get_sonarr_tags, bind, modify_stats, modify_mapper, get_mapper,
    send, ret, raise in Hr.
  cbn -[tag_dict first_tag first_user app] in Hr.
  change (reply GET_jellyfin_Users) with (list JellyfinUser) in Hr.
  destruct (http GET_jellyfin_Users (world p)) as [[users|e] w1] eqn:E1.
  2: { subst r. cbn [fst]. intros H. discriminate H. }
  destruct (first_user lower (primary_user_name cfg) users) as [u|] eqn:Eu.
  2: { subst r. cbn [fst]. intros H. discriminate H. }
  cbn -[tag_dict first_tag first_user app] in Hr.
  change (reply GET_radarr_tag) with (list Tag) in Hr.
  destruct (http GET_radarr_tag w1) as [[rtags|e] w2] eqn:E2.
  2: { subst r. cbn [fst]. intros H. discriminate H. }
  cbn -[tag_dict first_tag first_user app] in Hr.
  change (reply GET_sonarr_tag) with (list Tag) in Hr.
  destruct (http GET_sonarr_tag w2) as [[stags|e] w3] eqn:E3.
  2: { subst r. cbn [fst]. intros H. discriminate H. }
  subst r. cbn [fst snd mapper stats world calls summaries]. intros [= <-].
  exists users, rtags, stags, w1, w2, u.
  rewrite <- !app_assoc. cbn [app].
  repeat split; first [reflexivity | assumption].
Qed.

(** X9. When the users are listed and none of them bears the configured name,
    lower-cased, the constructor raises [ValueError] after that one call:
    no tag is asked for, and nothing else is sent. *)
Theorem MediaCleanup_init_stops_at_unknown_user
        (cfg : CleanupConfig) (jm jt rp sp : string) p
        (users : list JellyfinUser) (w1 : World) :
  http GET_jellyfin_Users (world p) = (Return users, w1) ->
  (forall u, In u users -> lower (user_Name u) <> lower (primary_user_name cfg)) ->
  MediaCleanup_init http lower cfg jm jt rp sp p
  = (Raise ValueError,
     {| mapper := MediaMapper_new jm jt rp sp; stats := CleanupStats_new; world := w1;
        calls := (calls p ++ [call_of GET_jellyfin_Users (Return users)])%list;
        summaries := summaries p |}).
Proof.
  intros E1 Hno. apply first_user_none in Hno.
  unfold MediaCleanup_init, _get_primary_user_id, get_jellyfin_users.
  unfold bind at 1. unfold modify_stats at 1.
  unfold bind at 1. unfold modify_mapper at 1.
  unfold bind at 1. unfold bind at 1. unfold send at 1.
  cbn [with_stats with_mapper mapper stats world calls summaries].
  change (reply GET_jellyfin_Users) with (list JellyfinUser) in *.
  rewrite E1, Hno. reflexivity.
Qed.

End Init.

Lemma MediaCleanup_init_makes_three_reads_in_order_witness :
  let cfg := config (Scenario.cleanup true None) in
  let w := Scenario.Build_t 0 (Return [{| user_Name := "Admin"; user_Id := "u1" |}])
             (Return []) (Return []) (Return [])
             (Return [{| tag_id := 5; label := "Keep" |}]) (Return 200)
             (Return []) (Return []) (Return []) (Return 200) in
  exists self,
    fst (MediaCleanup_init Scenario.http Scenario.lower cfg
           "/media/movies/" "/media/tv/" "/movies/" "/tv/" (Scenario.start w)) = Return self
    /\ primary_user_id self = "u1"%string
    /\ radarr_keep_tag_id self = Some 5
    /\ sonarr_keep_tag_id self = None.
Proof.
  cbv zeta. eexists. split; [reflexivity|].
  destruct (MediaCleanup_init_makes_three_reads_in_order Scenario.http Scenario.lower
              (config (Scenario.cleanup true None))
              "/media/movies/" "/media/tv/" "/movies/" "/tv/"
              (Scenario.start
                 (Scenario.Build_t 0 (Return [{| user_Name := "Admin"; user_Id := "u1" |}])
                    (Return []) (Return []) (Return [])
                    (Return [{| tag_id := 5; label := "Keep" |}]) (Return 200)
                    (Return []) (Return []) (Return []) (Return 200)))
              _ eq_refl)
    as (users & rtags & stags & w1 & w2 & u & _).
  repeat split; reflexivity.
Defined.

Lemma MediaCleanup_init_stops_at_unknown_user_witness :
  fst (MediaCleanup_init Scenario.http Scenario.lower (config (Scenario.cleanup true None))
         "/media/movies/" "/media/tv/" "/movies/" "/tv/" (Scenario.start Scenario.quiet))
  = Raise ValueError.
Proof.
  rewrite (MediaCleanup_init_stops_at_unknown_user Scenario.http Scenario.lower
             (config (Scenario.cleanup true None))
             "/media/movies/" "/media/tv/" "/movies/" "/tv/"
             (Scenario.start Scenario.quiet) [] Scenario.quiet eq_refl).
  - reflexivity.
  - intros u [].
Defined.

(** ** The deletion counters and the answers of the services *)

Section Acknowledged.

Context {World : Type}.
Variable http : forall r : request, World -> outcome (reply r) * World.
Variable utcnow : World -> Z * World.
Variable dry : bool.
Implicit Types p : Proc World.

Lemma count_calls_app f a b :
  count_calls f (a ++ b) = count_calls f a + count_calls f b.
Proof. unfold count_calls. rewrite filter_app, length_app. lia. Qed.

Lemma T_ack_ok : composes (@T_ack World dry).
Proof.
  split.
  - intros p. exists []. rewrite app_nil_r. unfold count_calls. cbn.
    repeat split; lia.
  - intros p p1 o p2 (n1 & H1 & Hm1 & He1 & Hd1) (n2 & H2 & Hm2 & He2 & Hd2).
    exists (n1 ++ n2)%list. rewrite H2, H1, app_assoc, !count_calls_app.
    split; [reflexivity|]. split; [lia|]. split; [lia|].
    intros Hd. destruct (Hd1 Hd), (Hd2 Hd). split; lia.
  - intros p e _. exists []. rewrite app_nil_r. unfold count_calls. cbn.
    repeat split; lia.
Qed.

Lemma ack_quiet {A} (m : M World A) :
  (forall p, calls (snd (m p)) = calls p /\ stats (snd (m p)) = stats p) ->
  obeys (T_ack dry) m.
Proof.
  intros H p. destruct (H p) as [Hc Hs]. exists []. rewrite app_nil_r, Hs.
  split; [exact Hc|]. unfold count_calls. cbn [filter List.length Z.of_nat].
  repeat split; lia.
Qed.

Lemma ack_now : obeys (T_ack dry) (now utcnow).
Proof.
  apply ack_quiet. intros p. unfold now. destruct (utcnow (world p)). split; reflexivity.
Qed.

Lemma ack_modify_mapper f : obeys (T_ack dry) (@modify_mapper World f).
Proof. apply ack_quiet. intros p. split; reflexivity. Qed.

Lemma ack_send_read (r : request) : mutating r = false -> obeys (T_ack dry) (send http r).
Proof.
  intros Hr p. unfold send. destruct (http r (world p)) as [o w]. cbn [snd calls stats].
  exists [call_of r o]. split; [reflexivity|].
  assert (Hm : movie_delete r = false) by (destruct r; (reflexivity || discriminate)).
  assert (He : episode_delete r = false) by (destruct r; (reflexivity || discriminate)).
  unfold count_calls, acknowledged, refused. cbn [filter call_of call_request].
  rewrite Hm, He. cbn. repeat split; lia.
Qed.

Lemma ack_modify_counter c f :
  deletion_counter c = false -> obeys (T_ack dry) (@modify_stats World (update_counter c f)).
Proof.
  intros Hc p. exists []. rewrite app_nil_r. unfold count_calls, modify_stats.
  cbn [snd with_stats stats calls filter List.length Z.of_nat].
  destruct (stats p); destruct c; try discriminate Hc; cbn; repeat split; lia.
Qed.

Hint Resolve ack_now ack_modify_mapper ack_send_read : proc.
Hint Extern 1 (obeys (T_ack _) (incr _)) => apply ack_modify_counter; reflexivity : proc.
Hint Extern 1 (obeys (T_ack _) (modify_stats (update_counter _ _))) =>
  apply ack_modify_counter; reflexivity : proc.

Lemma ack_get_jellyfin_watched_movies uid :
  obeys (T_ack dry) (get_jellyfin_watched_movies http uid).
Proof. exact (ack_send_read (GET_jellyfin_Items_Movie uid) eq_refl). Qed.

Lemma ack_get_jellyfin_watched_episodes uid :
  obeys (T_ack dry) (get_jellyfin_watched_episodes http uid).
Proof. exact (ack_send_read (GET_jellyfin_Items_Episode uid) eq_refl). Qed.

Lemma ack_get_all_radarr_movies : obeys (T_ack dry) (_get_all_radarr_movies http).
Proof.
  unfold _get_all_radarr_movies.
  pose proof (ack_send_read GET_radarr_movie eq_refl). obeys_auto T_ack_ok.
Qed.

Lemma ack_get_all_sonarr_series : obeys (T_ack dry) (_get_all_sonarr_series http).
Proof.
  unfold _get_all_sonarr_series.
  pose proof (ack_send_read GET_sonarr_series eq_refl). obeys_auto T_ack_ok.
Qed.

Lemma ack_get_sonarr_episodes sid : obeys (T_ack dry) (_get_sonarr_episodes http sid).
Proof.
  unfold _get_sonarr_episodes.
  pose proof (ack_send_read (GET_sonarr_episode sid) eq_refl). obeys_auto T_ack_ok.
Qed.

Hint Resolve ack_get_jellyfin_watched_movies ack_get_jellyfin_watched_episodes
  ack_get_all_radarr_movies ack_get_all_sonarr_series ack_get_sonarr_episodes : proc.

Lemma ack_resolve_radarr_movie path t :
  obeys (T_ack dry) (resolve_radarr_movie http path t).
Proof.
  unfold resolve_radarr_movie, find_radarr_movie_by_path, find_radarr_movie_by_tmdb.
  obeys_auto T_ack_ok.
Qed.

Lemma ack_scan_series sp jn sids : obeys (T_ack dry) (scan_series http sp jn sids).
Proof.
  induction sids as [|sid r IH]; cbn [scan_series]; obeys_auto T_ack_ok.
Qed.

Hint Resolve ack_resolve_radarr_movie ack_scan_series : proc.

Lemma ack_find_sonarr_episode_by_path path sid :
  obeys (T_ack dry) (find_sonarr_episode_by_path http path sid).
Proof. unfold find_sonarr_episode_by_path. obeys_auto T_ack_ok. Qed.

Lemma ack_is_past_grace_period self t :
  obeys (T_ack dry) (_is_past_grace_period utcnow self t).
Proof. unfold _is_past_grace_period. obeys_auto T_ack_ok. Qed.

Hint Resolve ack_find_sonarr_episode_by_path ack_is_past_grace_period : proc.

(** The deletion of a movie together with the counter its answer moves. *)
Lemma ack_delete_movie_block (i : Z) :
  obeys (T_ack dry)
        (bind (delete_radarr_movie http i dry)
              (fun success => if success then incr c_movies_deleted
                              else incr c_movies_failed)).
Proof.
  intros p. unfold T_ack, delete_radarr_movie. destruct dry.
  - exists []. rewrite app_nil_r. unfold count_calls.
    cbn. destruct (stats p); cbn. repeat split; (lia || discriminate).
  - unfold bind, send, modify_mapper, ret, incr, modify_stats.
    change (reply (DELETE_radarr_movie i)) with Z.
    destruct (http (DELETE_radarr_movie i) (world p)) as [[code|e] w].
    + exists [call_of (DELETE_radarr_movie i) (Return code)].
      unfold count_calls, acknowledged, refused, answered_200, answered_other.
      destruct (code =? 200) eqn:E; cbn; rewrite E; destruct (stats p); cbn;
        repeat split; lia.
    + exists [call_of (DELETE_radarr_movie i) (Raise e)].
      unfold count_calls. cbn. repeat split; lia.
Qed.

Lemma ack_delete_episode_block (i : Z) :
  obeys (T_ack dry)
        (bind (delete_sonarr_episode_file http i dry)
              (fun success => if success then incr c_episodes_deleted
                              else incr c_episodes_failed)).
Proof.
  intros p. unfold T_ack, delete_sonarr_episode_file. destruct dry.
  - exists []. rewrite app_nil_r. unfold count_calls.
    cbn. destruct (stats p); cbn. repeat split; (lia || discriminate).
  - unfold bind, send, modify_mapper, ret, incr, modify_stats.
    change (reply (DELETE_sonarr_episodefile i)) with Z.
    destruct (http (DELETE_sonarr_episodefile i) (world p)) as [[code|e] w].
    + exists [call_of (DELETE_sonarr_episodefile i) (Return code)].
      unfold count_calls, acknowledged, refused, answered_200, answered_other.
      destruct (code =? 200) eqn:E; cbn; rewrite E; destruct (stats p); cbn;
        repeat split; lia.
    + exists [call_of (DELETE_sonarr_episodefile i) (Raise e)].
      unfold count_calls. cbn. repeat split; lia.
Qed.

Hint Resolve ack_delete_movie_block ack_delete_episode_block : proc.

Lemma ack_cleanup_movie self movie :
  dry_run (config self) = dry -> obeys (T_ack dry) (cleanup_movie http utcnow self movie).
Proof. intros Hd. unfold cleanup_movie. rewrite Hd. obeys_auto T_ack_ok. Qed.

Lemma ack_cleanup_episode self episode :
  dry_run (config self) = dry -> obeys (T_ack dry) (cleanup_episode http utcnow self episode).
Proof. intros Hd. unfold cleanup_episode. rewrite Hd. obeys_auto T_ack_ok. Qed.

Lemma ack_phases self :
  dry_run (config self) = dry ->
  obeys (T_ack dry)
        (bind (cleanup_movies http utcnow self) (fun _ => cleanup_episodes http utcnow self)).
Proof.
  intros Hd. unfold cleanup_movies, cleanup_episodes.
  pose proof (fun m => ack_cleanup_movie self m Hd).
  pose proof (fun m => ack_cleanup_episode self m Hd).
  obeys_auto T_ack_ok.
Qed.

Lemma ack_run self :
  dry_run (config self) = dry -> obeys (T_ack dry) (run http utcnow self).
Proof.
  intros Hd p. pose proof (ack_phases self Hd p) as H.
  rewrite run_unfold.
  destruct (bind (cleanup_movies http utcnow self)
              (fun _ => cleanup_episodes http utcnow self) p) as [[[]|e] p1];
    cbn [fst snd error_of] in *; exact H.
Qed.

End Acknowledged.

Lemma count_calls_reads (which : request -> bool) (new : list call) :
  (forall r, which r = true -> mutating r = true) ->
  Forall (fun c => mutating (call_request c) = false) new ->
  count_calls (refused which) new = 0 /\ count_calls (acknowledged which) new = 0.
Proof.
  intros Hw H. unfold count_calls.
  induction H as [|c l Hc Hl IH]; [split; reflexivity|].
  cbn [filter]. unfold refused at 1, acknowledged at 1.
  destruct (which (call_request c)) eqn:E.
  - apply Hw in E. congruence.
  - cbn [andb]. exact IH.
Qed.

(** X10. Over every run the failure counters grow by exactly the deletions a
    service answered with a status other than 200. Outside a dry run the
    deletion counters grow by exactly the deletions answered 200, so a
    deletion that raised moves neither; in a dry run the failure counters
    do not move at all. *)
Theorem deletion_counters_mirror_the_answers {World : Type}
        (http : forall r : request, World -> outcome (reply r) * World)
        (utcnow : World -> Z * World) (self : MediaCleanup) (p : Proc World) :
  exists new,
    calls (snd (run http utcnow self p)) = (calls p ++ new)%list
    /\ movies_failed (stats (snd (run http utcnow self p)))
       = movies_failed (stats p) + count_calls (refused movie_delete) new
    /\ episodes_failed (stats (snd (run http utcnow self p)))
       = episodes_failed (stats p) + count_calls (refused episode_delete) new
    /\ (dry_run (config self) = false ->
        movies_deleted (stats (snd (run http utcnow self p)))
        = movies_deleted (stats p) + count_calls (acknowledged movie_delete) new
        /\ episodes_deleted (stats (snd (run http utcnow self p)))
           = episodes_deleted (stats p) + count_calls (acknowledged episode_delete) new)
    /\ (dry_run (config self) = true ->
        movies_failed (stats (snd (run http utcnow self p))) = movies_failed (stats p)
        /\ episodes_failed (stats (snd (run http utcnow self p))) = episodes_failed (stats p)).
Proof.
  destruct (ack_run http utcnow (dry_run (config self)) self eq_refl p)
    as (new & Hc & Hm & He & Hd).
  exists new. split; [exact Hc|]. split; [exact Hm|]. split; [exact He|].
  split; [exact Hd|]. intros Hdry.
  destruct (dry_run_sends_only_reads http utcnow self p Hdry) as (new' & Hc' & Hr).
  rewrite Hc in Hc'. apply app_inv_head in Hc'. subst new'.
  rewrite Hm, He.
  rewrite (proj1 (count_calls_reads movie_delete new
                    ltac:(intros []; (discriminate || reflexivity)) Hr)).
  rewrite (proj1 (count_calls_reads episode_delete new
                    ltac:(intros []; (discriminate || reflexivity)) Hr)).
  split; lia.
Qed.

Lemma deletion_counters_mirror_the_answers_witness :
  dry_run (config (Scenario.cleanup false None)) = false
  /\ exists new,
       calls (snd (run Scenario.http Scenario.utcnow (Scenario.cleanup false None)
                       (Scenario.start (Scenario.one_movie []))))
       = ([] ++ new)%list
       /\ movies_deleted (stats (snd (run Scenario.http Scenario.utcnow
                                          (Scenario.cleanup false None)
                                          (Scenario.start (Scenario.one_movie [])))))
          = 0 + count_calls (acknowledged movie_delete) new.
Proof.
  split; [reflexivity|].
  destruct (deletion_counters_mirror_the_answers Scenario.http Scenario.utcnow
              (Scenario.cleanup false None) (Scenario.start (Scenario.one_movie [])))
    as (new & Hc & _ & _ & Hlive & _).
  exists new. split; [exact Hc|]. exact (proj1 (Hlive eq_refl)).
Defined.

(** ** One movie against a cached catalog *)

Section OnCache.

Context {World : Type}.
Variable http : forall r : request, World -> outcome (reply r) * World.
Variable utcnow : World -> Z * World.
Implicit Types p : Proc World.

(** An eligible movie against a cached catalog: the pipeline up to the
    resolution, which sends nothing. *)
Lemma cleanup_movie_eligible_on_cache self movie cache text p :
  LastPlayedDate movie = Some text ->
  fst (_is_past_grace_period utcnow self text p) = Return true ->
  _movies_cache (mapper p) = Some cache ->
  exists p1,
    calls p1 = calls p /\ mapper p1 = mapper p
    /\ cleanup_movie http utcnow self movie p
       = match chain_on (mapper p) cache (or_default (Path movie) "unknown") (Tmdb movie) with
         | Raise e => (Raise e, p1)
         | Return None => (Return tt, with_stats (plus_one c_movies_skipped_not_found) p1)
         | Return (Some i) =>
             if Z.eqb i 0
             then (Return tt, with_stats (plus_one c_movies_skipped_not_found) p1)
             else
               match dict_get Z.eqb i cache with
               | None => (Raise KeyError, p1)
               | Some entry =>
                   if _has_keep_tag (tags entry) (radarr_keep_tag_id self)
                   then (Return tt, with_stats (plus_one c_movies_skipped_tag) p1)
                   else bind (delete_radarr_movie http i (dry_run (config self)))
                             (fun success => if success then incr c_movies_deleted
                                             else incr c_movies_failed) p1
               end
         end.
Proof.
  intros Hlp Hpast Hc.
  destruct (counted_eligible_frame utcnow c_movies_eligible p) as (Hm & Hcalls & _).
  assert (Hagain : _get_all_radarr_movies http (counted_eligible utcnow c_movies_eligible p)
                   = (Return cache, counted_eligible utcnow c_movies_eligible p)).
  { apply get_all_radarr_movies_again. rewrite Hm. exact Hc. }
  exists (counted_eligible utcnow c_movies_eligible p).
  split; [exact Hcalls|]. split; [exact Hm|].
  rewrite (cleanup_movie_resolved http utcnow self movie text cache p Hlp Hpast);
    [|now rewrite Hagain].
  rewrite Hagain. reflexivity.
Qed.

(** A movie whose check answers that the grace period is not over: the
    loop body reads the clock once more and returns. *)
Lemma cleanup_movie_not_past self movie text p :
  LastPlayedDate movie = Some text ->
  fst (_is_past_grace_period utcnow self text p) = Return false ->
  cleanup_movie http utcnow self movie p
  = (Return tt, snd (now utcnow (snd (now utcnow p)))).
Proof.
  intros Hlp Hpast. unfold cleanup_movie. rewrite Hlp.
  unfold bind at 1. rewrite (is_past_grace_period_returns utcnow self text p false Hpast).
  cbn [negb]. unfold bind, ret.
  destruct (now utcnow (snd (now utcnow p))) as [o p2] eqn:E.
  assert (Ho : exists t, o = Return t).
  { unfold now in E at 1. destruct (utcnow (world (snd (now utcnow p)))) as [t w].
    exists t. now injection E as <- _. }
  destruct Ho as [t ->]. reflexivity.
Qed.

(** A movie whose check raises: the loop body raises the same, and has
    done nothing else. *)
Lemma cleanup_movie_check_raises self movie text e p :
  LastPlayedDate movie = Some text ->
  fst (_is_past_grace_period utcnow self text p) = Raise e ->
  cleanup_movie http utcnow self movie p
  = (Raise e, snd (_is_past_grace_period utcnow self text p)).
Proof.
  intros Hlp Hpast. unfold cleanup_movie. rewrite Hlp. unfold bind at 1.
  destruct (_is_past_grace_period utcnow self text p) as [o p1]. cbn [fst snd] in *.
  now subst o.
Qed.

End OnCache.

Section OnCacheMovie.

Context {World : Type}.
Variable http : forall r : request, World -> outcome (reply r) * World.
Variable utcnow : World -> Z * World.
Implicit Types p : Proc World.

(** X11. One watched movie against a cached catalog sends at most one call, and
    that call is the deletion of the entry the matchers resolved: only
    outside a dry run, only for an item whose grace-period check answered
    that the period is over, only for an identifier other than 0 and an
    entry without the keep tag. The lookup of the resolved entry never
    fails: without that call the body returns, or raises what the
    grace-period check raised, or raises what the path scan raised. *)
Theorem movie_on_cached_catalog_sends_at_most_one_deletion
        (self : MediaCleanup) (movie : JellyfinItem) (cache : dict Z RadarrMovie) p :
  _movies_cache (mapper p) = Some cache ->
  let r := cleanup_movie http utcnow self movie p in
  let resolved := chain_on (mapper p) cache (or_default (Path movie) "unknown") (Tmdb movie) in
  (calls (snd r) = calls p
   /\ (fst r = Return tt
       \/ exists e,
            fst r = Raise e
            /\ ((exists text,
                   LastPlayedDate movie = Some text
                   /\ fst (_is_past_grace_period utcnow self text p) = Raise e)
                \/ ((exists text,
                       LastPlayedDate movie = Some text
                       /\ fst (_is_past_grace_period utcnow self text p) = Return true)
                    /\ resolved = Raise e))))
  \/ (exists (i : Z) (entry : RadarrMovie) (o : outcome Z) (text : isotext),
        calls (snd r) = (calls p ++ [call_of (DELETE_radarr_movie i) o])%list
        /\ fst r = match o with Return _ => Return tt | Raise e => Raise e end
        /\ dry_run (config self) = false
        /\ LastPlayedDate movie = Some text
        /\ fst (_is_past_grace_period utcnow self text p) = Return true
        /\ resolved = Return (Some i)
        /\ i <> 0
        /\ dict_get Z.eqb i cache = Some entry
        /\ _has_keep_tag (tags entry) (radarr_keep_tag_id self) = false).
Proof.
  intros Hc. cbv zeta.
  destruct (LastPlayedDate movie) as [text|] eqn:Hlp.
  2: { left. unfold cleanup_movie. rewrite Hlp. cbn. split; [reflexivity | left; reflexivity]. }
  destruct (fst (_is_past_grace_period utcnow self text p)) as [[|]|e] eqn:Hpast.
  2: { left. rewrite (cleanup_movie_not_past http utcnow self movie text p Hlp Hpast).
       cbn [fst snd]. split; [|left; reflexivity].
       unfold now. destruct (utcnow (world p)) as [t0 w0]. cbn [snd world].
       destruct (utcnow w0) as [t1 w1]. reflexivity. }
  2: { left. rewrite (cleanup_movie_check_raises http utcnow self movie text e p Hlp Hpast).
       cbn [fst snd].
       split; [apply (is_past_grace_period_frame utcnow self text p)|].
       right. exists e. split; [reflexivity|]. left. exists text. auto. }
  destruct (cleanup_movie_eligible_on_cache http utcnow self movie cache text p Hlp Hpast Hc)
    as (p1 & Hc1 & Hm1 & ->).
  destruct (chain_on (mapper p) cache (or_default (Path movie) "unknown") (Tmdb movie))
    as [[i|]|e] eqn:Hch.
  - destruct (Z.eqb_spec i 0) as [->|Hi].
    { left. cbn. split; [exact Hc1 | left; reflexivity]. }
    destruct (dict_get Z.eqb i cache) as [entry|] eqn:Hget.
    2: { exfalso. destruct (chain_on_In _ _ _ _ _ Hch) as (m & Hin).
         apply In_dict_mem in Hin. unfold dict_mem in Hin. rewrite Hget in Hin.
         discriminate. }
    destruct (_has_keep_tag (tags entry) (radarr_keep_tag_id self)) eqn:Hk.
    { left. cbn. split; [exact Hc1 | left; reflexivity]. }
    destruct (dry_run (config self)) eqn:Hd.
    { left. cbn. split; [exact Hc1 | left; reflexivity]. }
    right. unfold delete_radarr_movie, incr.
    unfold bind, send, modify_mapper, ret, modify_stats. cbv beta.
    change (reply (DELETE_radarr_movie i)) with Z.
    destruct (http (DELETE_radarr_movie i) (world p1)) as [[code|e] w].
    + exists i, entry, (Return code), text.
      destruct (code =? 200); cbn; rewrite Hc1; repeat split; auto.
    + exists i, entry, (Raise e), text. cbn. rewrite Hc1. repeat split; auto.
  - left. cbn. split; [exact Hc1 | left; reflexivity].
  - left. cbn. split; [exact Hc1|]. right. exists e. split; [reflexivity|].
    right. split; [exists text; auto | reflexivity].
Qed.

End OnCacheMovie.

Lemma movie_on_cached_catalog_sends_at_most_one_deletion_witness :
  let p := snd (_get_all_radarr_movies Scenario.http
                  (Scenario.start (Scenario.one_movie []))) in
  let r := cleanup_movie Scenario.http Scenario.utcnow (Scenario.cleanup false (Some 5))
             (Scenario.watched ("/media/movies/" ++ Scenario.the_matrix) 1 None) p in
  (exists cache, _movies_cache (mapper p) = Some cache)
  /\ List.length (calls (snd r)) = 2%nat
  /\ ((calls (snd r) = calls p /\ fst r = Return tt)
      \/ exists i o, calls (snd r) = (calls p ++ [call_of (DELETE_radarr_movie i) o])%list).
Proof.
  cbv zeta. split; [eexists; reflexivity|]. split; [reflexivity|].
  destruct (movie_on_cached_catalog_sends_at_most_one_deletion
              Scenario.http Scenario.utcnow (Scenario.cleanup false (Some 5))
              (Scenario.watched ("/media/movies/" ++ Scenario.the_matrix) 1 None)
              [(3, Scenario.in_catalog 3 ("/movies/" ++ Scenario.the_matrix) (Some 603) [])]
              (snd (_get_all_radarr_movies Scenario.http
                      (Scenario.start (Scenario.one_movie []))))
              eq_refl)
    as [[Hc _]|(i & entry & o & text & Hc & _)].
  - exfalso. vm_compute in Hc. discriminate Hc.
  - right. exists i, o. exact Hc.
Defined.

(** ** Episodes: grouping and lookup *)

Section Episodes.

Context {World : Type}.
Variable http : forall r : request, World -> outcome (reply r) * World.
Implicit Types p : Proc World.

(** X12. The grouping of [cleanup_episodes] is a stable partition: under each
    series name sit exactly the watched episodes of that name, in the order
    they were listed; a name no episode bears is not a key. Episodes
    without a series name are filed under 'Unknown'. *)
Theorem group_by_series_is_a_stable_partition (watched : list JellyfinItem) (name : string) :
  dict_get String.eqb name (group_by_series watched)
  = match filter (fun e => String.eqb (series_name_of e) name) watched with
    | [] => None
    | l => Some l
    end.
Proof.
  unfold group_by_series.
  assert (H : forall acc,
             dict_get String.eqb name
               (fold_left
                  (fun by_series episode =>
                     let series_name := or_default (SeriesName episode) "Unknown" in
                     let sofar := match dict_get String.eqb series_name by_series with
                                  | Some l => l
                                  | None => []
                                  end in
                     dict_set String.eqb series_name (sofar ++ [episode])%list by_series)
                  watched acc)
             = match dict_get String.eqb name acc,
                     filter (fun e => String.eqb (series_name_of e) name) watched with
               | Some a, l => Some (a ++ l)%list
               | None, [] => None
               | None, l => Some l
               end).
  { induction watched as [|e r IH]; intros acc; cbn [fold_left filter].
    - destruct (dict_get String.eqb name acc); [now rewrite app_nil_r | reflexivity].
    - rewrite IH. cbv zeta. rewrite dict_get_set_string.
      unfold series_name_of.
      rewrite (String.eqb_sym (or_default (SeriesName e) "Unknown") name).
      destruct (String.eqb_spec name (or_default (SeriesName e) "Unknown")) as [->|Hne].
      + destruct (dict_get String.eqb (or_default (SeriesName e) "Unknown") acc) as [a|].
        * now rewrite <- app_assoc.
        * reflexivity.
      + reflexivity. }
  rewrite H. reflexivity.
Qed.

Lemma scan_episodes_by_path_first sp jn episodes fid :
  scan_episodes_by_path sp jn episodes = Return (Some fid) ->
  exists e, first_episode_match sp jn episodes e /\ episodeFileId e = fid.
Proof.
  induction episodes as [|e r IH]; cbn [scan_episodes_by_path]; [discriminate|].
  destruct (ep_hasFile e) eqn:Hf; cbn [negb].
  - destruct (episodeFile e) as [f|] eqn:Hm; [|discriminate].
    destruct (String.eqb_spec jn (_normalize_path f sp)) as [E|Hne].
    + intros [= <-]. exists e. split; [|reflexivity]. exists [], r, f. repeat split; auto.
      intros e' [].
    + intros H. destruct (IH H) as (e' & (before & after & f' & -> & Hno & Hf' & Hm' & Hn) & Hid).
      exists e'. split; [|exact Hid].
      exists (e :: before)%list, after, f'. repeat split; auto.
      intros e'' [<-|Hin] Hf''.
      * exists f. split; [exact Hm | congruence].
      * apply (Hno e'' Hin Hf'').
  - intros H. destruct (IH H) as (e' & (before & after & f' & -> & Hno & Hf' & Hm' & Hn) & Hid).
    exists e'. split; [|exact Hid].
    exists (e :: before)%list, after, f'. repeat split; auto.
    intros e'' [<-|Hin] Hf''; [congruence|].
    apply (Hno e'' Hin Hf'').
Qed.

Lemma scan_series_first sp jn sids p fid :
  fst (scan_series http sp jn sids p) = Return (Some fid) ->
  exists sid episodes e,
    In sid sids
    /\ dict_get Z.eqb sid (_episodes_cache (mapper (snd (scan_series http sp jn sids p))))
       = Some episodes
    /\ first_episode_match sp jn episodes e
    /\ episodeFileId e = fid.
Proof.
  revert p. induction sids as [|sid r IH]; intros p; cbn [scan_series].
  - cbn. discriminate.
  - remember (bind (_get_sonarr_episodes http sid) _ p) as res eqn:Hres.
    unfold bind at 1 in Hres.
    pose proof (get_sonarr_episodes_cached http sid p) as Hc. cbv zeta in Hc.
    destruct (_get_sonarr_episodes http sid p) as [[eps|e] p1]; cbn [fst snd] in Hc.
    2: { subst res. cbn. discriminate. }
    destruct (Hc eps eq_refl) as [Hsid Hkeep]. clear Hc.
    unfold bind at 1, lift in Hres.
    destruct (scan_episodes_by_path sp jn eps) as [[fid'|]|e] eqn:Hscan.
    + subst res. unfold ret. cbn [fst snd]. intros [= <-].
      destruct (scan_episodes_by_path_first _ _ _ _ Hscan) as (e & Hm & Hid).
      exists sid, eps, e. split; [left; reflexivity | auto].
    + subst res. intros H.
      destruct (IH p1 H) as (sid' & eps' & e & Hin & Hget & Hm & Hid).
      exists sid', eps', e. split; [right; exact Hin | auto].
    + subst res. cbn. discriminate.
Qed.

End Episodes.

Section EpisodeLookup.

Context {World : Type}.
Variable http : forall r : request, World -> outcome (reply r) * World.
Implicit Types p : Proc World.

(** X13. An episode file id handed back by [find_sonarr_episode_by_path] is
    that of a cached episode: the first one, in the episode list of some
    series searched, that has a file whose normalized path equals the
    normalized Jellyfin path. With a series id other than 0 given, that
    series is the one. *)
Theorem find_sonarr_episode_by_path_returns_first_match_of_a_series
        (path : string) (series : option Z) p (fid : Z) :
  fst (find_sonarr_episode_by_path http path series p) = Return (Some fid) ->
  exists sid episodes e,
    dict_get Z.eqb sid
      (_episodes_cache (mapper (snd (find_sonarr_episode_by_path http path series p))))
    = Some episodes
    /\ first_episode_match (sonarr_prefix (mapper p))
         (_normalize_path path (jellyfin_tv_prefix (mapper p))) episodes e
    /\ episodeFileId e = fid
    /\ (truthy_id series = true -> series = Some sid).
Proof.
  remember (find_sonarr_episode_by_path http path series p) as r eqn:Hr.
  unfold find_sonarr_episode_by_path in Hr.
  unfold bind at 1, get_mapper at 1 in Hr. unfold bind at 1 in Hr.
  destruct (truthy_id series) eqn:Ht.
  - unfold ret at 1 in Hr. destruct series as [sid|]; [|discriminate Ht].
    subst r. intros H.
    destruct (scan_series_first http _ _ _ _ _ H) as (sid' & eps & e & [<-|[]] & Hget & Hm & Hid).
    exists sid, eps, e. auto.
  - unfold bind at 1 in Hr.
    destruct (_get_all_sonarr_series http p) as [[all|e] p1].
    2: { subst r. cbn. discriminate. }
    unfold ret at 1 in Hr. subst r. intros H.
    destruct (scan_series_first http _ _ _ _ _ H) as (sid' & eps & e & _ & Hget & Hm & Hid).
    exists sid', eps, e. repeat split; auto. discriminate.
Qed.

(** X14. With a series id other than 0, the lookup never asks for the series
    list: the series cache is as before, and at most one call is sent, the
    fetch of that series' episodes, and none when they are cached. A
    series id of 0 is no series id: every series is searched. *)
Theorem find_sonarr_episode_by_path_with_series_id_skips_the_series_list
        (path : string) (sid : Z) p :
  sid <> 0 ->
  let r := find_sonarr_episode_by_path http path (Some sid) p in
  _series_cache (mapper (snd r)) = _series_cache (mapper p)
  /\ (calls (snd r) = calls p
      \/ (dict_get Z.eqb sid (_episodes_cache (mapper p)) = None
          /\ exists o, calls (snd r) = (calls p ++ [call_of (GET_sonarr_episode sid) o])%list))
  /\ find_sonarr_episode_by_path http path (Some 0) p
     = find_sonarr_episode_by_path http path None p.
Proof.
  intros Hsid. cbv zeta. split; [|split; [|reflexivity]].
  - remember (find_sonarr_episode_by_path http path (Some sid) p) as r eqn:Hr.
    unfold find_sonarr_episode_by_path, truthy_id in Hr.
    apply Z.eqb_neq in Hsid. rewrite Hsid in Hr. cbn [negb] in Hr.
    unfold bind, get_mapper, ret in Hr. cbn [scan_series] in Hr.
    unfold _get_sonarr_episodes in Hr.
    unfold bind, get_mapper, send, modify_mapper, ret, lift in Hr.
    destruct (dict_get Z.eqb sid (_episodes_cache (mapper p))) as [l|].
    + destruct (scan_episodes_by_path _ _ l) as [[fid|]|e]; subst r; reflexivity.
    + destruct (http (GET_sonarr_episode sid) (world p)) as [[eps|e] w].
      * cbn [with_mapper] in Hr.
        destruct (scan_episodes_by_path _ _ (filter ep_hasFile eps)) as [[fid|]|e];
          subst r; reflexivity.
      * subst r. reflexivity.
  - remember (find_sonarr_episode_by_path http path (Some sid) p) as r eqn:Hr.
    unfold find_sonarr_episode_by_path, truthy_id in Hr.
    apply Z.eqb_neq in Hsid. rewrite Hsid in Hr. cbn [negb] in Hr.
    unfold bind, get_mapper, ret in Hr. cbn [scan_series] in Hr.
    unfold _get_sonarr_episodes in Hr.
    unfold bind, get_mapper, send, modify_mapper, ret, lift in Hr.
    destruct (dict_get Z.eqb sid (_episodes_cache (mapper p))) as [l|].
    + left. destruct (scan_episodes_by_path _ _ l) as [[fid|]|e]; subst r; reflexivity.
    + right. split; [reflexivity|].
      change (reply (GET_sonarr_episode sid)) with (list SonarrEpisode) in Hr.
      destruct (http (GET_sonarr_episode sid) (world p)) as [[eps|e] w].
      * exists (Return eps). cbn [with_mapper] in Hr.
        destruct (scan_episodes_by_path _ _ (filter ep_hasFile eps)) as [[fid|]|e];
          subst r; reflexivity.
      * exists (Raise e). subst r. reflexivity.
Qed.

End EpisodeLookup.

Lemma find_sonarr_episode_by_path_returns_first_match_of_a_series_witness :
  let w := Scenario.Build_t 0 (Return []) (Return []) (Return []) (Return []) (Return [])
             (Return 200) (Return [{| series_id := 4 |}])
             (Return [{| ep_hasFile := true; episodeFile := Some "/tv/Show/S01E01.mkv"%string;
                         episodeFileId := 9 |}])
             (Return []) (Return 200) in
  let r := find_sonarr_episode_by_path Scenario.http "/media/tv/Show/S01E01.mkv" None
             (Scenario.start w) in
  fst r = Return (Some 9)
  /\ exists sid episodes e,
       dict_get Z.eqb sid (_episodes_cache (mapper (snd r))) = Some episodes
       /\ first_episode_match "/tv/" "Show/S01E01.mkv" episodes e
       /\ episodeFileId e = 9.
Proof.
  cbv zeta. split; [reflexivity|].
  destruct (find_sonarr_episode_by_path_returns_first_match_of_a_series Scenario.http
              "/media/tv/Show/S01E01.mkv" None
              (Scenario.start
                 (Scenario.Build_t 0 (Return []) (Return []) (Return []) (Return []) (Return [])
                    (Return 200) (Return [{| series_id := 4 |}])
                    (Return [{| ep_hasFile := true;
                                episodeFile := Some "/tv/Show/S01E01.mkv"%string;
                                episodeFileId := 9 |}])
                    (Return []) (Return 200)))
              9 eq_refl)
    as (sid & episodes & e & H1 & H2 & H3 & _).
  exists sid, episodes, e. split; [exact H1|]. split; [exact H2 | exact H3].
Defined.

Lemma find_sonarr_episode_by_path_with_series_id_skips_the_series_list_witness :
  4 <> 0
  /\ _series_cache
       (mapper (snd (find_sonarr_episode_by_path Scenario.http "/media/tv/Show/S01E01.mkv"
                       (Some 4) (Scenario.start Scenario.quiet))))
     = None.
Proof.
  split; [discriminate|].
  apply (proj1 (find_sonarr_episode_by_path_with_series_id_skips_the_series_list
                  Scenario.http "/media/tv/Show/S01E01.mkv" 4
                  (Scenario.start Scenario.quiet) ltac:(discriminate))).
Defined.

(** ** The entry point *)

Section Reads.

Context {World : Type}.
Variable http : forall r : request, World -> outcome (reply r) * World.
Variable lower : string -> string.
Implicit Types p : Proc World.

Lemma only_reads_ok : composes (@T_sent World only_reads).
Proof.
  apply T_sent_ok; unfold only_reads.
  - constructor.
  - intros a b _ Ha Hb. apply Forall_app. split; assumption.
  - intros e _. constructor.
Qed.

Lemma reads_send (r : request) :
  mutating r = false -> obeys (T_sent only_reads) (send http r).
Proof.
  intros Hr p. unfold send. destruct (http r (world p)) as [o w]. cbn [snd calls].
  exists [call_of r o]. split; [reflexivity|]. repeat constructor. exact Hr.
Qed.

Lemma reads_modify_stats f : obeys (T_sent only_reads) (@modify_stats World f).
Proof. intros p. exists []. rewrite app_nil_r. split; [reflexivity | constructor]. Qed.

Lemma reads_modify_mapper f : obeys (T_sent only_reads) (@modify_mapper World f).
Proof. intros p. exists []. rewrite app_nil_r. split; [reflexivity | constructor]. Qed.

(** The constructor sends reads only, whether it returns or raises. *)
Lemma reads_MediaCleanup_init cfg jm jt rp sp :
  obeys (T_sent only_reads) (MediaCleanup_init http lower cfg jm jt rp sp).
Proof.
  unfold MediaCleanup_init, _get_primary_user_id, _get_keep_tag_id, get_jellyfin_users,
    get_radarr_tags, get_sonarr_tags.
  pose proof (reads_send GET_jellyfin_Users eq_refl).
  pose proof (reads_send GET_radarr_tag eq_refl).
  pose proof (reads_send GET_sonarr_tag eq_refl).
  pose proof reads_modify_stats. pose proof reads_modify_mapper.
  obeys_auto only_reads_ok.
Qed.

End Reads.

Lemma count_calls_positive (f : call -> bool) (l : list call) :
  (count_calls f l >? 0) = existsb f l.
Proof.
  unfold count_calls. induction l as [|c r IH]; [reflexivity|].
  cbn [filter existsb]. destruct (f c); cbn [orb List.length]; [|exact IH].
  apply Z.gtb_lt. lia.
Qed.

Lemma existsb_refused_deletion (l : list call) :
  existsb refused_deletion l
  = (existsb (refused movie_delete) l || existsb (refused episode_delete) l)%bool.
Proof.
  induction l as [|c r IH]; [reflexivity|]. cbn [existsb]. rewrite IH.
  unfold refused_deletion.
  destruct (refused movie_delete c), (refused episode_delete c),
    (existsb (refused movie_delete) r), (existsb (refused episode_delete) r); reflexivity.
Qed.

Lemma existsb_refused_reads (l : list call) :
  Forall (fun c => mutating (call_request c) = false) l ->
  existsb refused_deletion l = false.
Proof.
  induction 1 as [|c r Hc Hr IH]; [reflexivity|]. cbn [existsb]. rewrite IH.
  unfold refused_deletion, refused.
  destruct (call_request c); try discriminate Hc; reflexivity.
Qed.

Section Main.

Context {World : Type}.
Variable http : forall r : request, World -> outcome (reply r) * World.
Variable utcnow : World -> Z * World.
Variable lower : string -> string.
Variable int : string -> outcome Z.
Implicit Types p : Proc World.

(** What [run] hands back is the statistics it leaves behind. *)
Lemma run_returns_final_stats self p st :
  fst (run http utcnow self p) = Return st -> st = stats (snd (run http utcnow self p)).
Proof.
  rewrite run_unfold.
  destruct (bind (cleanup_movies http utcnow self)
              (fun _ => cleanup_episodes http utcnow self) p) as [[[]|e] p1]; cbn.
  - now intros [= <-].
  - discriminate.
Qed.

(** X15. With one of the three API keys unset or empty, [main] exits with
    status 1 before anything is constructed: no call is sent and the
    process is as it was. A grace period [int] does not accept is raised
    before that, also without a call. *)
Theorem main_without_a_key_exits_1_before_any_call (environ : dict string string) p :
  (forall days,
      int (os_getenv environ "GRACE_PERIOD_DAYS" "5") = Return days ->
      os_getenv environ "JELLYFIN_API_KEY" "" = EmptyString
      \/ os_getenv environ "RADARR_API_KEY" "" = EmptyString
      \/ os_getenv environ "SONARR_API_KEY" "" = EmptyString ->
      main http utcnow lower int environ p = (Return 1, p))
  /\ (forall e,
        int (os_getenv environ "GRACE_PERIOD_DAYS" "5") = Raise e ->
        main http utcnow lower int environ p = (Raise e, p)).
Proof.
  split.
  - intros days Hd Hk. unfold main, from_env. rewrite Hd.
    cbn [jellyfin_api_key radarr_api_key sonarr_api_key].
    destruct (PyStr.truthy (os_getenv environ "JELLYFIN_API_KEY" "")) eqn:E1;
      [|reflexivity].
    destruct (PyStr.truthy (os_getenv environ "RADARR_API_KEY" "")) eqn:E2;
      [|reflexivity].
    destruct (PyStr.truthy (os_getenv environ "SONARR_API_KEY" "")) eqn:E3;
      [|reflexivity].
    destruct Hk as [H|[H|H]]; rewrite H in *; discriminate.
  - intros e He. unfold main, from_env. rewrite He. reflexivity.
Qed.

(** X16. When DRY_RUN is unset, or set to text that lower-cases to 'true',
    [main] sends reads only, whatever the services hold; and when it
    exits, it exits with status 0, unless a key was missing, in which
    case it sent nothing. *)
Theorem main_in_dry_run_only_reads (environ : dict string string) p :
  String.eqb (lower (os_getenv environ "DRY_RUN" "true")) "true" = true ->
  exists new,
    calls (snd (main http utcnow lower int environ p)) = (calls p ++ new)%list
    /\ Forall (fun c => mutating (call_request c) = false) new
    /\ (forall code, fst (main http utcnow lower int environ p) = Return code ->
                     code = 0 \/ (code = 1 /\ new = [])).
Proof.
  intros Hdry.
  remember (main http utcnow lower int environ p) as r eqn:Hr.
  unfold main, from_env in Hr.
  destruct (int (os_getenv environ "GRACE_PERIOD_DAYS" "5")) as [days|e].
  2: { subst r. exists []. rewrite app_nil_r. repeat split; [constructor | discriminate]. }
  cbn [jellyfin_api_key radarr_api_key sonarr_api_key settings config_jellyfin_movie_prefix
       config_jellyfin_tv_prefix config_radarr_prefix config_sonarr_prefix dry_run] in Hr.
  rewrite Hdry in Hr. cbn [negb andb] in Hr.
  destruct (PyStr.truthy (os_getenv environ "JELLYFIN_API_KEY" "")).
  2: { subst r. exists []. rewrite app_nil_r.
       repeat split; [constructor | intros code [= <-]; auto]. }
  destruct (PyStr.truthy (os_getenv environ "RADARR_API_KEY" "")).
  2: { subst r. exists []. rewrite app_nil_r.
       repeat split; [constructor | intros code [= <-]; auto]. }
  destruct (PyStr.truthy (os_getenv environ "SONARR_API_KEY" "")).
  2: { subst r. exists []. rewrite app_nil_r.
       repeat split; [constructor | intros code [= <-]; auto]. }
  cbn [negb] in Hr. unfold bind at 1 in Hr.
  match type of Hr with
  | context [MediaCleanup_init http lower ?cfg ?jm ?jt ?rp ?sp p] =>
      pose proof (reads_MediaCleanup_init http lower cfg jm jt rp sp p) as Hinit;
      pose proof (MediaCleanup_init_fresh http lower cfg jm jt rp sp p) as Hret;
      destruct (MediaCleanup_init http lower cfg jm jt rp sp p) as [[self|e] p1]
  end; cbn [fst snd error_of] in Hinit, Hret.
  2: { subst r. destruct Hinit as (n1 & Hc1 & Hr1). exists n1. cbn [fst snd].
       repeat split; [exact Hc1 | exact Hr1 | discriminate]. }
  destruct Hinit as (n1 & Hc1 & Hr1).
  destruct (Hret self eq_refl) as (Hself & _).
  assert (Hd : dry_run (config self) = true) by (rewrite Hself; reflexivity).
  destruct (dry_run_sends_only_reads http utcnow self p1 Hd) as (n2 & Hc2 & Hr2).
  unfold bind in Hr.
  destruct (run http utcnow self p1) as [[st|e] p2]; cbn [fst snd] in Hc2; subst r;
    unfold ret; cbn [fst snd]; exists (n1 ++ n2)%list; rewrite Hc2, Hc1, app_assoc.
  - repeat split; [apply Forall_app; split; assumption|].
    intros code [= <-]. left. reflexivity.
  - repeat split; [apply Forall_app; split; assumption | discriminate].
Qed.

(** X17. Outside a dry run and with the three keys set, whenever [main] exits
    with a status, no exception escaping it, that status is 1 exactly when
    one of the deletions it sent was answered with a status other than 200,
    and 0 otherwise. *)
Theorem main_exit_status_tells_refused_deletions (environ : dict string string) p (code : Z) :
  String.eqb (lower (os_getenv environ "DRY_RUN" "true")) "true" = false ->
  os_getenv environ "JELLYFIN_API_KEY" "" <> EmptyString ->
  os_getenv environ "RADARR_API_KEY" "" <> EmptyString ->
  os_getenv environ "SONARR_API_KEY" "" <> EmptyString ->
  fst (main http utcnow lower int environ p) = Return code ->
  exists new,
    calls (snd (main http utcnow lower int environ p)) = (calls p ++ new)%list
    /\ code = (if existsb refused_deletion new then 1 else 0).
Proof.
  intros Hlive K1 K2 K3.
  remember (main http utcnow lower int environ p) as r eqn:Hr.
  unfold main, from_env in Hr.
  destruct (int (os_getenv environ "GRACE_PERIOD_DAYS" "5")) as [days|e].
  2: { subst r. discriminate. }
  cbn [jellyfin_api_key radarr_api_key sonarr_api_key settings config_jellyfin_movie_prefix
       config_jellyfin_tv_prefix config_radarr_prefix config_sonarr_prefix dry_run] in Hr.
  rewrite Hlive in Hr. cbn [negb andb] in Hr.
  destruct (os_getenv environ "JELLYFIN_API_KEY" "") as [|c1 k1] eqn:E1; [contradiction|].
  destruct (os_getenv environ "RADARR_API_KEY" "") as [|c2 k2] eqn:E2; [contradiction|].
  destruct (os_getenv environ "SONARR_API_KEY" "") as [|c3 k3] eqn:E3; [contradiction|].
  cbn [PyStr.truthy negb] in Hr. unfold bind at 1 in Hr.
  match type of Hr with
  | context [MediaCleanup_init http lower ?cfg ?jm ?jt ?rp ?sp p] =>
      pose proof (reads_MediaCleanup_init http lower cfg jm jt rp sp p) as Hinit;
      pose proof (MediaCleanup_init_fresh http lower cfg jm jt rp sp p) as Hret;
      destruct (MediaCleanup_init http lower cfg jm jt rp sp p) as [[self|e] p1]
  end; cbn [fst snd error_of] in Hinit, Hret.
  2: { subst r. discriminate. }
  destruct Hinit as (n1 & Hc1 & Hr1).
  destruct (Hret self eq_refl) as (Hself & Hst).
  assert (Hd : dry_run (config self) = false) by (rewrite Hself; reflexivity).
  destruct (ack_run http utcnow false self Hd p1) as (n2 & Hc2 & Hm & He & _).
  pose proof (run_returns_final_stats self p1) as Hfin.
  unfold bind in Hr.
  destruct (run http utcnow self p1) as [[st|e] p2]; cbn [fst snd] in *; subst r;
    cbn [fst snd]; [|discriminate].
  rewrite (Hfin st eq_refl). rewrite Hm, He, Hst.
  cbn [movies_failed episodes_failed CleanupStats_new].
  rewrite !Z.add_0_l, !count_calls_positive.
  assert (Hb : existsb refused_deletion (n1 ++ n2)
               = (existsb (refused movie_delete) n2
                  || existsb (refused episode_delete) n2)%bool).
  { rewrite existsb_app, (existsb_refused_reads n1 Hr1), existsb_refused_deletion.
    reflexivity. }
  destruct (existsb (refused movie_delete) n2 || existsb (refused episode_delete) n2)%bool;
    unfold ret; cbn [fst snd]; intros [= <-];
    exists (n1 ++ n2)%list; rewrite Hc2, Hc1, app_assoc, Hb; split; reflexivity.
Qed.

End Main.

Lemma main_without_a_key_exits_1_before_any_call_witness :
  main Scenario.http Scenario.utcnow Scenario.lower (fun _ => Return 5)
       [("JELLYFIN_API_KEY"%string, "k"%string); ("SONARR_API_KEY"%string, "k"%string)]
       (Scenario.start Scenario.quiet)
  = (Return 1, Scenario.start Scenario.quiet).
Proof.
  apply (proj1 (main_without_a_key_exits_1_before_any_call
                  Scenario.http Scenario.utcnow Scenario.lower (fun _ => Return 5)
                  [("JELLYFIN_API_KEY"%string, "k"%string);
                   ("SONARR_API_KEY"%string, "k"%string)]
                  (Scenario.start Scenario.quiet)) 5).
  - reflexivity.
  - right. left. reflexivity.
Defined.

Lemma main_in_dry_run_only_reads_witness :
  let environ := [("JELLYFIN_API_KEY"%string, "k"%string);
                  ("RADARR_API_KEY"%string, "k"%string);
                  ("SONARR_API_KEY"%string, "k"%string);
                  ("DRY_RUN"%string, "True"%string)] in
  let w := Scenario.Build_t (100 * microseconds_per_day)
             (Return [{| user_Name := "Admin"; user_Id := "u1" |}])
             (Return [Scenario.watched ("/media/movies/" ++ Scenario.the_matrix) 1 None])
             (Return [])
             (Return [Scenario.in_catalog 3 ("/movies/" ++ Scenario.the_matrix) (Some 603) []])
             (Return []) (Return 200) (Return []) (Return []) (Return []) (Return 200) in
  let r := main Scenario.http Scenario.utcnow Scenario.lower (fun _ => Return 5) environ
             (Scenario.start w) in
  fst r = Return 0
  /\ movies_deleted (stats (snd r)) = 1
  /\ exists new, calls (snd r) = ([] ++ new)%list
                 /\ Forall (fun c => mutating (call_request c) = false) new.
Proof.
  cbv zeta. split; [reflexivity|]. split; [reflexivity|].
  destruct (main_in_dry_run_only_reads Scenario.http Scenario.utcnow Scenario.lower
              (fun _ => Return 5)
              [("JELLYFIN_API_KEY"%string, "k"%string);
               ("RADARR_API_KEY"%string, "k"%string);
               ("SONARR_API_KEY"%string, "k"%string);
               ("DRY_RUN"%string, "True"%string)]
              (Scenario.start
                 (Scenario.Build_t (100 * microseconds_per_day)
                    (Return [{| user_Name := "Admin"; user_Id := "u1" |}])
                    (Return [Scenario.watched ("/media/movies/" ++ Scenario.the_matrix) 1 None])
                    (Return [])
                    (Return [Scenario.in_catalog 3 ("/movies/" ++ Scenario.the_matrix)
                               (Some 603) []])
                    (Return []) (Return 200) (Return []) (Return []) (Return [])
                    (Return 200)))
              eq_refl)
    as (new & Hc & Hr & _).
  exists new. split; [exact Hc | exact Hr].
Defined.

Lemma main_exit_status_tells_refused_deletions_witness :
  let environ := [("JELLYFIN_API_KEY"%string, "k"%string);
                  ("RADARR_API_KEY"%string, "k"%string);
                  ("SONARR_API_KEY"%string, "k"%string);
                  ("DRY_RUN"%string, "false"%string)] in
  let w := Scenario.Build_t (100 * microseconds_per_day)
             (Return [{| user_Name := "Admin"; user_Id := "u1" |}])
             (Return [Scenario.watched ("/media/movies/" ++ Scenario.the_matrix) 1 None])
             (Return [])
             (Return [Scenario.in_catalog 3 ("/movies/" ++ Scenario.the_matrix) (Some 603) []])
             (Return []) (Return 500) (Return []) (Return []) (Return []) (Return 200) in
  let r := main Scenario.http Scenario.utcnow Scenario.lower (fun _ => Return 5) environ
             (Scenario.start w) in
  fst r = Return 1
  /\ exists new, calls (snd r) = ([] ++ new)%list
                 /\ 1 = (if existsb refused_deletion new then 1 else 0).
Proof.
  cbv zeta. split; [reflexivity|].
  apply (main_exit_status_tells_refused_deletions Scenario.http Scenario.utcnow
           Scenario.lower (fun _ => Return 5)
           [("JELLYFIN_API_KEY"%string, "k"%string);
            ("RADARR_API_KEY"%string, "k"%string);
            ("SONARR_API_KEY"%string, "k"%string);
            ("DRY_RUN"%string, "false"%string)]
           (Scenario.start
              (Scenario.Build_t (100 * microseconds_per_day)
                 (Return [{| user_Name := "Admin"; user_Id := "u1" |}])
                 (Return [Scenario.watched ("/media/movies/" ++ Scenario.the_matrix) 1 None])
                 (Return [])
                 (Return [Scenario.in_catalog 3 ("/movies/" ++ Scenario.the_matrix)
                            (Some 603) []])
                 (Return []) (Return 500) (Return []) (Return []) (Return [])
                 (Return 200)))
           1); (reflexivity || discriminate).
Defined.

(** ** What a run sends *)

Section Traffic.

Context {World : Type}.
Variable http : forall r : request, World -> outcome (reply r) * World.
Variable utcnow : World -> Z * World.
Variable uid : string.
Implicit Types p : Proc World.

Lemma run_traffic_ok : composes (@T_sent World (run_traffic uid)).
Proof.
  apply T_sent_ok; unfold run_traffic.
  - constructor.
  - intros a b _ Ha Hb. apply Forall_app. split; assumption.
  - intros e _. constructor.
Qed.

Lemma traffic_send (r : request) :
  run_request uid r = true -> obeys (T_sent (run_traffic uid)) (send http r).
Proof.
  intros Hr p. unfold send. destruct (http r (world p)) as [o w]. cbn [snd calls].
  exists [call_of r o]. split; [reflexivity|]. repeat constructor. exact Hr.
Qed.

Lemma traffic_quiet {A} (m : M World A) :
  (forall p, calls (snd (m p)) = calls p) -> obeys (T_sent (run_traffic uid)) m.
Proof.
  intros H p. exists []. rewrite app_nil_r. split; [apply H | constructor].
Qed.

Lemma traffic_now : obeys (T_sent (run_traffic uid)) (now utcnow).
Proof.
  apply traffic_quiet. intros p. unfold now. destruct (utcnow (world p)). reflexivity.
Qed.

Lemma traffic_modify_mapper f : obeys (T_sent (run_traffic uid)) (@modify_mapper World f).
Proof. apply traffic_quiet. reflexivity. Qed.

Lemma traffic_modify_stats f : obeys (T_sent (run_traffic uid)) (@modify_stats World f).
Proof. apply traffic_quiet. reflexivity. Qed.

Hint Resolve traffic_now traffic_modify_mapper traffic_modify_stats : proc.
Hint Extern 1 (obeys (T_sent _) (incr _)) => apply traffic_modify_stats : proc.

Lemma traffic_get_all_radarr_movies :
  obeys (T_sent (run_traffic uid)) (_get_all_radarr_movies http).
Proof.
  unfold _get_all_radarr_movies.
  pose proof (traffic_send GET_radarr_movie eq_refl). obeys_auto run_traffic_ok.
Qed.

Lemma traffic_get_all_sonarr_series :
  obeys (T_sent (run_traffic uid)) (_get_all_sonarr_series http).
Proof.
  unfold _get_all_sonarr_series.
  pose proof (traffic_send GET_sonarr_series eq_refl). obeys_auto run_traffic_ok.
Qed.

Lemma traffic_get_sonarr_episodes sid :
  obeys (T_sent (run_traffic uid)) (_get_sonarr_episodes http sid).
Proof.
  unfold _get_sonarr_episodes.
  pose proof (traffic_send (GET_sonarr_episode sid) eq_refl). obeys_auto run_traffic_ok.
Qed.

Hint Resolve traffic_get_all_radarr_movies traffic_get_all_sonarr_series
  traffic_get_sonarr_episodes : proc.

Lemma traffic_resolve_radarr_movie path t :
  obeys (T_sent (run_traffic uid)) (resolve_radarr_movie http path t).
Proof.
  unfold resolve_radarr_movie, find_radarr_movie_by_path, find_radarr_movie_by_tmdb.
  obeys_auto run_traffic_ok.
Qed.

Lemma traffic_scan_series sp jn sids :
  obeys (T_sent (run_traffic uid)) (scan_series http sp jn sids).
Proof.
  induction sids as [|sid r IH]; cbn [scan_series]; obeys_auto run_traffic_ok.
Qed.

Hint Resolve traffic_resolve_radarr_movie traffic_scan_series : proc.

Lemma traffic_find_sonarr_episode_by_path path sid :
  obeys (T_sent (run_traffic uid)) (find_sonarr_episode_by_path http path sid).
Proof. unfold find_sonarr_episode_by_path. obeys_auto run_traffic_ok. Qed.

Lemma traffic_is_past_grace_period self t :
  obeys (T_sent (run_traffic uid)) (_is_past_grace_period utcnow self t).
Proof. unfold _is_past_grace_period. obeys_auto run_traffic_ok. Qed.

Lemma traffic_delete_radarr_movie i dry :
  i <> 0 -> obeys (T_sent (run_traffic uid)) (delete_radarr_movie http i dry).
Proof.
  intros Hi. apply Z.eqb_neq in Hi. unfold delete_radarr_movie.
  assert (Hr : run_request uid (DELETE_radarr_movie i) = true) by (cbn; now rewrite Hi).
  pose proof (traffic_send (DELETE_radarr_movie i) Hr). obeys_auto run_traffic_ok.
Qed.

Lemma traffic_delete_sonarr_episode_file i dry :
  i <> 0 -> obeys (T_sent (run_traffic uid)) (delete_sonarr_episode_file http i dry).
Proof.
  intros Hi. apply Z.eqb_neq in Hi. unfold delete_sonarr_episode_file.
  assert (Hr : run_request uid (DELETE_sonarr_episodefile i) = true) by (cbn; now rewrite Hi).
  pose proof (traffic_send (DELETE_sonarr_episodefile i) Hr). obeys_auto run_traffic_ok.
Qed.

Hint Resolve traffic_find_sonarr_episode_by_path traffic_is_past_grace_period
  traffic_delete_radarr_movie traffic_delete_sonarr_episode_file : proc.

(** The test against 0 is kept, for the deletion under it. *)
Ltac traffic_auto :=
  repeat first
    [ match goal with
      | |- obeys _ (if Z.eqb ?i 0 then _ else _) => destruct (Z.eqb_spec i 0)
      end
    | obeys_step run_traffic_ok ].

Lemma traffic_cleanup_movie self movie :
  obeys (T_sent (run_traffic uid)) (cleanup_movie http utcnow self movie).
Proof. unfold cleanup_movie. traffic_auto. Qed.

Lemma traffic_cleanup_episode self episode :
  obeys (T_sent (run_traffic uid)) (cleanup_episode http utcnow self episode).
Proof. unfold cleanup_episode. traffic_auto. Qed.

Hint Resolve traffic_cleanup_movie traffic_cleanup_episode : proc.

Lemma traffic_phases self :
  primary_user_id self = uid ->
  obeys (T_sent (run_traffic uid))
        (bind (cleanup_movies http utcnow self) (fun _ => cleanup_episodes http utcnow self)).
Proof.
  intros Hu. unfold cleanup_movies, cleanup_episodes, get_jellyfin_watched_movies,
    get_jellyfin_watched_episodes. rewrite Hu.
  pose proof (traffic_send (GET_jellyfin_Items_Movie uid) (String.eqb_refl uid)).
  pose proof (traffic_send (GET_jellyfin_Items_Episode uid) (String.eqb_refl uid)).
  obeys_auto run_traffic_ok.
Qed.

End Traffic.

(** X18. Every call a run sends is of one of seven kinds: the watched movies or
    the watched episodes of the primary user, the movie catalog, the series
    list, the episodes of one series, the deletion of one movie, the
    deletion of one episode file. A run never lists users or tags, never
    asks for another user's items, never uses the bulk deletion, and never
    deletes under the identifier 0. *)
Theorem run_sends_seven_kinds_of_request {World : Type}
        (http : forall r : request, World -> outcome (reply r) * World)
        (utcnow : World -> Z * World) (self : MediaCleanup) (p : Proc World) :
  exists new,
    calls (snd (run http utcnow self p)) = (calls p ++ new)%list
    /\ Forall (fun c => run_request (primary_user_id self) (call_request c) = true) new.
Proof.
  pose proof (traffic_phases http utcnow (primary_user_id self) self eq_refl p) as H.
  rewrite run_unfold.
  destruct (bind (cleanup_movies http utcnow self)
              (fun _ => cleanup_episodes http utcnow self) p) as [[[]|e] p1];
    cbn [fst snd error_of calls] in *; exact H.
Qed.

(** X19. A run does not consult the Sonarr keep-tag id the constructor
    resolved: with any other value in its place, the run returns the same
    and leaves the same process behind. No episode is kept for its tags. *)
Theorem run_ignores_the_sonarr_keep_tag {World : Type}
        (http : forall r : request, World -> outcome (reply r) * World)
        (utcnow : World -> Z * World) (self : MediaCleanup) (k : option Z) (p : Proc World) :
  run http utcnow
      {| config := config self; primary_user_id := primary_user_id self;
         radarr_keep_tag_id := radarr_keep_tag_id self; sonarr_keep_tag_id := k |} p
  = run http utcnow self p.
Proof. destruct self as [cfg uid rk sk]. reflexivity. Qed.
